(** * A shallow embedding of the JupyterLite JavaScript kernel core

    The development follows the TypeScript sources of
    [packages/javascript-kernel/src]: [display.ts] (the [DisplayHelper]
    class), [executor.ts] (the [JavaScriptExecutor] class: source
    rewriting, value presentation, completion, inspection and
    completeness checking) and, for the completion reply, [kernel.ts].

    JavaScript strings are modelled by [string] (a sequence of 8-bit code
    units), offsets and lengths by [nat], abrupt completion ([throw]) by
    the [completion] type below. *)

From Stdlib Require Import ZArith Lia Ascii String List Permutation Sorted.
From Stdlib Require OrderedTypeEx.
From stdpp Require Import base option list strings gmap pretty.

Local Open Scope string_scope.
#[local] Set Warnings "-register-all".

(** ** Abrupt completion *)

(** What a [throw] carries.  The code under study never inspects a caught
    value except for the parser's [message]. *)
Inductive thrown : Type :=
  | TypeError (message : string)
  | RangeError (message : string)
  | SyntaxError (message : string)
  | UserThrown (tag : string).

Inductive completion (A : Type) : Type :=
  | Normal (a : A)
  | Throw (e : thrown).
Arguments Normal {A} a.
Arguments Throw {A} e.

Definition cbind {A B} (m : completion A) (k : A -> completion B) : completion B :=
  match m with
  | Normal a => k a
  | Throw e => Throw e
  end.

(** [try { m } catch { h }] *)
Definition try_catch {A} (m : completion A) (h : thrown -> completion A) : completion A :=
  match m with
  | Normal a => Normal a
  | Throw e => h e
  end.

#[global] Instance completion_ret : MRet completion := fun A a => Normal a.
#[global] Instance completion_bind : MBind completion := fun A B k m => cbind m k.

(** [try { m } catch { h }] with the caught value ignored. *)
Definition try_or {A} (m : completion A) (h : completion A) : completion A :=
  try_catch m (fun _ => h).

Definition returns {A} (m : completion A) : Prop := exists a, m = Normal a.

Lemma throw_not_returns {A} (e : thrown) : ~ returns (Throw e : completion A).
Proof. intros [a Ha]. discriminate. Qed.

Fixpoint cmapM {A B} (f : A -> completion B) (l : list A) : completion (list B) :=
  match l with
  | [] => Normal []
  | x :: l' => y ← f x; ys ← cmapM f l'; Normal (y :: ys)
  end.

(** ** String primitives of the host language *)

Module Js.

(** [s[i]] *)
Definition charAt (s : string) (i : nat) : option ascii := String.get i s.

(** [s.startsWith(p)] *)
Definition startsWith (s p : string) : bool := String.prefix p s.

(** [s.endsWith(p)] *)
Definition endsWith (s p : string) : bool :=
  let n := String.length s in
  let k := String.length p in
  if decide (k <= n) then String.eqb (String.substring (n - k) k s) p else false.

(** [s.substring(a, b)]: both indices are clamped to the length and
    swapped when out of order. *)
Definition substring (s : string) (a b : nat) : string :=
  let n := String.length s in
  let a' := Nat.min a n in
  let b' := Nat.min b n in
  String.substring (Nat.min a' b') (Nat.max a' b' - Nat.min a' b') s.

(** [s.substring(a)] *)
Definition substringFrom (s : string) (a : nat) : string :=
  substring s a (String.length s).

(** WhiteSpace and LineTerminator code units below 256: what [trim] and
    the regular-expression class [\s] accept. *)
Definition isWhiteSpace (c : ascii) : bool :=
  let n := nat_of_ascii c in
  ((n =? 9) || (n =? 10) || (n =? 11) || (n =? 12) || (n =? 13)
   || (n =? 32) || (n =? 160))%nat.

Fixpoint trimStart (s : string) : string :=
  match s with
  | String c s' => if isWhiteSpace c then trimStart s' else s
  | EmptyString => EmptyString
  end.

Fixpoint trimEnd (s : string) : string :=
  match s with
  | EmptyString => EmptyString
  | String c s' =>
      match trimEnd s' with
      | EmptyString => if isWhiteSpace c then EmptyString else String c EmptyString
      | t => String c t
      end
  end.

(** [s.trim()] *)
Definition trim (s : string) : string := trimEnd (trimStart s).

(** [c.toLowerCase()] on one code unit below 256. *)
Definition lowerChar (c : ascii) : ascii :=
  let n := nat_of_ascii c in
  if (((65 <=? n) && (n <=? 90))
      || ((192 <=? n) && (n <=? 222) && negb (n =? 215)))%nat
  then ascii_of_nat (n + 32) else c.

(** [s.toLowerCase()] *)
Fixpoint toLowerCase (s : string) : string :=
  match s with
  | EmptyString => EmptyString
  | String c s' => String (lowerChar c) (toLowerCase s')
  end.

(** [parts.join(sep)] *)
Fixpoint join (sep : string) (parts : list string) : string :=
  match parts with
  | [] => ""
  | [p] => p
  | p :: rest => p +:+ sep +:+ join sep rest
  end.

(** [s.split(sep)] for a one-character separator: never empty; the
    last element is the text after the last separator. *)
Fixpoint split (sep : ascii) (s : string) : list string :=
  match s with
  | EmptyString => [""]
  | String c s' =>
      if Ascii.eqb c sep then "" :: split sep s'
      else match split sep s' with
           | l :: ls => String c l :: ls
           | [] => [String c ""]
           end
  end.

End Js.

(** * display.ts: the [DisplayHelper] class *)

Module Display.
Section DisplayHelper.

(** The values ([any]) a MIME bundle carries, how a string literal is one
    of them, and [JSON.stringify(content, null, 2)], which may throw
    (cyclic content) and may return [undefined]. *)
Context {any : Type}.
Variable ofString : string -> any.
Variable JSON_stringify : any -> completion any.

(** The host-side state a display callback acts upon. *)
Context {World : Type}.

(** [interface IMimeBundle { [key: string]: any }] *)
Definition IMimeBundle : Type := gmap string any.

Record Transient : Type := { display_id : option string }.

Record IDisplayData : Type := {
  data : IMimeBundle;
  metadata : gmap string any;
  transient : option Transient
}.

Record IDisplayCallbacks : Type := {
  onDisplay : option (IDisplayData -> World -> World);
  onClear : option (bool -> World -> World)
}.

(** The private fields of the class. *)
Record DisplayHelper : Type := {
  _displayCallback : option (IDisplayData -> World -> World);
  _clearCallback : option (bool -> World -> World);
  _displayId : option string;
  _result : option IMimeBundle
}.

(** [constructor(displayId?)] *)
Definition new (displayId : option string) : DisplayHelper :=
  {| _displayCallback := None; _clearCallback := None;
     _displayId := displayId; _result := None |}.

Definition setCallbacks (callbacks : IDisplayCallbacks) (h : DisplayHelper) : DisplayHelper :=
  {| _displayCallback := onDisplay callbacks;
     _clearCallback := onClear callbacks;
     _displayId := _displayId h;
     _result := _result h |}.

Definition getResult (h : DisplayHelper) : option IMimeBundle := _result h.

Definition clearResult (h : DisplayHelper) : DisplayHelper :=
  {| _displayCallback := _displayCallback h;
     _clearCallback := _clearCallback h;
     _displayId := _displayId h;
     _result := None |}.

(** [display(id?)] returns a fresh helper and leaves [this] alone. *)
Definition display (id : option string) (h : DisplayHelper) : DisplayHelper := new id.

(** [this._displayId ? { display_id: this._displayId } : undefined]:
    the empty string is falsy. *)
Definition transientOf (h : DisplayHelper) : option Transient :=
  match _displayId h with
  | Some id => if String.eqb id "" then None else Some {| display_id := Some id |}
  | None => None
  end.

Definition _sendDisplay (bundle : IMimeBundle) (meta : option (gmap string any))
    (h : DisplayHelper) (w : World) : DisplayHelper * World :=
  let displayData :=
    {| data := bundle;
       metadata := default ∅ meta;
       transient := transientOf h |} in
  match _displayCallback h with
  | Some callback => (h, callback displayData w)
  | None =>
      ({| _displayCallback := _displayCallback h;
          _clearCallback := _clearCallback h;
          _displayId := _displayId h;
          _result := Some bundle |}, w)
  end.

(** Object literals, keys in source order. *)
Definition bundle2 (k1 : string) (v1 : any) (k2 : string) (v2 : any) : IMimeBundle :=
  <[k2 := v2]> (<[k1 := v1]> ∅).
Definition bundle1 (k1 : string) (v1 : any) : IMimeBundle := <[k1 := v1]> ∅.

Definition html_bundle (content : string) : IMimeBundle :=
  bundle2 "text/html" (ofString content) "text/plain" (ofString content).
Definition svg_bundle (content : string) : IMimeBundle :=
  bundle2 "image/svg+xml" (ofString content) "text/plain" (ofString "[SVG Image]").
Definition png_bundle (base64Content : string) : IMimeBundle :=
  bundle2 "image/png" (ofString base64Content) "text/plain" (ofString "[PNG Image]").
Definition jpeg_bundle (base64Content : string) : IMimeBundle :=
  bundle2 "image/jpeg" (ofString base64Content) "text/plain" (ofString "[JPEG Image]").
Definition text_bundle (content : string) : IMimeBundle :=
  bundle1 "text/plain" (ofString content).
Definition markdown_bundle (content : string) : IMimeBundle :=
  bundle2 "text/markdown" (ofString content) "text/plain" (ofString content).
Definition latex_bundle (content : string) : IMimeBundle :=
  bundle2 "text/latex" (ofString content) "text/plain" (ofString content).
Definition json_bundle (content plain : any) : IMimeBundle :=
  bundle2 "application/json" content "text/plain" plain.

Definition html (content : string) meta := _sendDisplay (html_bundle content) meta.
Definition svg (content : string) meta := _sendDisplay (svg_bundle content) meta.
Definition png (base64Content : string) meta := _sendDisplay (png_bundle base64Content) meta.
Definition jpeg (base64Content : string) meta := _sendDisplay (jpeg_bundle base64Content) meta.
Definition text (content : string) meta := _sendDisplay (text_bundle content) meta.
Definition markdown (content : string) meta := _sendDisplay (markdown_bundle content) meta.
Definition latex (content : string) meta := _sendDisplay (latex_bundle content) meta.
Definition mime (mimeBundle : IMimeBundle) meta := _sendDisplay mimeBundle meta.

(** [json] evaluates [JSON.stringify] while building its argument, so a
    throw there leaves helper and world untouched. *)
Definition json (content : any) meta (h : DisplayHelper) (w : World)
    : completion (DisplayHelper * World) :=
  plain ← JSON_stringify content;
  Normal (_sendDisplay (json_bundle content plain) meta h w).

(** [clear(options = {})] *)
Definition clear (wait : option bool) (h : DisplayHelper) (w : World) : World :=
  match _clearCallback h with
  | Some callback => callback (default false wait) w
  | None => w
  end.

(** One call of a display method, as data. *)
Inductive call : Type :=
  | Html (content : string)
  | Svg (content : string)
  | Png (base64Content : string)
  | Jpeg (base64Content : string)
  | Text (content : string)
  | Markdown (content : string)
  | Latex (content : string)
  | Json (content : any)
  | Mime (mimeBundle : IMimeBundle).

Definition invoke (c : call) (meta : option (gmap string any))
    (h : DisplayHelper) (w : World) : completion (DisplayHelper * World) :=
  match c with
  | Html s => Normal (html s meta h w)
  | Svg s => Normal (svg s meta h w)
  | Png s => Normal (png s meta h w)
  | Jpeg s => Normal (jpeg s meta h w)
  | Text s => Normal (text s meta h w)
  | Markdown s => Normal (markdown s meta h w)
  | Latex s => Normal (latex s meta h w)
  | Json v => json v meta h w
  | Mime b => Normal (mime b meta h w)
  end.

(** The bundle a call produces, once its arguments are evaluated. *)
Definition produced (c : call) : completion IMimeBundle :=
  match c with
  | Html s => Normal (html_bundle s)
  | Svg s => Normal (svg_bundle s)
  | Png s => Normal (png_bundle s)
  | Jpeg s => Normal (jpeg_bundle s)
  | Text s => Normal (text_bundle s)
  | Markdown s => Normal (markdown_bundle s)
  | Latex s => Normal (latex_bundle s)
  | Json v => plain ← JSON_stringify v; Normal (json_bundle v plain)
  | Mime b => Normal b
  end.

Lemma invoke_sendDisplay c meta h w :
  invoke c meta h w = (b ← produced c; Normal (_sendDisplay b meta h w)).
Proof.
  destruct c; simpl; try reflexivity.
  unfold json. destruct (JSON_stringify content); reflexivity.
Qed.

Lemma sendDisplay_callback b meta h w cb :
  _displayCallback h = Some cb ->
  _sendDisplay b meta h w =
    (h, cb {| data := b; metadata := default ∅ meta; transient := transientOf h |} w).
Proof. unfold _sendDisplay. intros ->. reflexivity. Qed.

(** C10.  A fresh helper has no [onDisplay] callback, and [setCallbacks]
    installs the one it is given (or none).  On a helper without callback
    every display method ([html], [svg], [png], [jpeg], [text],
    [markdown], [latex], [json], [mime]) stores the bundle it produced, so
    that [getResult] returns it, and leaves the host untouched; on a
    helper with a callback the method hands the display data to the
    callback and returns the helper as it was, stored result included;
    [clearResult] resets the stored result to [undefined]. *)
Theorem display_methods_store_or_forward
    (c : call) (meta : option (gmap string any)) (h : DisplayHelper) (w : World)
    (b : IMimeBundle) (Hproduced : produced c = Normal b) :
  (_displayCallback h = None ->
     exists h', invoke c meta h w = Normal (h', w) /\ getResult h' = Some b)
  /\ (forall callback, _displayCallback h = Some callback ->
        invoke c meta h w =
          Normal (h, callback {| data := b; metadata := default ∅ meta;
                                 transient := transientOf h |} w))
  /\ getResult (clearResult h) = None
  /\ (forall id, _displayCallback (new id) = None /\ getResult (new id) = None)
  /\ (forall callbacks,
        _displayCallback (setCallbacks callbacks h) = onDisplay callbacks
        /\ getResult (setCallbacks callbacks h) = getResult h).
Proof.
  rewrite invoke_sendDisplay, Hproduced. simpl.
  split; [|split; [|split; [|split; [|split; reflexivity]]]]; [| | |split; reflexivity].
  - intros Hnone.
    unfold mbind, completion_bind, cbind, _sendDisplay. rewrite Hnone.
    eexists. split; reflexivity.
  - intros callback Hcb.
    unfold mbind, completion_bind, cbind.
    now rewrite (sendDisplay_callback b meta h w callback Hcb).
  - reflexivity.
Qed.

End DisplayHelper.

(** The statement above at a concrete helper: [json({x})] on a fresh helper
    with string payloads and a host that logs what it is sent. *)
Lemma display_methods_witness :
  let stringify := fun s : string => Normal ("<" +:+ s +:+ ">") in
  let h := new (World := list string) (Some "d1") in
  (_displayCallback h = None ->
     exists h', invoke id stringify (Json "x") None h [] = Normal (h', [])
                /\ getResult h' = Some (json_bundle "x" "<x>"))
  /\ (forall callback, _displayCallback h = Some callback ->
        invoke id stringify (Json "x") None h [] =
          Normal (h, callback {| data := json_bundle "x" "<x>"; metadata := ∅;
                                 transient := transientOf h |} []))
  /\ getResult (clearResult h) = None.
Proof.
  intros stringify h.
  destruct (display_methods_store_or_forward id stringify (Json "x") None h []
              (json_bundle "x" "<x>") eq_refl) as (Hstore & Hforward & Hclear & _).
  auto.
Defined.

End Display.

(** * executor.ts: the [JavaScriptExecutor] class *)

Module Executor.

(** ** Configuration *)

Record IMagicImportsConfig : Type := {
  enabled : bool;
  baseUrl : string;
  enableAutoNpm : bool
}.

Record ExecutorConfig : Type := { magicImports : IMagicImportsConfig }.

(** [new ExecutorConfig()] *)
Definition defaultConfig : ExecutorConfig :=
  {| magicImports :=
       {| enabled := true;
          baseUrl := "https://cdn.jsdelivr.net/";
          enableAutoNpm := true |} |}.

(** ** The syntax tree the parser hands over (ESTree, with ranges) *)

(** A value that is a string or [undefined], such as [node.name] on a node
    that is not an [Identifier]. *)
Definition name_or_undefined : Type := option string.

(** Interpolation of such a value in a template literal. *)
Definition show (n : name_or_undefined) : string := default "undefined" n.

(** The key of a property in an object pattern. *)
Inductive PropertyKey : Type :=
  | KeyIdentifier (name : string)
  | KeyLiteral (raw : string)
  | KeyComputed.

(** Binding patterns, the [id] of a variable declarator.  The
    [properties] of an object pattern are [Property] nodes and, for
    [...rest], a node of type [RestElement] ([RestProperty] below), which
    has an [argument] and neither [key] nor [value]. *)
Inductive Pattern : Type :=
  | Identifier (name : string)
  | ObjectPattern (properties : list PatternProperty)
  | ArrayPattern (elements : list (option Pattern))
  | AssignmentPattern (left : Pattern)
  | RestElement (argument : Pattern)
with PatternProperty : Type :=
  | Property (key : PropertyKey) (value : Pattern)
  | RestProperty (argument : Pattern).

Record VariableDeclarator : Type := { id : Pattern }.

(** Import specifiers; [imported.name] is [undefined] when the imported
    binding is written as a string literal. *)
Inductive ImportSpecifierNode : Type :=
  | ImportSpecifier (imported : name_or_undefined) (local : string)
  | ImportDefaultSpecifier (local : string)
  | ImportNamespaceSpecifier (local : string).

(** The expression of an expression statement: its [type] tag and range. *)
Record Expression : Type := {
  etype : string;
  estart : nat;
  eend : nat
}.

Inductive StatementKind : Type :=
  | FunctionDeclaration (name : string)
  | ClassDeclaration (name : string)
  | VariableDeclaration (declarations : list VariableDeclarator)
  | ExpressionStatement (expression : Expression)
  | ImportDeclaration (source : string) (specifiers : list ImportSpecifierNode)
  | OtherStatement (type : string).

Record Statement : Type := {
  kind : StatementKind;
  start : nat;
  end_ : nat
}.

Record Program : Type := { body : list Statement }.

(** [node.name] *)
Definition pattern_name (p : Pattern) : name_or_undefined :=
  match p with
  | Identifier n => Some n
  | _ => None
  end.

Definition key_name (k : PropertyKey) : name_or_undefined :=
  match k with
  | KeyIdentifier n => Some n
  | _ => None
  end.

(** ** Export of top-level bindings *)

(** The line feed and the double quote of the generated text. *)
Definition nl : string := String "010" "".
Definition dq : string := String "034" "".

(** [addToGlobalThisCode(key, identifier = key)] *)
Definition addToGlobalThisCode (key : name_or_undefined)
    (identifier : name_or_undefined) : string :=
  let identifier := match identifier with Some i => Some i | None => key end in
  "globalThis[" +:+ dq +:+ show key +:+ dq +:+ "] = " +:+ show identifier +:+ ";".

(** [replaceCode(code, start, end, newCode)] *)
Definition replaceCode (code : string) (start end_ : nat) (newCode : string) : string :=
  Js.substring code 0 start +:+ newCode +:+ Js.substringFrom code end_.

(** The statements one property of an object pattern contributes.  A
    rest element has no [key], and reading [prop.key.name] off it is a
    TypeError. *)
Definition exportProperty (prop : PatternProperty) : completion (list string) :=
  match prop with
  | RestProperty _ =>
      Throw (TypeError "Cannot read properties of undefined (reading 'name')")
  | Property propKey propValue =>
      let key := key_name propKey in
      if decide (key = Some "default") then
        match propValue with
        | Identifier value => Normal [addToGlobalThisCode (Some value) None]
        | _ => Normal []
        end
      else Normal [addToGlobalThisCode key None]
  end.

(** The statements one declarator contributes. *)
Definition exportDeclarator (declaration : VariableDeclarator) : completion (list string) :=
  match id declaration with
  | ObjectPattern properties =>
      extraCode ← cmapM exportProperty properties;
      Normal (List.concat extraCode)
  | ArrayPattern elements =>
      let keys := pattern_name <$> omap (fun el => el) elements in
      Normal ((fun key => addToGlobalThisCode key None) <$> keys)
  | Identifier n => Normal [addToGlobalThisCode (Some n) None]
  | _ => Normal []
  end.

(** The statements one top-level node contributes. *)
Definition exportStatement (node : Statement) : completion (list string) :=
  match kind node with
  | FunctionDeclaration name | ClassDeclaration name =>
      Normal ["globalThis[" +:+ dq +:+ name +:+ dq +:+ "] = " +:+ name +:+ ";"]
  | VariableDeclaration declarations =>
      extraCode ← cmapM exportDeclarator declarations;
      Normal (List.concat extraCode)
  | _ => Normal []
  end.

(** [addToGlobalScope(ast)] *)
Definition addToGlobalScope (ast : Program) : completion string :=
  extraCode ← cmapM exportStatement (body ast);
  Normal (Js.join nl (List.concat extraCode)).

(** ** Implicit result of the last statement *)

Record LastStatement : Type := {
  withReturn : bool;
  modifiedUserCode : string;
  extraReturnCode : string
}.

(** [for (let i = from; i < to; i++) if (code[i] === ';') ...], with
    [steps] iterations left. *)
Fixpoint semicolonScan (code : string) (i steps : nat) : bool :=
  match steps with
  | O => false
  | S steps' =>
      match Js.charAt code i with
      | Some c => if Ascii.eqb c ";" then true else semicolonScan code (S i) steps'
      | None => semicolonScan code (S i) steps'
      end
  end.

Definition semicolonFound (code : string) (lastNodeExprEnd lastNodeRestEnd : nat) : bool :=
  semicolonScan code lastNodeExprEnd (lastNodeRestEnd - lastNodeExprEnd).

Definition unchanged (code : string) : LastStatement :=
  {| withReturn := false; modifiedUserCode := code; extraReturnCode := "" |}.

(** [handleLastStatement(code, ast)] *)
Definition handleLastStatement (code : string) (ast : Program) : LastStatement :=
  match last (body ast) with
  | None => unchanged code
  | Some lastNode =>
      match kind lastNode with
      | ExpressionStatement expression =>
          if negb (String.eqb (etype expression) "AssignmentExpression")
             && negb (semicolonFound code (eend expression) (end_ lastNode))
          then
            let codeOfLastNode := Js.substring code (estart expression) (eend expression) in
            {| withReturn := true;
               modifiedUserCode :=
                 Js.substring code 0 (estart expression)
                 +:+ Js.substringFrom code (eend expression);
               extraReturnCode := "return [" +:+ codeOfLastNode +:+ "];" |}
          else unchanged code
      | _ => unchanged code
      end
  end.

(** ** Module resolution *)

Definition noMagicStarts : list string := ["http://"; "https://"; "data:"; "file://"; "blob:"].
Definition noEmsEnds : list string := [".js"; ".mjs"; ".cjs"; ".wasm"; "+esm"].

(** The local [baseUrl]: the configured one with a trailing slash. *)
Definition normalizedBaseUrl (config : ExecutorConfig) : string :=
  let base := baseUrl (magicImports config) in
  if Js.endsWith base "/" then base else base +:+ "/".

(** The local [emsExtraEnd]. *)
Definition emsExtraEnd (source : string) : string :=
  let addEms := negb (existsb (Js.endsWith source) noEmsEnds) in
  if addEms then (if Js.endsWith source "/" then "+esm" else "/+esm") else "".

(** [transformImportSource(source)] *)
Definition transformImportSource (config : ExecutorConfig) (source : string) : string :=
  if negb (enabled (magicImports config)) then source
  else
    let baseUrl := normalizedBaseUrl config in
    let emsExtraEnd := emsExtraEnd source in
    if existsb (Js.startsWith source) noMagicStarts then source
    else if existsb (Js.startsWith source) ["npm/"; "gh/"]
            || negb (enableAutoNpm (magicImports config))
    then baseUrl +:+ source +:+ emsExtraEnd
    else baseUrl +:+ "npm/" +:+ source +:+ emsExtraEnd.

(** ** Lowering of import declarations *)

Record ImportRewrite : Type := {
  rewrittenCode : string;
  codeAddToGlobalScope : string
}.

(** What the loop over [node.specifiers] accumulates. *)
Record SpecifierScan : Type := {
  hasDefaultImport : bool;
  defaultImportName : string;
  hasNamespaceImport : bool;
  namespaceImportName : string;
  importedNames : list name_or_undefined;
  localNames : list string
}.

Definition scanStart : SpecifierScan :=
  {| hasDefaultImport := false; defaultImportName := "";
     hasNamespaceImport := false; namespaceImportName := "";
     importedNames := []; localNames := [] |}.

Definition scanSpecifier (acc : SpecifierScan) (specifier : ImportSpecifierNode) : SpecifierScan :=
  match specifier with
  | ImportSpecifier imported local =>
      if decide (imported = Some "default") then
        {| hasDefaultImport := true; defaultImportName := local;
           hasNamespaceImport := hasNamespaceImport acc;
           namespaceImportName := namespaceImportName acc;
           importedNames := importedNames acc; localNames := localNames acc |}
      else
        {| hasDefaultImport := hasDefaultImport acc;
           defaultImportName := defaultImportName acc;
           hasNamespaceImport := hasNamespaceImport acc;
           namespaceImportName := namespaceImportName acc;
           importedNames := importedNames acc ++ [imported];
           localNames := localNames acc ++ [local] |}
  | ImportDefaultSpecifier local =>
      {| hasDefaultImport := true; defaultImportName := local;
         hasNamespaceImport := hasNamespaceImport acc;
         namespaceImportName := namespaceImportName acc;
         importedNames := importedNames acc; localNames := localNames acc |}
  | ImportNamespaceSpecifier local =>
      {| hasDefaultImport := hasDefaultImport acc;
         defaultImportName := defaultImportName acc;
         hasNamespaceImport := true; namespaceImportName := local;
         importedNames := importedNames acc; localNames := localNames acc |}
  end.

(** The inner loop over [importedNames]: the destructuring list and the
    exports, [localNames[j]] being [undefined] past the end. *)
Fixpoint namedClause (imported : list name_or_undefined) (locals : list string)
    : string * string :=
  match imported with
  | [] => ("", "")
  | name :: rest =>
      let '(names, exports) := namedClause rest (tail locals) in
      (show name +:+ (if decide (rest = []) then "" else ", ") +:+ names,
       addToGlobalThisCode (head locals) name +:+ exports)
  end.

(** The replacement text of one import declaration with specifiers, and
    the exports it adds. *)
Definition lowerImport (importSource : string) (specifiers : list ImportSpecifierNode)
    : string * string :=
  let scan := fold_left scanSpecifier specifiers scanStart in
  let awaitImport := " = await import(" +:+ dq +:+ importSource +:+ dq +:+ ");" +:+ nl in
  let '(code1, glob1) :=
    if hasDefaultImport scan then
      ("const { default: " +:+ defaultImportName scan +:+ " }" +:+ awaitImport,
       addToGlobalThisCode (Some (defaultImportName scan)) None)
    else ("", "") in
  let '(code2, glob2) :=
    if hasNamespaceImport scan then
      (code1 +:+ "const " +:+ namespaceImportName scan +:+ awaitImport,
       glob1 +:+ addToGlobalThisCode (Some (namespaceImportName scan)) None)
    else (code1, glob1) in
  match importedNames scan with
  | [] => (code2, glob2)
  | _ =>
      let '(names, exports) := namedClause (importedNames scan) (localNames scan) in
      (code2 +:+ "const { " +:+ names +:+ " }" +:+ awaitImport, glob2 +:+ exports)
  end.

Definition rewriteNode (config : ExecutorConfig) (node : Statement) (acc : ImportRewrite)
    : ImportRewrite :=
  match kind node with
  | ImportDeclaration source specifiers =>
      let importSource := transformImportSource config source in
      match specifiers with
      | [] =>
          {| rewrittenCode :=
               replaceCode (rewrittenCode acc) (start node) (end_ node)
                 ("await import(" +:+ dq +:+ importSource +:+ dq +:+ ");" +:+ nl);
             codeAddToGlobalScope := codeAddToGlobalScope acc |}
      | _ =>
          let '(newCodeOfNode, exports) := lowerImport importSource specifiers in
          {| rewrittenCode :=
               replaceCode (rewrittenCode acc) (start node) (end_ node) newCodeOfNode;
             codeAddToGlobalScope := codeAddToGlobalScope acc +:+ exports |}
      end
  | _ => acc
  end.

(** [rewriteImportStatements(code, ast)]: the nodes are visited from the
    last to the first. *)
Definition rewriteImportStatements (config : ExecutorConfig) (code : string) (ast : Program)
    : ImportRewrite :=
  foldr (rewriteNode config) {| rewrittenCode := code; codeAddToGlobalScope := "" |} (body ast).

(** The two-line source [const {a, ...r} = o] / [r] and its tree: a
    declaration whose object pattern has a rest element, then an
    unterminated expression statement. *)
Definition restSource : string := "const {a, ...r} = o" +:+ nl +:+ "r".

Definition restProgram : Program :=
  {| body :=
       [ {| kind :=
              VariableDeclaration
                [ {| id := ObjectPattern
                             [ Property (KeyIdentifier "a") (Identifier "a");
                               RestProperty (Identifier "r") ] |} ];
            start := 0; end_ := 19 |};
         {| kind := ExpressionStatement
                      {| etype := "Identifier"; estart := 20; eend := 21 |};
            start := 20; end_ := 21 |} ] |}.

(** ** The transform and its read-only variant *)

Section Engine.

(** [parseScript(code, { ranges: true, module: true })] of the parser
    package: a tree, or a thrown syntax error. *)
Variable parseScript : string -> completion Program.

(** Function objects, the no-op [async () => {}], and
    [new Function(body)()], which compiles [body] and may reject it. *)
Context {AsyncFunction : Type}.
Variable noop : AsyncFunction.
Variable newFunction : string -> completion AsyncFunction.

(** The global object of the execution frame. *)
Context {Window : Type}.

Record JavaScriptExecutor : Type := {
  config : ExecutorConfig;
  globalScope : Window
}.

Record IAsyncCodeResult : Type := {
  asyncFunction : AsyncFunction;
  asyncWithReturn : bool
}.

(** The template literal [combinedCode]. *)
Definition combinedCode (finalCode codeAddToGlobalScope extraReturnCode : string) : string :=
  nl +:+ "      " +:+ finalCode +:+
  nl +:+ "      " +:+ codeAddToGlobalScope +:+
  nl +:+ "      " +:+ extraReturnCode +:+
  nl +:+ "    ".

Definition builtinsCode : string := "const { display, console } = this;".

(** The text handed to [new Function]. *)
Definition functionBody (combined : string) : string :=
  nl +:+ "      const afunc = async function() {" +:+
  nl +:+ "        " +:+ builtinsCode +:+
  nl +:+ "        " +:+ combined +:+
  nl +:+ "      };" +:+
  nl +:+ "      return afunc;" +:+
  nl +:+ "    ".

(** The text of the function [makeAsyncFromCode] builds for a parsed
    source, given the exports of the first pass. *)
Definition generatedSource (this : JavaScriptExecutor) (code : string) (ast : Program)
    (exports : string) : string :=
  let last := handleLastStatement code ast in
  let importResult := rewriteImportStatements (config this) (modifiedUserCode last) ast in
  functionBody
    (combinedCode (rewrittenCode importResult)
       (exports +:+ codeAddToGlobalScope importResult)
       (extraReturnCode last)).

(** [makeAsyncFromCode(code)] *)
Definition makeAsyncFromCode (this : JavaScriptExecutor) (code : string)
    : completion IAsyncCodeResult :=
  if decide (String.length code = 0) then
    Normal {| asyncFunction := noop; asyncWithReturn := false |}
  else
    ast ← parseScript code;
    exports ← addToGlobalScope ast;
    let last := handleLastStatement code ast in
    f ← newFunction (generatedSource this code ast exports);
    Normal {| asyncFunction := f; asyncWithReturn := withReturn last |}.

Record IImportInfo : Type := {
  info_source : string;
  url : string;
  defaultImport : option string;
  namespaceImport : option string;
  namedImports : gmap string string
}.

Definition recordSpecifier (info : IImportInfo) (specifier : ImportSpecifierNode) : IImportInfo :=
  match specifier with
  | ImportDefaultSpecifier local =>
      {| info_source := info_source info; url := url info;
         defaultImport := Some local;
         namespaceImport := namespaceImport info;
         namedImports := namedImports info |}
  | ImportNamespaceSpecifier local =>
      {| info_source := info_source info; url := url info;
         defaultImport := defaultImport info;
         namespaceImport := Some local;
         namedImports := namedImports info |}
  | ImportSpecifier imported local =>
      if decide (imported = Some "default") then
        {| info_source := info_source info; url := url info;
           defaultImport := Some local;
           namespaceImport := namespaceImport info;
           namedImports := namedImports info |}
      else
        {| info_source := info_source info; url := url info;
           defaultImport := defaultImport info;
           namespaceImport := namespaceImport info;
           namedImports := <[show imported := local]> (namedImports info) |}
  end.

Definition importInfoOf (this : JavaScriptExecutor) (node : Statement) : list IImportInfo :=
  match kind node with
  | ImportDeclaration source specifiers =>
      [fold_left recordSpecifier specifiers
         {| info_source := source;
            url := transformImportSource (config this) source;
            defaultImport := None; namespaceImport := None;
            namedImports := ∅ |}]
  | _ => []
  end.

(** [extractImports(code)], with the executor threaded through: the
    method reads [this.config] and assigns no field. *)
Definition extractImports (code : string) (this : JavaScriptExecutor)
    : completion (list IImportInfo) * JavaScriptExecutor :=
  if decide (String.length code = 0) then (Normal [], this)
  else
    (try_or
       (ast ← parseScript code;
        Normal (List.concat (importInfoOf this <$> body ast)))
       (Normal []),
     this).

(** *** Facts about the implicit-result pass *)

Lemma handleLastStatement_capture code ast lastNode expression :
  last (body ast) = Some lastNode ->
  kind lastNode = ExpressionStatement expression ->
  etype expression <> "AssignmentExpression" ->
  semicolonFound code (eend expression) (end_ lastNode) = false ->
  handleLastStatement code ast =
    {| withReturn := true;
       modifiedUserCode :=
         Js.substring code 0 (estart expression) +:+ Js.substringFrom code (eend expression);
       extraReturnCode :=
         "return [" +:+ Js.substring code (estart expression) (eend expression) +:+ "];" |}.
Proof.
  intros Hlast Hkind Htype Hsemi. unfold handleLastStatement.
  rewrite Hlast, Hkind, Hsemi.
  destruct (String.eqb_spec (etype expression) "AssignmentExpression"); [done|].
  reflexivity.
Qed.

Lemma handleLastStatement_unchanged code ast lastNode :
  last (body ast) = Some lastNode ->
  (forall expression, kind lastNode = ExpressionStatement expression ->
     etype expression = "AssignmentExpression"
     \/ semicolonFound code (eend expression) (end_ lastNode) = true) ->
  handleLastStatement code ast = unchanged code.
Proof.
  intros Hlast Hno. unfold handleLastStatement. rewrite Hlast.
  destruct (kind lastNode) as [| | |expression| |] eqn:Hkind; try reflexivity.
  destruct (Hno expression eq_refl) as [-> | ->]; simpl.
  - reflexivity.
  - now rewrite andb_false_r.
Qed.

(** When the first pass completes and the engine accepts the generated
    text, the flag handed back is the one [handleLastStatement] computed. *)
Lemma makeAsyncFromCode_returns this code ast exports f :
  String.length code <> 0 ->
  parseScript code = Normal ast ->
  addToGlobalScope ast = Normal exports ->
  newFunction (generatedSource this code ast exports) = Normal f ->
  makeAsyncFromCode this code =
    Normal {| asyncFunction := f;
              asyncWithReturn := withReturn (handleLastStatement code ast) |}.
Proof.
  intros Hlen Hparse Hexports Hnew. unfold makeAsyncFromCode.
  destruct (decide (String.length code = 0)); [done|].
  rewrite Hparse. simpl. rewrite Hexports. simpl. rewrite Hnew. reflexivity.
Qed.

(** A throw of the first pass leaves [makeAsyncFromCode] without result. *)
Lemma makeAsyncFromCode_export_throw this code ast e :
  String.length code <> 0 ->
  parseScript code = Normal ast ->
  addToGlobalScope ast = Throw e ->
  makeAsyncFromCode this code = Throw e.
Proof.
  intros Hlen Hparse Hexports. unfold makeAsyncFromCode.
  destruct (decide (String.length code = 0)); [done|].
  rewrite Hparse. simpl. rewrite Hexports. reflexivity.
Qed.

(** C1, on the code: the last statement of [restSource] is an unterminated
    expression statement that is no assignment, and the implicit-result
    pass asks for [return [r];]; yet [makeAsyncFromCode] hands back no
    result at all, because the export pass throws a TypeError on the rest
    element of the declaration before it. *)
Theorem makeAsyncFromCode_rest_property_throws (this : JavaScriptExecutor)
    (Hparse : parseScript restSource = Normal restProgram) :
  handleLastStatement restSource restProgram
  = {| withReturn := true;
       modifiedUserCode := "const {a, ...r} = o" +:+ nl;
       extraReturnCode := "return [r];" |}
  /\ makeAsyncFromCode this restSource
     = Throw (TypeError "Cannot read properties of undefined (reading 'name')").
Proof.
  split; [reflexivity|].
  apply (makeAsyncFromCode_export_throw this restSource restProgram); [done|exact Hparse|].
  reflexivity.
Qed.

(** C8.  [extractImports] hands the executor back as it received it, a
    second call on the same text returns what the first returned, no call
    throws, and a text the parser rejects yields the empty sequence. *)
Theorem extractImports_idempotent_total (code : string) (this : JavaScriptExecutor) :
  (extractImports code this).2 = this
  /\ extractImports code (extractImports code this).2 = extractImports code this
  /\ returns (extractImports code this).1
  /\ (forall e, parseScript code = Throw e -> (extractImports code this).1 = Normal []).
Proof.
  assert (Hthis : (extractImports code this).2 = this).
  { unfold extractImports. now destruct (decide (String.length code = 0)). }
  split; [exact Hthis|]. split; [now rewrite Hthis|]. split.
  - unfold extractImports, returns.
    destruct (decide (String.length code = 0)); simpl; [by eexists|].
    destruct (parseScript code); simpl; by eexists.
  - intros e He. unfold extractImports.
    destruct (decide (String.length code = 0)); [done|].
    simpl. now rewrite He.
Qed.

End Engine.

(** The statement above for a parser that knows this one source and an
    engine that accepts every text. *)
Lemma makeAsyncFromCode_rest_property_witness :
  let parse := fun code : string =>
    if String.eqb code restSource then Normal restProgram
    else Throw (SyntaxError "Unexpected token") in
  let this := {| config := defaultConfig; globalScope := tt |} in
  handleLastStatement restSource restProgram
  = {| withReturn := true;
       modifiedUserCode := "const {a, ...r} = o" +:+ nl;
       extraReturnCode := "return [r];" |}
  /\ makeAsyncFromCode parse tt (fun body : string => Normal tt) this restSource
     = Throw (TypeError "Cannot read properties of undefined (reading 'name')").
Proof.
  intros parse this.
  apply (makeAsyncFromCode_rest_property_throws parse tt (fun _ => Normal tt) this).
  reflexivity.
Defined.

(** *** Facts about module resolution *)

Lemma substring_whole p : String.substring 0 (String.length p) p = p.
Proof. induction p as [|d p IHp]; simpl; [reflexivity|]. now rewrite IHp. Qed.

Lemma substring_at_end s p :
  String.substring (String.length s) (String.length p) (s +:+ p) = p.
Proof.
  induction s as [|c s IH]; simpl; [apply substring_whole|exact IH].
Qed.

Lemma length_app_string s p :
  String.length (s +:+ p) = String.length s + String.length p.
Proof. induction s; simpl; [reflexivity|]. now rewrite IHs. Qed.

Lemma endsWith_app s p : Js.endsWith (s +:+ p) p = true.
Proof.
  unfold Js.endsWith. rewrite length_app_string.
  destruct (decide (String.length p <= String.length s + String.length p)); [|lia].
  replace (String.length s + String.length p - String.length p) with (String.length s) by lia.
  rewrite substring_at_end. apply String.eqb_refl.
Qed.

Lemma normalizedBaseUrl_slash config : Js.endsWith (normalizedBaseUrl config) "/" = true.
Proof.
  unfold normalizedBaseUrl.
  destruct (Js.endsWith (baseUrl (magicImports config)) "/") eqn:E; [exact E|].
  apply endsWith_app.
Qed.

(** The policy in the words of the specification: no suffix for a
    specifier that ends in a slash. *)
Definition claimedSuffix (source : string) : string :=
  if existsb (Js.endsWith source) noEmsEnds then ""
  else if Js.endsWith source "/" then "" else "/+esm".

Definition claimedPolicy (config : ExecutorConfig) (source : string) : string :=
  if existsb (Js.startsWith source) noMagicStarts then source
  else if negb (enabled (magicImports config)) then source
  else if existsb (Js.startsWith source) ["npm/"; "gh/"]
          || negb (enableAutoNpm (magicImports config))
  then normalizedBaseUrl config +:+ source +:+ claimedSuffix source
  else normalizedBaseUrl config +:+ "npm/" +:+ source +:+ claimedSuffix source.

(** C3, as stated, fails: under the default policy the specifier
    ["lodash/"] receives the suffix ["+esm"], not the empty one. *)
Lemma transformImportSource_trailing_slash :
  transformImportSource defaultConfig "lodash/" = "https://cdn.jsdelivr.net/npm/lodash/+esm"
  /\ claimedPolicy defaultConfig "lodash/" = "https://cdn.jsdelivr.net/npm/lodash/"
  /\ transformImportSource defaultConfig "lodash/" <> claimedPolicy defaultConfig "lodash/".
Proof. split; [reflexivity|]. split; [reflexivity|]. discriminate. Qed.

(** C3, amended.  A specifier with one of the five raw prefixes, and any
    specifier when magic imports are disabled, comes back unchanged;
    otherwise the result is the slash-terminated base URL, then ["npm/"]
    unless the specifier starts with ["npm/"] or ["gh/"] or auto-npm is
    off, then the specifier, then the suffix: empty after one of
    [.js .mjs .cjs .wasm +esm], ["+esm"] after a trailing slash,
    ["/+esm"] otherwise.  ["lodash"] resolves under the default policy to
    a URL ending in [npm/lodash/+esm]. *)
Theorem transformImportSource_policy (config : ExecutorConfig) (source : string) :
  let result := transformImportSource config source in
  let prefixed :=
    existsb (Js.startsWith source) ["npm/"; "gh/"]
    || negb (enableAutoNpm (magicImports config)) in
  (existsb (Js.startsWith source) noMagicStarts = true -> result = source)
  /\ (enabled (magicImports config) = false -> result = source)
  /\ (enabled (magicImports config) = true ->
      existsb (Js.startsWith source) noMagicStarts = false ->
      result = normalizedBaseUrl config +:+ (if prefixed then "" else "npm/")
               +:+ source +:+ emsExtraEnd source)
  /\ Js.endsWith (normalizedBaseUrl config) "/" = true
  /\ (existsb (Js.endsWith source) noEmsEnds = true -> emsExtraEnd source = "")
  /\ (existsb (Js.endsWith source) noEmsEnds = false ->
      emsExtraEnd source = if Js.endsWith source "/" then "+esm" else "/+esm")
  /\ transformImportSource defaultConfig "lodash" = "https://cdn.jsdelivr.net/npm/lodash/+esm".
Proof.
  cbv zeta. unfold transformImportSource.
  split; [|split; [|split; [|split; [|split; [|split]]]]].
  - intros ->. now destruct (enabled (magicImports config)).
  - now intros ->.
  - intros -> ->. simpl negb. cbv iota.
    destruct (existsb (Js.startsWith source) ["npm/"; "gh/"]
              || negb (enableAutoNpm (magicImports config))); reflexivity.
  - apply normalizedBaseUrl_slash.
  - unfold emsExtraEnd. now intros ->.
  - unfold emsExtraEnd. now intros ->.
  - reflexivity.
Qed.

(** The amended statement at ["lodash/"] with auto-npm and magic imports on. *)
Lemma transformImportSource_policy_witness :
  transformImportSource defaultConfig "lodash/"
  = normalizedBaseUrl defaultConfig +:+ "npm/" +:+ "lodash/" +:+ emsExtraEnd "lodash/"
  /\ emsExtraEnd "lodash/" = "+esm".
Proof.
  destruct (transformImportSource_policy defaultConfig "lodash/")
    as (_ & _ & Hres & _ & _ & Hsuffix & _).
  split.
  - apply Hres; reflexivity.
  - apply Hsuffix. reflexivity.
Defined.

(** *** Facts about the export pass *)

(** The tree of [const {a, b: c} = obj;]. *)
Definition renamedDestructuring : Program :=
  {| body :=
       [ {| kind :=
              VariableDeclaration
                [ {| id := ObjectPattern
                             [ Property (KeyIdentifier "a") (Identifier "a");
                               Property (KeyIdentifier "b") (Identifier "c") ] |} ];
            start := 0; end_ := 24 |} ] |}.

(** A property whose key is not [default] is exported under its key,
    whatever it binds. *)
Lemma exportProperty_key k value :
  k <> "default" ->
  exportProperty (Property (KeyIdentifier k) value)
  = Normal [addToGlobalThisCode (Some k) None].
Proof.
  intros Hk. unfold exportProperty. cbn zeta. cbn [key_name].
  case_decide as Hdefault; [|reflexivity].
  injection Hdefault as ->. done.
Qed.

(** C2, on the code: a property of an object pattern whose key is not
    [default] is exported under its key, whatever name it binds; so for
    [const {a, b: c} = obj;] the export pass emits assignments for [a]
    and for the key [b], and the bound name [c] is not exported. *)
Theorem addToGlobalScope_renamed_exports_key :
  (forall key local, key <> "default" ->
     exportProperty (Property (KeyIdentifier key) (Identifier local))
     = Normal ["globalThis[" +:+ dq +:+ key +:+ dq +:+ "] = " +:+ key +:+ ";"])
  /\ addToGlobalScope renamedDestructuring
     = Normal ("globalThis[" +:+ dq +:+ "a" +:+ dq +:+ "] = a;" +:+ nl
               +:+ "globalThis[" +:+ dq +:+ "b" +:+ dq +:+ "] = b;").
Proof.
  split; [|reflexivity].
  intros key local Hkey. now rewrite exportProperty_key.
Qed.

End Executor.

(** * executor.ts: presentation of runtime values *)

Module Presenter.
Section Values.

(** ** Runtime values

    Numbers are kept abstract: the code only converts them to strings and
    tests their truthiness. *)
Context {number : Type}.
Variable Number_toString : number -> string.
Variable Number_toBoolean : number -> bool.
Variable Number_ofNat : nat -> number.

(** An object is described by what the presenter can observe of it:
    - its class, with the internal slots of the built-in classes (what
      [instanceof], [Array.isArray] and [ArrayBuffer.isView] answer; the
      built-in methods and accessors [length], [toISOString],
      [toDataURL], [outerHTML] read these slots).  For a map, [entries]
      is the outcome of [Array.from(value.entries())], the key/value
      pairs it lists or what the call throws, and for a set [items] is
      the outcome of [Array.from(value)]: both run the object's own
      [entries] method or iterator, which may be overridden and may
      throw.  [sizeText] is the outcome of interpolating [value.size]
      in a template literal;
    - [get]: reading a named property, own or inherited, which runs a
      getter and so may throw; an absent property reads [undefined];
    - [has]: the [in] operator;
    - [keys]: [Object.keys];
    - [toStr]: conversion to a string, [String(o)] and [o.toString()],
      which runs user code and so may throw.
    Reads are repeatable: the same read gives the same outcome. *)
Inductive any : Type :=
  | VUndefined
  | VNull
  | VBoolean (b : bool)
  | VNumber (n : number)
  | VString (s : string)
  | VSymbol (description : option string)
  | VBigInt (z : Z)
  | VObject (o : object)
with object : Type :=
  | Object (cls : class)
           (get : string -> completion any)
           (has : string -> bool)
           (keys : completion (list string))
           (toStr : completion string)
with class : Type :=
  | Plain
  | FunctionObject (call : completion any)
  | ErrorObject
  | DateObject (toISOString : completion string)
  | RegExpObject
  | MapObject (entries : completion (list (any * any))) (sizeText : completion string)
  | SetObject (items : completion (list any)) (sizeText : completion string)
  | CanvasElement (toDataURL : completion string) (width height : nat) (outerHTML : string)
  | OtherElement (outerHTML : string)
  | ArrayObject (elements : list any)
  | BufferView (length : option nat)
  | PromiseObject.

Definition obj_class (o : object) : class := let 'Object c _ _ _ _ := o in c.
Definition obj_get (o : object) : string -> completion any := let 'Object _ g _ _ _ := o in g.
Definition obj_has (o : object) : string -> bool := let 'Object _ _ h _ _ := o in h.
Definition obj_keys (o : object) : completion (list string) := let 'Object _ _ _ k _ := o in k.
Definition obj_toString (o : object) : completion string := let 'Object _ _ _ _ t := o in t.

(** An object literal [{ k1: v1, ... }], keys in source order. *)
Definition objectLiteral (props : list (string * any)) : any :=
  VObject
    (Object Plain
       (fun k => Normal (default VUndefined (snd <$> find (fun p => String.eqb (fst p) k) props)))
       (fun k => existsb (fun p => String.eqb (fst p) k) props)
       (Normal (fst <$> props))
       (Normal "[object Object]")).

(** [typeof v] *)
Definition typeof (v : any) : string :=
  match v with
  | VUndefined => "undefined"
  | VNull => "object"
  | VBoolean _ => "boolean"
  | VNumber _ => "number"
  | VString _ => "string"
  | VSymbol _ => "symbol"
  | VBigInt _ => "bigint"
  | VObject o =>
      match obj_class o with
      | FunctionObject _ => "function"
      | _ => "object"
      end
  end.

(** Truthiness. *)
Definition ToBoolean (v : any) : bool :=
  match v with
  | VUndefined | VNull => false
  | VBoolean b => b
  | VNumber n => Number_toBoolean n
  | VString s => negb (String.eqb s "")
  | VBigInt z => negb (Z.eqb z 0)
  | VSymbol _ | VObject _ => true
  end.

Definition SymbolDescriptiveString (description : option string) : string :=
  "Symbol(" +:+ default "" description +:+ ")".

(** Interpolation in a template literal. *)
Definition ToString (v : any) : completion string :=
  match v with
  | VUndefined => Normal "undefined"
  | VNull => Normal "null"
  | VBoolean b => Normal (if b then "true" else "false")
  | VNumber n => Normal (Number_toString n)
  | VString s => Normal s
  | VSymbol _ => Throw (TypeError "Cannot convert a Symbol value to a string")
  | VBigInt z => Normal (pretty z)
  | VObject o => obj_toString o
  end.

(** [String(v)] *)
Definition String_ (v : any) : completion string :=
  match v with
  | VSymbol description => Normal (SymbolDescriptiveString description)
  | _ => ToString v
  end.

(** An array literal: [length] and the indices are its properties, and
    its string form joins the elements with commas. *)
Definition arrayLiteral (elements : list any) : any :=
  let indices := pretty <$> seq 0 (List.length elements) in
  VObject
    (Object (ArrayObject elements)
       (fun k =>
          if String.eqb k "length" then Normal (VNumber (Number_ofNat (List.length elements)))
          else Normal (default VUndefined
                         (snd <$> find (fun p => String.eqb (fst p) k) (zip indices elements))))
       (fun k => String.eqb k "length" || existsb (String.eqb k) indices)
       (Normal indices)
       (parts ← cmapM (fun v => match v with
                                | VUndefined | VNull => Normal ""
                                | _ => ToString v
                                end) elements;
        Normal (Js.join "," parts))).

(** [v.name]: reading a property off any value. *)
Definition getProperty (v : any) (name : string) : completion any :=
  match v with
  | VObject o => obj_get o name
  | VUndefined | VNull =>
      Throw (TypeError ("Cannot read properties of undefined (reading '" +:+ name +:+ "')"))
  | _ => Normal VUndefined
  end.

(** [v?.name] *)
Definition getPropertyOptional (v : any) (name : string) : completion any :=
  match v with
  | VUndefined | VNull => Normal VUndefined
  | _ => getProperty v name
  end.

(** [o.method()] for a method read off the property table. *)
Definition callMethod (o : object) (name : string) : completion any :=
  f ← obj_get o name;
  match f with
  | VObject (Object (FunctionObject call) _ _ _ _) => call
  | _ => Throw (TypeError (name +:+ " is not a function"))
  end.

Definition isArray (v : any) : option (list any) :=
  match v with
  | VObject (Object (ArrayObject elements) _ _ _ _) => Some elements
  | _ => None
  end.

(** [escapeHtml(text)] *)
Fixpoint escapeHtml (text : string) : string :=
  match text with
  | EmptyString => EmptyString
  | String c rest =>
      (if Ascii.eqb c "&" then "&amp;"
       else if Ascii.eqb c "<" then "&lt;"
       else if Ascii.eqb c ">" then "&gt;"
       else if Ascii.eqb c "034" then "&quot;"
       else if Ascii.eqb c "'" then "&#39;"
       else String c "") +:+ escapeHtml rest
  end.

(** ** Custom output methods *)

(** The bundle under construction and the flag [hasCustomOutput]. *)
Definition probe : Type := list (string * any) * bool.

(** One rich-output method:
    [if (typeof value.m === 'function') { try { const r = value.m();
       if (typeof r === 'string') { bundle[mime] = r; hasCustomOutput = true; } } catch {} }] *)
Definition probeHook (o : object) (method mime : string) (acc : probe) : completion probe :=
  f ← obj_get o method;
  if String.eqb (typeof f) "function" then
    try_or
      (r ← callMethod o method;
       Normal (if String.eqb (typeof r) "string" then ((acc.1 ++ [(mime, r)])%list, true) else acc))
      (Normal acc)
  else Normal acc.

(** The [_toMime] probe: [Some] bundle when the method returned a truthy
    value of type [object]. *)
Definition probeToMime (o : object) : completion (option any) :=
  f ← obj_get o "_toMime";
  if String.eqb (typeof f) "function" then
    try_or
      (mimeResult ← callMethod o "_toMime";
       Normal (if ToBoolean mimeResult && String.eqb (typeof mimeResult) "object"
               then Some mimeResult else None))
      (Normal None)
  else Normal None.

(** The [text/plain] entry added once some method contributed. *)
Definition customTextPlain (o : object) : completion any :=
  f ← obj_get o "inspect";
  if String.eqb (typeof f) "function" then
    try_catch (callMethod o "inspect")
      (fun _ => text ← String_ (VObject o); Normal (VString text))
  else text ← String_ (VObject o); Normal (VString text).

(** [getCustomMimeBundle(value)]; [None] is [null]. *)
Definition getCustomMimeBundle (o : object) : completion (option any) :=
  mimeResult ← probeToMime o;
  match mimeResult with
  | Some bundle => Normal (Some bundle)
  | None =>
      acc ← probeHook o "_toHtml" "text/html" ([], false);
      acc ← probeHook o "_toSvg" "image/svg+xml" acc;
      acc ← probeHook o "_toPng" "image/png" acc;
      acc ← probeHook o "_toJpeg" "image/jpeg" acc;
      acc ← probeHook o "_toMarkdown" "text/markdown" acc;
      acc ← probeHook o "_toLatex" "text/latex" acc;
      if (acc.2 : bool) then
        plain ← customTextPlain o;
        Normal (Some (objectLiteral (acc.1 ++ [("text/plain", plain)])%list))
      else Normal None
  end.

(** ** Previews *)

Definition quoted (text : string) : string := "'" +:+ text +:+ "'".

(** The callback of [formatArrayPreview]. *)
Definition arrayItemPreview (item : any) : completion string :=
  match item with
  | VNull => Normal "null"
  | VUndefined => Normal "undefined"
  | VString text => Normal (quoted text)
  | _ =>
      if String.eqb (typeof item) "object" then
        match isArray item with
        | Some elements => Normal ("Array(" +:+ pretty (List.length elements) +:+ ")")
        | None => Normal "{...}"
        end
      else String_ item
  end.

(** [formatArrayPreview(arr, maxItems = 10)] *)
Definition formatArrayPreview (arr : list any) (maxItems : nat) : completion string :=
  if decide (List.length arr = 0) then Normal "[]"
  else
    items ← cmapM arrayItemPreview (take maxItems arr);
    let suffix :=
      if decide (maxItems < List.length arr)
      then ", ... (" +:+ pretty (List.length arr) +:+ " items)" else "" in
    Normal ("[" +:+ Js.join ", " items +:+ suffix +:+ "]").

(** The body of the [try] in the callback of [formatObjectPreview]. *)
Definition propertyValuePreview (value : any) : completion string :=
  match value with
  | VNull => Normal "null"
  | VUndefined => Normal "undefined"
  | VString text =>
      Normal (quoted (if decide (20 < String.length text)
                      then Js.substring text 0 20 +:+ "..." else text))
  | _ =>
      if String.eqb (typeof value) "object" then
        match isArray value with
        | Some elements => Normal ("Array(" +:+ pretty (List.length elements) +:+ ")")
        | None => Normal "{...}"
        end
      else if String.eqb (typeof value) "function" then Normal "[Function]"
      else String_ value
  end.

Definition propertyPreview (o : object) (key : string) : completion string :=
  try_or
    (value ← obj_get o key;
     valueStr ← propertyValuePreview value;
     Normal (key +:+ ": " +:+ valueStr))
    (Normal (key +:+ ": <error>")).

(** [obj.constructor?.name] *)
Definition constructorName (o : object) : completion any :=
  constructor ← obj_get o "constructor";
  getPropertyOptional constructor "name".

(** [v !== 'Object'] *)
Definition isNotTheStringObject (v : any) : bool :=
  match v with
  | VString text => negb (String.eqb text "Object")
  | _ => true
  end.

(** [formatObjectPreview(obj, maxProps = 5)] *)
Definition formatObjectPreview (o : object) (maxProps : nat) : completion string :=
  keys ← obj_keys o;
  if decide (List.length keys = 0) then Normal "{}"
  else
    constructor ← constructorName o;
    prefix ← (if ToBoolean constructor && isNotTheStringObject constructor
              then text ← ToString constructor; Normal (text +:+ " ")
              else Normal "");
    props ← cmapM (propertyPreview o) (take maxProps keys);
    let suffix := if decide (maxProps < List.length keys) then ", ..." else "" in
    Normal (prefix +:+ "{ " +:+ Js.join ", " props +:+ suffix +:+ " }").

(** [formatNonSerializableObject(obj)] *)
Definition formatNonSerializableObject (o : object) : completion string :=
  name ← constructorName o;
  let constructor := if ToBoolean name then name else VString "Object" in
  keys ← obj_keys o;
  text ← ToString constructor;
  Normal (text +:+ " { " +:+ pretty (List.length keys) +:+ " properties }").

(** ** The presenter *)

Definition plainText (text : string) : any :=
  objectLiteral [("text/plain", VString text)].

(** [typeof value === 'string'] *)
Definition presentString (text : string) : any :=
  if Js.startsWith (Js.trim text) "<" && Js.endsWith (Js.trim text) ">"
  then objectLiteral [("text/html", VString text); ("text/plain", VString text)]
  else plainText (quoted text).

(** [typeof value === 'function'] *)
Definition presentFunction (o : object) : completion any :=
  funcString ← obj_toString o;
  name ← obj_get o "name";
  let name := if ToBoolean name then name else VString "anonymous" in
  shown ← ToString name;
  Normal (objectLiteral
            [("text/plain", VString ("[Function: " +:+ shown +:+ "]"));
             ("text/html",
              VString ("<pre style=" +:+ Executor.dq +:+ "margin:0" +:+ Executor.dq +:+ "><code>"
                       +:+ escapeHtml funcString +:+ "</code></pre>"))]).

(** [value instanceof Error] *)
Definition presentError (o : object) : completion any :=
  stack ← obj_get o "stack";
  plain ← (if ToBoolean stack then Normal stack
           else text ← obj_toString o; Normal (VString text));
  name ← obj_get o "name";
  message ← obj_get o "message";
  stack ← obj_get o "stack";
  Normal (objectLiteral
            [("text/plain", plain);
             ("application/json",
              objectLiteral [("name", name); ("message", message); ("stack", stack)])]).

(** [value instanceof Date]: no [try] around the two calls. *)
Definition presentDate (toISOString : completion string) : completion any :=
  plain ← toISOString;
  json ← toISOString;
  Normal (objectLiteral [("text/plain", VString plain); ("application/json", VString json)]).

(** The key [Object.fromEntries] files an entry under; a symbol key is
    not a string key, and the entry is then left out of the table. *)
Definition ToPropertyKey (v : any) : completion (option string) :=
  match v with
  | VSymbol _ => Normal None
  | _ => text ← ToString v; Normal (Some text)
  end.

(** [obj[key] = v] on a property table: an existing key keeps its place. *)
Fixpoint assign (props : list (string * any)) (key : string) (v : any)
    : list (string * any) :=
  match props with
  | [] => [(key, v)]
  | (k, old) :: rest =>
      if String.eqb k key then (k, v) :: rest else (k, old) :: assign rest key v
  end.

(** [Object.fromEntries(entries)] *)
Definition fromEntries (entries : list (any * any)) : completion any :=
  keyed ← cmapM (fun entry : any * any =>
                   key ← ToPropertyKey entry.1; Normal (key, entry.2)) entries;
  Normal (objectLiteral
            (fold_left (fun props (p : option string * any) =>
                          match p.1 with
                          | Some key => assign props key p.2
                          | None => props
                          end) keyed [])).

(** [value instanceof Map]: the entries are listed before the [try], so
    a throw of [Array.from(value.entries())] leaves the presenter; inside
    the [try] the size is interpolated first, then the entries are
    shown; the [catch] interpolates the size once more. *)
Definition presentMap (entries : completion (list (any * any)))
    (sizeText : completion string) : completion any :=
  entries ← entries;
  try_or
    (size ← sizeText;
     shown ← cmapM (fun entry : any * any =>
                      k ← String_ entry.1;
                      v ← String_ entry.2;
                      Normal (k +:+ " => " +:+ v)) entries;
     json ← fromEntries entries;
     Normal (objectLiteral
               [("text/plain",
                 VString ("Map(" +:+ size +:+ ") { " +:+ Js.join ", " shown +:+ " }"));
                ("application/json", json)]))
    (size ← sizeText; Normal (plainText ("Map(" +:+ size +:+ ")"))).

(** [value instanceof Set]: [Array.from(value)] runs before the [try]. *)
Definition presentSet (items : completion (list any))
    (sizeText : completion string) : completion any :=
  items ← items;
  try_or
    (size ← sizeText;
     shown ← cmapM String_ items;
     Normal (objectLiteral
               [("text/plain",
                 VString ("Set(" +:+ size +:+ ") { " +:+ Js.join ", " shown +:+ " }"));
                ("application/json", arrayLiteral items)]))
    (size ← sizeText; Normal (plainText ("Set(" +:+ size +:+ ")"))).

(** [getDOMElementMimeBundle(element)] for a canvas. *)
Definition presentCanvas (toDataURL : completion string) (width height : nat)
    (outerHTML : string) : completion any :=
  try_or
    (dataUrl ← toDataURL;
     let base64 := from_option VString VUndefined (Js.split "," dataUrl !! 1) in
     Normal (objectLiteral
               [("image/png", base64);
                ("text/plain",
                 VString ("<canvas width=" +:+ Executor.dq +:+ pretty width +:+ Executor.dq
                          +:+ " height=" +:+ Executor.dq +:+ pretty height +:+ Executor.dq
                          +:+ ">"))]))
    (Normal (plainText outerHTML)).

(** [Array.isArray(value)] *)
Definition presentArray (value : any) (elements : list any) : completion any :=
  try_or
    (preview ← formatArrayPreview elements 10;
     Normal (objectLiteral [("application/json", value); ("text/plain", VString preview)]))
    (Normal (plainText ("Array(" +:+ pretty (List.length elements) +:+ ")"))).

(** [ArrayBuffer.isView(value)] *)
Definition presentBufferView (o : object) (length : option nat) : completion any :=
  constructor ← obj_get o "constructor";
  name ← getProperty constructor "name";
  shown ← ToString name;
  Normal (plainText (shown +:+ "(" +:+ from_option pretty "undefined" length +:+ ")")).

(** [typeof value === 'object'], the last branch. *)
Definition presentGeneric (o : object) : completion any :=
  isBundle ← (if obj_has o "data"
              then data ← obj_get o "data"; Normal (String.eqb (typeof data) "object")
              else Normal false);
  if (isBundle : bool) then obj_get o "data"
  else
    try_catch
      (preview ← formatObjectPreview o 5;
       Normal (objectLiteral
                 [("application/json", VObject o); ("text/plain", VString preview)]))
      (fun _ => text ← formatNonSerializableObject o; Normal (plainText text)).

(** The branches of [getMimeBundle] after the custom methods. *)
Definition presentBuiltin (value : any) : completion any :=
  match value with
  | VNull => Normal (plainText "null")
  | VUndefined => Normal (plainText "undefined")
  | VString text => Normal (presentString text)
  | VNumber _ | VBoolean _ => text ← String_ value; Normal (plainText text)
  | VSymbol description => Normal (plainText (SymbolDescriptiveString description))
  | VBigInt z => Normal (plainText (pretty z +:+ "n"))
  | VObject o =>
      match obj_class o with
      | FunctionObject _ => presentFunction o
      | ErrorObject => presentError o
      | DateObject toISOString => presentDate toISOString
      | RegExpObject => text ← obj_toString o; Normal (plainText text)
      | MapObject entries sizeText => presentMap entries sizeText
      | SetObject items sizeText => presentSet items sizeText
      | CanvasElement toDataURL width height outerHTML =>
          presentCanvas toDataURL width height outerHTML
      | OtherElement outerHTML =>
          Normal (objectLiteral
                    [("text/html", VString outerHTML); ("text/plain", VString outerHTML)])
      | ArrayObject elements => presentArray value elements
      | BufferView length => presentBufferView o length
      | PromiseObject => Normal (plainText "Promise { <pending> }")
      | Plain => presentGeneric o
      end
  end.

(** [getMimeBundle(value)] *)
Definition getMimeBundle (value : any) : completion any :=
  match value with
  | VNull => Normal (plainText "null")
  | VUndefined => Normal (plainText "undefined")
  | _ =>
      customMime ← (match value with
                    | VObject o =>
                        if String.eqb (typeof value) "object"
                        then getCustomMimeBundle o else Normal None
                    | _ => Normal None
                    end);
      match customMime with
      | Some bundle => Normal bundle
      | None => presentBuiltin value
      end
  end.

(** [key in bundle] *)
Definition hasKey (bundle : any) (key : string) : bool :=
  match bundle with
  | VObject o => obj_has o key
  | _ => false
  end.

(** ** Properties of the presenter *)

Lemma hasKey_literal_last props key (v : any) :
  hasKey (objectLiteral (props ++ [(key, v)])%list) key = true.
Proof.
  simpl. rewrite existsb_app. simpl. rewrite String.eqb_refl.
  now rewrite orb_true_r.
Qed.

(** Inversion of the monadic steps in a hypothesis. *)
Ltac invert_step :=
  match goal with
  | H : Normal _ = Normal _ |- _ => injection H as H; try subst
  | H : Throw _ = Normal _ |- _ => discriminate H
  | H : Normal _ = Throw _ |- _ => discriminate H
  | H : None = Some _ |- _ => discriminate H
  | H : Some _ = Some _ |- _ => injection H as H; try subst
  | H : mbind _ ?m = Normal _ |- _ =>
      let E := fresh "E" in destruct m eqn:E; simpl in H
  | H : try_or ?m _ = Normal _ |- _ =>
      let E := fresh "E" in destruct m eqn:E; simpl in H
  | H : try_catch ?m _ = Normal _ |- _ =>
      let E := fresh "E" in destruct m eqn:E; simpl in H
  | H : match ?m with Normal _ => _ | Throw _ => _ end = Normal _ |- _ =>
      let E := fresh "E" in destruct m eqn:E; simpl in H
  | H : (if ?c then _ else _) = Normal _ |- _ =>
      let E := fresh "E" in destruct c eqn:E; simpl in H
  end.
Ltac invert_steps :=
  repeat (unfold mbind, completion_bind, cbind, try_or, try_catch in *; invert_step).
Ltac by_cases :=
  repeat match goal with
         | |- context [if ?c then _ else _] => destruct c
         end;
  reflexivity.

(** Every bundle the built-in branches construct carries [text/plain];
    the one exception is the [data] field handed back as it is. *)
Lemma presentBuiltin_text_plain (value bundle : any) :
  presentBuiltin value = Normal bundle ->
  hasKey bundle "text/plain" = true
  \/ exists o, value = VObject o /\ obj_class o = Plain
               /\ obj_has o "data" = true /\ obj_get o "data" = Normal bundle.
Proof.
  intros H. destruct value as [| | | | | | |o]; simpl in H.
  1-7: left; unfold mbind in H; invert_steps; unfold presentString; by_cases.
  destruct (obj_class o) eqn:Hclass.
  - (* generic object *)
    unfold presentGeneric, mbind in H. unfold completion_bind, cbind in H.
    destruct (obj_has o "data") eqn:Hhas.
    + destruct (obj_get o "data") as [data|] eqn:Hdata; [|discriminate].
      destruct (String.eqb (typeof data) "object").
      * right. exists o. simpl in H. injection H as <-. auto.
      * left. unfold mbind in H. invert_steps; reflexivity.
    + left. unfold mbind in H. invert_steps; reflexivity.
  - left. unfold presentFunction, mbind in H. invert_steps; reflexivity.
  - left. unfold presentError, mbind in H. invert_steps; reflexivity.
  - left. unfold presentDate, mbind in H. invert_steps; reflexivity.
  - left. unfold mbind in H. invert_steps; reflexivity.
  - left. unfold presentMap, mbind in H. invert_steps; reflexivity.
  - left. unfold presentSet, mbind in H. invert_steps; reflexivity.
  - left. unfold presentCanvas, mbind in H. invert_steps; reflexivity.
  - left. invert_steps; reflexivity.
  - left. unfold presentArray, mbind in H. invert_steps; reflexivity.
  - left. unfold presentBufferView, mbind in H. invert_steps; reflexivity.
  - left. invert_steps; reflexivity.
Qed.

Lemma probeToMime_verbatim o bundle :
  probeToMime o = Normal (Some bundle) -> callMethod o "_toMime" = Normal bundle.
Proof.
  unfold probeToMime, mbind. intros H. invert_steps.
  all: match goal with
       | H : (if ?c then _ else _) = Some _ |- _ =>
           destruct c; [injection H as ->|discriminate H]
       end.
  reflexivity.
Qed.

Lemma getCustomMimeBundle_text_plain o bundle :
  getCustomMimeBundle o = Normal (Some bundle) ->
  hasKey bundle "text/plain" = true \/ callMethod o "_toMime" = Normal bundle.
Proof.
  unfold getCustomMimeBundle. unfold mbind at 1. unfold completion_bind, cbind.
  destruct (probeToMime o) as [[early|]|] eqn:Hearly; [| |discriminate].
  - intros [= <-]. right. now apply probeToMime_verbatim.
  - intros H. left. unfold mbind in H. invert_steps. apply hasKey_literal_last.
Qed.

(** An object given by its class, a table of properties (each a value or
    a throwing getter) and its string form. *)
Definition mkObject (cls : class) (props : list (string * completion any))
    (toStr : completion string) : object :=
  Object cls
    (fun k => default (Normal VUndefined)
                (snd <$> find (fun p => String.eqb (fst p) k) props))
    (fun k => existsb (fun p => String.eqb (fst p) k) props)
    (Normal (fst <$> props))
    toStr.

(** A function object that returns [result] when called. *)
Definition method (result : completion any) : completion any :=
  Normal (VObject (mkObject (FunctionObject result) [] (Normal "function () { [native code] }"))).

(** [new Date(NaN)]: [toISOString] throws a RangeError on an invalid date. *)
Definition invalidDate : any :=
  VObject (mkObject (DateObject (Throw (RangeError "Invalid time value"))) []
             (Normal "Invalid Date")).

(** [{ get _toMime() { throw ... } }] *)
Definition throwingGetter : any :=
  VObject (mkObject Plain [("_toMime", Throw (UserThrown "getter"))]
             (Normal "[object Object]")).

(** [{ data: {} }] *)
Definition emptyDataHolder : any :=
  VObject (mkObject Plain [("data", Normal (objectLiteral []))] (Normal "[object Object]")).

(** [{ _toMime() { return { 'text/html': '<b>x</b>' }; } }] *)
Definition htmlOnlyToMime : any :=
  VObject (mkObject Plain
             [("_toMime", method (Normal (objectLiteral [("text/html", VString "<b>x</b>")])))]
             (Normal "[object Object]")).

(** C4, on the code: [getMimeBundle] throws on an invalid [Date] (the
    [Date] branch calls [toISOString] outside any [try]) and on an object
    whose [_toMime] getter throws (the probe reads the property outside
    the [try]); it returns no bundle for either. *)
Theorem getMimeBundle_throws :
  getMimeBundle invalidDate = Throw (RangeError "Invalid time value")
  /\ getMimeBundle throwingGetter = Throw (UserThrown "getter")
  /\ ~ returns (getMimeBundle invalidDate)
  /\ ~ returns (getMimeBundle throwingGetter).
Proof.
  assert (Hdate : getMimeBundle invalidDate = Throw (RangeError "Invalid time value"))
    by reflexivity.
  assert (Hgetter : getMimeBundle throwingGetter = Throw (UserThrown "getter"))
    by reflexivity.
  split; [exact Hdate|]. split; [exact Hgetter|].
  rewrite Hdate, Hgetter. split; apply throw_not_returns.
Qed.

(** C5, amended.  Every bundle [getMimeBundle] returns carries
    [text/plain], unless it is the value a [_toMime] method returned or
    the [data] field of the presented object, both handed back as they
    are. *)
Theorem getMimeBundle_text_plain (value bundle : any)
    (Hreturned : getMimeBundle value = Normal bundle) :
  hasKey bundle "text/plain" = true
  \/ exists o, value = VObject o
       /\ (callMethod o "_toMime" = Normal bundle
           \/ (obj_has o "data" = true /\ obj_get o "data" = Normal bundle)).
Proof.
  assert (Hbuiltin : forall v, presentBuiltin v = Normal bundle ->
            hasKey bundle "text/plain" = true
            \/ exists o, v = VObject o
                 /\ (callMethod o "_toMime" = Normal bundle
                     \/ (obj_has o "data" = true /\ obj_get o "data" = Normal bundle))).
  { intros v Hv. destruct (presentBuiltin_text_plain v bundle Hv)
      as [Hkey | (o & -> & _ & Hhas & Hdata)]; [now left|].
    right. exists o. auto. }
  destruct value as [| | | | | | |o]; try (apply Hbuiltin; exact Hreturned).
  unfold getMimeBundle in Hreturned.
  destruct (String.eqb (typeof (VObject o)) "object").
  - unfold mbind, completion_bind, cbind in Hreturned.
    destruct (getCustomMimeBundle o) as [[custom|]|] eqn:Hcustom; [| |discriminate].
    + injection Hreturned as ->.
      destruct (getCustomMimeBundle_text_plain o bundle Hcustom); [now left|].
      right. exists o. auto.
    + now apply Hbuiltin.
  - now apply Hbuiltin.
Qed.

(** C9.  A function value is presented by the function branch whatever
    properties it exposes: with source text [source] and name [name], the
    bundle is [[Function: name]] (or [anonymous] for the empty name) and
    the escaped source in a [pre]/[code] block; no custom output method
    and no [inspect] is read or called. *)
Theorem getMimeBundle_function (o : object) (call : completion any) (source name : string)
    (Hfunction : obj_class o = FunctionObject call)
    (Hsource : obj_toString o = Normal source)
    (Hname : obj_get o "name" = Normal (VString name)) :
  typeof (VObject o) = "function"
  /\ getMimeBundle (VObject o) = presentFunction o
  /\ getMimeBundle (VObject o) =
       Normal (objectLiteral
                 [("text/plain",
                   VString ("[Function: "
                            +:+ (if String.eqb name "" then "anonymous" else name) +:+ "]"));
                  ("text/html",
                   VString ("<pre style=" +:+ Executor.dq +:+ "margin:0" +:+ Executor.dq
                            +:+ "><code>" +:+ escapeHtml source +:+ "</code></pre>"))])
  /\ (forall o' call',
        obj_class o' = FunctionObject call' ->
        obj_toString o' = obj_toString o ->
        obj_get o' "name" = obj_get o "name" ->
        getMimeBundle (VObject o') = getMimeBundle (VObject o)).
Proof.
  assert (Hbranch : forall f call0, obj_class f = FunctionObject call0 ->
            typeof (VObject f) = "function" /\ getMimeBundle (VObject f) = presentFunction f).
  { intros f call0 Hf.
    assert (Htypeof : typeof (VObject f) = "function") by (simpl; now rewrite Hf).
    split; [exact Htypeof|].
    unfold getMimeBundle. rewrite Htypeof. simpl. now rewrite Hf. }
  destruct (Hbranch o call Hfunction) as [Htypeof Ho].
  split; [exact Htypeof|]. split; [exact Ho|]. split.
  - rewrite Ho. unfold presentFunction. rewrite Hsource, Hname. simpl.
    destruct (String.eqb name ""); reflexivity.
  - intros o' call' Hfunction' Hsame_source Hsame_name.
    destruct (Hbranch o' call' Hfunction') as [_ ->]. rewrite Ho.
    unfold presentFunction. now rewrite Hsame_source, Hsame_name.
Qed.

End Values.

(** *** Concrete instances, with integers for numbers *)

Definition present : any (number := Z) -> completion (any (number := Z)) :=
  getMimeBundle (pretty : Z -> string) (fun z => negb (Z.eqb z 0)) Z.of_nat.

(** C5, as stated, fails: [{ data: {} }] is presented as the empty
    bundle, and the bundle of a [_toMime] method that supplies only
    [text/html] is handed back as it is; neither has [text/plain]. *)
Lemma getMimeBundle_without_text_plain :
  (exists bundle, present emptyDataHolder = Normal bundle
                  /\ hasKey bundle "text/plain" = false)
  /\ (exists bundle, present htmlOnlyToMime = Normal bundle
                     /\ hasKey bundle "text/plain" = false).
Proof. split; eexists; (split; [reflexivity|reflexivity]). Qed.

(** The amended statement at a string between angle brackets. *)
Lemma getMimeBundle_text_plain_witness :
  let bundle := objectLiteral (number := Z)
                  [("text/html", VString "<b>hi</b>"); ("text/plain", VString "<b>hi</b>")] in
  hasKey bundle "text/plain" = true
  \/ exists o, VString "<b>hi</b>" = VObject o
       /\ (callMethod o "_toMime" = Normal bundle
           \/ (obj_has o "data" = true /\ obj_get o "data" = Normal bundle)).
Proof.
  intros bundle.
  apply (getMimeBundle_text_plain (pretty : Z -> string) (fun z => negb (Z.eqb z 0)) Z.of_nat
           (VString "<b>hi</b>") bundle).
  reflexivity.
Defined.

(** A function [f] that carries an [_toHtml] method, a throwing [_toMime]
    getter and an [inspect] method. *)
Definition decoratedFunction : object (number := Z) :=
  mkObject (FunctionObject (Normal VUndefined))
    [("name", Normal (VString "f"));
     ("_toHtml", method (Normal (VString "<b>hook</b>")));
     ("_toMime", Throw (UserThrown "getter"));
     ("inspect", method (Normal (VString "inspected")))]
    (Normal "function f() { return 1 < 2; }").

Lemma getMimeBundle_function_witness :
  typeof (VObject decoratedFunction) = "function"
  /\ present (VObject decoratedFunction) =
       presentFunction (pretty : Z -> string) (fun z => negb (Z.eqb z 0)) decoratedFunction
  /\ present (VObject decoratedFunction) =
       Normal (objectLiteral
                 [("text/plain", VString "[Function: f]");
                  ("text/html",
                   VString ("<pre style=" +:+ Executor.dq +:+ "margin:0" +:+ Executor.dq
                            +:+ "><code>" +:+ "function f() { return 1 &lt; 2; }"
                            +:+ "</code></pre>"))]).
Proof.
  destruct (getMimeBundle_function (pretty : Z -> string) (fun z => negb (Z.eqb z 0)) Z.of_nat
              decoratedFunction (Normal VUndefined) "function f() { return 1 < 2; }" "f"
              eq_refl eq_refl eq_refl) as (Htypeof & Hbranch & Hbundle & _).
  auto.
Defined.

End Presenter.

(** * executor.ts: completion over the properties of an object *)

Module Completion.

(** [array.sort(compare)]: the sort is stable, an element stays before
    the later elements it compares equal to. *)
Fixpoint insertSorted {A} (compare : A -> A -> Z) (x : A) (sorted : list A) : list A :=
  match sorted with
  | [] => [x]
  | y :: rest =>
      if (compare x y <=? 0)%Z then x :: y :: rest
      else y :: insertSorted compare x rest
  end.

Definition sort {A} (compare : A -> A -> Z) (array : list A) : list A :=
  foldr (insertSorted compare) [] array.

(** One object of the prototype chain, as reflection shows it:
    [Object.getOwnPropertyNames], which may throw, and the keys a
    [for...in] loop yields before it ends or throws. *)
Record Level : Type := {
  ownPropertyNames : completion (list string);
  forInKeys : list string
}.

(** The objects [Object.getPrototypeOf] leads through, the root first,
    until it returns [null] or throws. *)
Definition Chain : Type := list Level.

(** The locals [seen] and [matches]. *)
Record Collected : Type := {
  seen : gset string;
  matches : list string
}.

Definition addIf (test : string -> bool) (acc : Collected) (prop : string) : Collected :=
  if bool_decide (prop ∉ seen acc) && test prop
  then {| seen := {[prop]} ∪ seen acc; matches := (matches acc ++ [prop])%list |}
  else acc.

Definition isExact (prefix prop : string) : bool := Js.startsWith prop prefix.

Definition isCaseInsensitiveOnly (prefix prop : string) : bool :=
  Js.startsWith (Js.toLowerCase prop) (Js.toLowerCase prefix)
  && negb (Js.startsWith prop prefix).

(** The helper [addMatching], also the body of the [for...in] loop. *)
Definition addMatching (prefix : string) (props : list string) (acc : Collected) : Collected :=
  fold_left (addIf (isExact prefix)) props acc.

(** The helper [addCaseInsensitive]. *)
Definition addCaseInsensitive (prefix : string) (props : list string) (acc : Collected)
    : Collected :=
  fold_left (addIf (isCaseInsensitiveOnly prefix)) props acc.

(** The [try] block of the first walk, for one object. *)
Definition exactPass (prefix : string) (acc : Collected) (current : Level) : Collected :=
  match ownPropertyNames current with
  | Normal ownProps => addMatching prefix (forInKeys current) (addMatching prefix ownProps acc)
  | Throw _ => acc
  end.

(** The [try] block of the second walk, for one object. *)
Definition caseInsensitivePass (prefix : string) (acc : Collected) (current : Level)
    : Collected :=
  match ownPropertyNames current with
  | Normal ownProps => addCaseInsensitive prefix ownProps acc
  | Throw _ => acc
  end.

(** Both walks.  Every step that can throw sits in a [try] of its own,
    so the outer [catch] with its plain [for...in] is never entered. *)
Definition collect (obj : Chain) (prefix : string) : Collected :=
  fold_left (caseInsensitivePass prefix) obj
    (fold_left (exactPass prefix) obj {| seen := ∅; matches := [] |}).

Section GetAllProperties.

(** [a.localeCompare(b)], the collation of the host. *)
Variable localeCompare : string -> string -> Z.

(** The comparison function handed to [sort]. *)
Definition compareMatches (prefix a b : string) : Z :=
  let aExact := Js.startsWith a prefix in
  let bExact := Js.startsWith b prefix in
  if aExact && negb bExact then (-1)%Z
  else if negb aExact && bExact then 1%Z
  else localeCompare a b.

(** [getAllProperties(obj, prefix)] *)
Definition getAllProperties (obj : Chain) (prefix : string) : list string :=
  sort (compareMatches prefix) (matches (collect obj prefix)).

End GetAllProperties.

(** The root object of the example, [{ abc, abd, Abc }], and above it
    [Object.prototype]. *)
Definition exampleRoot : Chain :=
  [ {| ownPropertyNames := Normal ["abc"; "abd"; "Abc"];
       forInKeys := ["abc"; "abd"; "Abc"] |};
    {| ownPropertyNames :=
         Normal ["constructor"; "__defineGetter__"; "__defineSetter__"; "hasOwnProperty";
                 "__lookupGetter__"; "__lookupSetter__"; "isPrototypeOf";
                 "propertyIsEnumerable"; "toString"; "valueOf"; "__proto__";
                 "toLocaleString"];
       forInKeys := [] |} ].

(** ** The sort *)

Section Sorting.
Context {A : Type} (compare : A -> A -> Z).
Hypothesis compare_total : forall a b, (compare a b <= 0)%Z \/ (compare b a <= 0)%Z.
Hypothesis compare_trans :
  forall a b c, (compare a b <= 0)%Z -> (compare b c <= 0)%Z -> (compare a c <= 0)%Z.

Let before (a b : A) : Prop := (compare a b <= 0)%Z.

Lemma insertSorted_perm x l : insertSorted compare x l ≡ₚ x :: l.
Proof.
  induction l as [|y l IH]; simpl; [reflexivity|].
  destruct (compare x y <=? 0)%Z; [reflexivity|].
  rewrite IH. apply Permutation_swap.
Qed.

Lemma sort_perm l : sort compare l ≡ₚ l.
Proof.
  induction l as [|x l IH]; simpl; [reflexivity|].
  rewrite insertSorted_perm. now rewrite IH.
Qed.

Lemma insertSorted_sorted x l :
  StronglySorted before l -> StronglySorted before (insertSorted compare x l).
Proof.
  induction l as [|y l IH]; simpl; intros Hsorted.
  - repeat constructor.
  - apply StronglySorted_inv in Hsorted as [Hl Hy].
    destruct (Z.leb_spec (compare x y) 0) as [Hxy|Hxy].
    + constructor; [now constructor|].
      constructor; [exact Hxy|].
      eapply Forall_impl; [exact Hy|]. intros z Hyz. now apply (compare_trans x y z).
    + assert (Hyx : before y x) by (destruct (compare_total x y); [lia|assumption]).
      constructor; [now apply IH|].
      rewrite (insertSorted_perm x l). now constructor.
Qed.

Lemma sort_sorted l : StronglySorted before (sort compare l).
Proof.
  induction l as [|x l IH]; simpl; [constructor|]. now apply insertSorted_sorted.
Qed.

Lemma StronglySorted_lookup (R : A -> A -> Prop) l i j a b :
  StronglySorted R l -> i < j -> l !! i = Some a -> l !! j = Some b -> R a b.
Proof.
  intros Hsorted. revert i j.
  induction Hsorted as [|x l Hl IH Hx]; intros i j Hij Hi Hj; [done|].
  destruct j as [|j]; [lia|]. simpl in Hj.
  destruct i as [|i]; simpl in Hi.
  - injection Hi as <-. rewrite Forall_forall in Hx. apply Hx.
    eapply list_elem_of_lookup_2. exact Hj.
  - apply (IH i j); [lia|assumption..].
Qed.

Lemma sort_lookup_before l i j a b :
  i < j -> sort compare l !! i = Some a -> sort compare l !! j = Some b ->
  (compare a b <= 0)%Z.
Proof. apply (StronglySorted_lookup before), sort_sorted. Qed.

End Sorting.

(** ** The collection *)

Definition consistent (acc : Collected) : Prop :=
  NoDup (matches acc) /\ forall x, x ∈ matches acc -> x ∈ seen acc.

Lemma addIf_consistent test acc prop :
  consistent acc -> consistent (addIf test acc prop).
Proof.
  intros [Hnodup Hseen]. unfold addIf.
  destruct (bool_decide (prop ∉ seen acc)) eqn:Hfresh; simpl; [|by split].
  destruct (test prop); simpl; [|by split].
  apply bool_decide_eq_true in Hfresh. split; simpl.
  - apply NoDup_app. split; [exact Hnodup|]. split; [|apply NoDup_singleton].
    intros x Hx Hx'. apply list_elem_of_singleton in Hx' as ->. auto.
  - intros x [Hx | Hx]%elem_of_app; [set_solver|].
    apply list_elem_of_singleton in Hx as ->. set_solver.
Qed.

Lemma fold_addIf_consistent test props acc :
  consistent acc -> consistent (fold_left (addIf test) props acc).
Proof.
  revert acc. induction props as [|prop props IH]; intros acc Hacc; simpl; [exact Hacc|].
  apply IH, addIf_consistent, Hacc.
Qed.

Lemma collect_consistent obj prefix : consistent (collect obj prefix).
Proof.
  unfold collect.
  assert (Hfirst : consistent (fold_left (exactPass prefix) obj {| seen := ∅; matches := [] |})).
  { generalize {| seen := ∅; matches := [] |} (conj (NoDup_nil_2 (A := string))
        (fun x (H : x ∈ []) => False_ind (x ∈ (∅ : gset string)) (not_elem_of_nil x H))
      : consistent {| seen := ∅; matches := [] |}).
    induction obj as [|current obj IH]; intros acc Hacc; simpl; [exact Hacc|].
    apply IH. unfold exactPass. destruct (ownPropertyNames current); [|exact Hacc].
    unfold addMatching. now do 2 apply fold_addIf_consistent. }
  revert Hfirst. generalize (fold_left (exactPass prefix) obj {| seen := ∅; matches := [] |}).
  induction obj as [|current obj IH]; intros acc Hacc; simpl; [exact Hacc|].
  apply IH. unfold caseInsensitivePass. destruct (ownPropertyNames current); [|exact Hacc].
  now apply fold_addIf_consistent.
Qed.

Lemma fold_addIf_Forall (P : string -> Prop) test props acc :
  (forall prop, test prop = true -> P prop) ->
  Forall P (matches acc) -> Forall P (matches (fold_left (addIf test) props acc)).
Proof.
  intros Htest. revert acc.
  induction props as [|prop props IH]; intros acc Hacc; simpl; [exact Hacc|].
  apply IH. unfold addIf.
  destruct (bool_decide (prop ∉ seen acc)); simpl; [|exact Hacc].
  destruct (test prop) eqn:Hprop; simpl; [|exact Hacc].
  apply Forall_app. split; [exact Hacc|]. constructor; [now apply Htest|constructor].
Qed.

Definition isMatch (prefix prop : string) : Prop :=
  isExact prefix prop = true \/ isCaseInsensitiveOnly prefix prop = true.

Lemma collect_matches obj prefix : Forall (isMatch prefix) (matches (collect obj prefix)).
Proof.
  unfold collect.
  assert (Hfirst : Forall (isMatch prefix)
            (matches (fold_left (exactPass prefix) obj {| seen := ∅; matches := [] |}))).
  { generalize {| seen := ∅; matches := [] |}
      (List.Forall_nil (isMatch prefix)
       : Forall (isMatch prefix) (matches {| seen := ∅; matches := [] |})).
    induction obj as [|current obj IH]; intros acc Hacc; simpl; [exact Hacc|].
    apply IH. unfold exactPass. destruct (ownPropertyNames current); [|exact Hacc].
    unfold addMatching. do 2 (apply fold_addIf_Forall; [now left|]). exact Hacc. }
  revert Hfirst. generalize (fold_left (exactPass prefix) obj {| seen := ∅; matches := [] |}).
  induction obj as [|current obj IH]; intros acc Hacc; simpl; [exact Hacc|].
  apply IH. unfold caseInsensitivePass. destruct (ownPropertyNames current); [|exact Hacc].
  apply fold_addIf_Forall; [now right|exact Hacc].
Qed.

(** ** The result of [getAllProperties] *)

Section Claims.

Variable localeCompare : string -> string -> Z.

(** The collation is a total preorder. *)
Hypothesis localeCompare_total :
  forall a b, (localeCompare a b <= 0)%Z \/ (localeCompare b a <= 0)%Z.
Hypothesis localeCompare_trans :
  forall a b c, (localeCompare a b <= 0)%Z -> (localeCompare b c <= 0)%Z ->
                (localeCompare a c <= 0)%Z.

Lemma compareMatches_total prefix a b :
  (compareMatches localeCompare prefix a b <= 0)%Z
  \/ (compareMatches localeCompare prefix b a <= 0)%Z.
Proof.
  unfold compareMatches.
  destruct (Js.startsWith a prefix), (Js.startsWith b prefix); simpl;
    try apply localeCompare_total; lia.
Qed.

Lemma compareMatches_trans prefix a b c :
  (compareMatches localeCompare prefix a b <= 0)%Z ->
  (compareMatches localeCompare prefix b c <= 0)%Z ->
  (compareMatches localeCompare prefix a c <= 0)%Z.
Proof.
  unfold compareMatches.
  destruct (Js.startsWith a prefix), (Js.startsWith b prefix), (Js.startsWith c prefix);
    simpl; try lia; apply localeCompare_trans.
Qed.

(** C6.  The matches contain no duplicate; each is a case-sensitive or a
    case-insensitive-only prefix match; every case-sensitive match stands
    before every case-insensitive-only match; within each of the two
    groups the names are in collation order; and over the root object
    with own properties [abc], [abd], [Abc] and prefix [ab], the names
    [abc] and [abd] come first and [Abc] last. *)
Theorem getAllProperties_unique_sorted (obj : Chain) (prefix : string) :
  let result := getAllProperties localeCompare obj prefix in
  NoDup result
  /\ Forall (isMatch prefix) result
  /\ (forall i j a b,
        result !! i = Some a -> result !! j = Some b ->
        Js.startsWith a prefix = true -> Js.startsWith b prefix = false -> i < j)
  /\ (forall i j a b,
        i < j -> result !! i = Some a -> result !! j = Some b ->
        Js.startsWith a prefix = Js.startsWith b prefix ->
        (localeCompare a b <= 0)%Z)
  /\ (exists first second,
        getAllProperties localeCompare exampleRoot "ab" = [first; second; "Abc"]
        /\ ((first = "abc" /\ second = "abd") \/ (first = "abd" /\ second = "abc"))).
Proof.
  intros result.
  assert (Hperm : result ≡ₚ matches (collect obj prefix)) by apply sort_perm.
  assert (Hbefore :
    forall i j a b, i < j -> result !! i = Some a -> result !! j = Some b ->
                    (compareMatches localeCompare prefix a b <= 0)%Z).
  { intros i j a b. apply sort_lookup_before.
    - apply compareMatches_total.
    - apply compareMatches_trans. }
  split; [|split; [|split; [|split]]].
  - rewrite Hperm. apply collect_consistent.
  - rewrite Hperm. apply collect_matches.
  - intros i j a b Hi Hj Ha Hb.
    destruct (Nat.lt_trichotomy i j) as [Hlt | [-> | Hgt]]; [exact Hlt| |].
    + rewrite Hi in Hj. injection Hj as ->. congruence.
    + specialize (Hbefore j i b a Hgt Hj Hi).
      unfold compareMatches in Hbefore. rewrite Ha, Hb in Hbefore. simpl in Hbefore. lia.
  - intros i j a b Hij Hi Hj Hsame.
    specialize (Hbefore i j a b Hij Hi Hj).
    unfold compareMatches in Hbefore. rewrite Hsame in Hbefore.
    destruct (Js.startsWith b prefix); exact Hbefore.
  - unfold getAllProperties.
    replace (matches (collect exampleRoot "ab")) with ["abc"; "abd"; "Abc"]
      by (vm_compute; reflexivity).
    cbn [sort foldr insertSorted].
    change (compareMatches localeCompare "ab" "abd" "Abc") with (-1)%Z.
    cbn [Z.leb Z.compare insertSorted].
    change (compareMatches localeCompare "ab" "abc" "Abc") with (-1)%Z.
    change (compareMatches localeCompare "ab" "abc" "abd") with (localeCompare "abc" "abd").
    destruct (localeCompare "abc" "abd" <=? 0)%Z; cbn [insertSorted Z.leb Z.compare]; eauto 10.
Qed.

End Claims.

(** Comparison by code units, a collation that is a total order. *)
Definition codeUnitCompare (a b : string) : Z :=
  match String.compare a b with
  | Lt => (-1)%Z
  | Eq => 0%Z
  | Gt => 1%Z
  end.

Lemma codeUnitCompare_total a b :
  (codeUnitCompare a b <= 0)%Z \/ (codeUnitCompare b a <= 0)%Z.
Proof.
  unfold codeUnitCompare. rewrite (String.compare_antisym b a).
  destruct (String.compare a b); simpl; lia.
Qed.

Lemma codeUnitCompare_trans a b c :
  (codeUnitCompare a b <= 0)%Z -> (codeUnitCompare b c <= 0)%Z ->
  (codeUnitCompare a c <= 0)%Z.
Proof.
  unfold codeUnitCompare.
  destruct (String.compare a b) eqn:Hab; [| |simpl; lia].
  - apply OrderedTypeEx.String_as_OT.cmp_eq in Hab as ->. auto.
  - intros _. destruct (String.compare b c) eqn:Hbc; [| |simpl; lia]; intros _.
    + apply OrderedTypeEx.String_as_OT.cmp_eq in Hbc as <-. now rewrite Hab.
    + apply OrderedTypeEx.String_as_OT.cmp_lt in Hab, Hbc.
      pose proof (OrderedTypeEx.String_as_OT.lt_trans _ _ _ Hab Hbc) as Hac.
      apply OrderedTypeEx.String_as_OT.cmp_lt in Hac.
      unfold OrderedTypeEx.String_as_OT.cmp in Hac. now rewrite Hac.
Qed.

(** The statement at the example root with prefix [ab] and code-unit
    collation: the result is [abc], [abd], [Abc]. *)
Lemma getAllProperties_witness :
  getAllProperties codeUnitCompare exampleRoot "ab" = ["abc"; "abd"; "Abc"]
  /\ NoDup (getAllProperties codeUnitCompare exampleRoot "ab").
Proof.
  split; [reflexivity|].
  apply (getAllProperties_unique_sorted codeUnitCompare
           codeUnitCompare_total codeUnitCompare_trans exampleRoot "ab").
Defined.

End Completion.

(** * executor.ts: completeness of a source text *)

Module Completeness.

Inductive Status : Type := complete | incomplete | invalid | unknown.

Record IIsCompleteResult : Type := {
  status : Status;
  indent : option string
}.

(** [e.message || ''] *)
Definition messageOf (e : thrown) : string :=
  match e with
  | TypeError message | RangeError message | SyntaxError message => message
  | UserThrown _ => ""
  end.

(** *** The five regular expressions *)

(** The text after the first occurrence of [literal]. *)
Fixpoint afterFirst (literal text : string) : option string :=
  if String.prefix literal text
  then Some (Js.substringFrom text (String.length literal))
  else match text with
       | EmptyString => None
       | String _ rest => afterFirst literal rest
       end.

(** [l1.*l2.* ... ln] somewhere in a text without line terminator: the
    leftmost occurrence of each literal leaves the most text for the rest. *)
Fixpoint chainIn (literals : list string) (line : string) : bool :=
  match literals with
  | [] => true
  | literal :: rest =>
      match afterFirst literal line with
      | Some text => chainIn rest text
      | None => false
      end
  end.

(** The stretches of text between line terminators: [.] matches within
    one of them only. *)
Definition stretches (text : string) : list string :=
  Js.split "010" text ≫= Js.split "013".

(** [/l1.*l2...ln/i.test(message)] for lower-case literals. *)
Definition testChain (literals : list string) (message : string) : bool :=
  existsb (chainIn literals) (stretches (Js.toLowerCase message)).

Definition incompletePatterns : list (list string) :=
  [ ["unexpected end of input"];
    ["unterminated string"];
    ["unterminated template"];
    ["unexpected token"; "eof"];
    ["expected"; "but"; "end"] ].

(** Whether some pattern of the loop matches. *)
Definition looksTruncated (message : string) : bool :=
  existsb (fun pattern => testChain pattern message) incompletePatterns.

(** *** The suggested indent *)

(** The first group of [lastLine.match] for a run of [\s] at the start
    of the line. *)
Fixpoint leadingWhiteSpace (line : string) : string :=
  match line with
  | String c rest => if Js.isWhiteSpace c then String c (leadingWhiteSpace rest) else ""
  | EmptyString => ""
  end.

Fixpoint lastChar (text : string) : option ascii :=
  match text with
  | EmptyString => None
  | String c EmptyString => Some c
  | String _ rest => lastChar rest
  end.

(** [/[{([]$/.test(text)] *)
Definition endsWithOpener (text : string) : bool :=
  match lastChar text with
  | Some c => (Ascii.eqb c "{" || Ascii.eqb c "(" || Ascii.eqb c "[")%char
  | None => false
  end.

Definition indentFor (code : string) : string :=
  let lines := Js.split "010" code in
  let lastLine := default "" (last lines) in
  let currentIndent := leadingWhiteSpace lastLine in
  let opensBlock := endsWithOpener (Js.trim lastLine) in
  if opensBlock then currentIndent +:+ "  " else currentIndent.

Section IsComplete.

(** [parseScript(code, { ranges: true, module: true })] *)
Variable parseScript : string -> completion Executor.Program.

(** [isComplete(code)] *)
Definition isComplete (code : string) : IIsCompleteResult :=
  if decide (String.length (Js.trim code) = 0) then {| status := complete; indent := None |}
  else
    match parseScript code with
    | Normal _ => {| status := complete; indent := None |}
    | Throw e =>
        if looksTruncated (messageOf e)
        then {| status := incomplete; indent := Some (indentFor code) |}
        else {| status := invalid; indent := None |}
    end.

(** Empty and whitespace-only input is complete, and so is every input
    the parser accepts; a rejected input is classed by the message of the
    rejection alone. *)
Lemma isComplete_cases (code : string) :
  (String.length (Js.trim code) = 0 ->
     isComplete code = {| status := complete; indent := None |})
  /\ (forall ast, parseScript code = Normal ast ->
        isComplete code = {| status := complete; indent := None |})
  /\ (forall e, String.length (Js.trim code) <> 0 -> parseScript code = Throw e ->
        isComplete code
        = if looksTruncated (messageOf e)
          then {| status := incomplete; indent := Some (indentFor code) |}
          else {| status := invalid; indent := None |}).
Proof.
  split; [|split].
  - intros Hblank. unfold isComplete.
    now destruct (decide (String.length (Js.trim code) = 0)).
  - intros ast Hast. unfold isComplete. rewrite Hast.
    now destruct (decide (String.length (Js.trim code) = 0)).
  - intros e Hsome He. unfold isComplete. rewrite He.
    now destruct (decide (String.length (Js.trim code) = 0)).
Qed.

End IsComplete.

End Completeness.

(** * Facts about the string primitives *)

Module StringFacts.

(** The first [n] code units, and the rest. *)
Fixpoint take (n : nat) (s : string) : string :=
  match n, s with
  | S n', String c s' => String c (take n' s')
  | _, _ => ""
  end.

Fixpoint drop (n : nat) (s : string) : string :=
  match n, s with
  | S n', String c s' => drop n' s'
  | _, _ => s
  end.

Lemma cons_app c s t : String c s +:+ t = String c (s +:+ t).
Proof. reflexivity. Qed.

Lemma app_nil_r s : s +:+ "" = s.
Proof. induction s as [|c s IH]; [reflexivity|]. rewrite cons_app. now rewrite IH. Qed.

Lemma app_assoc s t u : (s +:+ t) +:+ u = s +:+ (t +:+ u).
Proof. induction s as [|c s IH]; [reflexivity|]. rewrite !cons_app. now rewrite IH. Qed.

Lemma length_app s t : String.length (s +:+ t) = String.length s + String.length t.
Proof. induction s as [|c s IH]; [reflexivity|]. rewrite cons_app. simpl. now rewrite IH. Qed.

Lemma substring_take_drop n m s : String.substring n m s = take m (drop n s).
Proof.
  revert n m. induction s as [|c s IH]; intros [|n] [|m]; simpl; try reflexivity.
  - now rewrite IH.
  - apply IH.
  - apply IH.
Qed.

Lemma take_drop n s : take n s +:+ drop n s = s.
Proof.
  revert n. induction s as [|c s IH]; intros [|n]; simpl; try reflexivity.
  rewrite cons_app. now rewrite IH.
Qed.

Lemma take_all n s : String.length s <= n -> take n s = s.
Proof.
  revert n. induction s as [|c s IH]; intros [|n] Hn; simpl in *; try reflexivity; [lia|].
  rewrite IH; [reflexivity|lia].
Qed.

Lemma drop_all n s : String.length s <= n -> drop n s = "".
Proof.
  revert n. induction s as [|c s IH]; intros [|n] Hn; simpl in *; try reflexivity; [lia|].
  apply IH. lia.
Qed.

Lemma length_take n s : String.length (take n s) = Nat.min n (String.length s).
Proof.
  revert n. induction s as [|c s IH]; intros [|n]; simpl; try reflexivity. now rewrite IH.
Qed.

Lemma length_drop n s : String.length (drop n s) = String.length s - n.
Proof.
  revert n. induction s as [|c s IH]; intros [|n]; simpl; try reflexivity. apply IH.
Qed.

Lemma drop_drop n m s : drop n (drop m s) = drop (m + n) s.
Proof.
  revert m. induction s as [|c s IH]; intros [|m]; simpl; try reflexivity.
  - now destruct n.
  - apply IH.
Qed.

Lemma take_0 s : take 0 s = "".
Proof. now destruct s. Qed.

Lemma drop_0 s : drop 0 s = s.
Proof. now destruct s. Qed.

Lemma take_app_le n s t : n <= String.length s -> take n (s +:+ t) = take n s.
Proof.
  revert n. induction s as [|c s IH]; intros n Hn.
  - simpl in Hn. replace n with 0 by lia. now rewrite !take_0.
  - destruct n as [|n]; [now rewrite !take_0|].
    rewrite cons_app. simpl in *. rewrite IH; [reflexivity|lia].
Qed.

Lemma drop_app_ge n s t :
  String.length s <= n -> drop n (s +:+ t) = drop (n - String.length s) t.
Proof.
  revert n. induction s as [|c s IH]; intros n Hn.
  - simpl. now rewrite Nat.sub_0_r.
  - destruct n as [|n]; [simpl in Hn; lia|].
    rewrite cons_app. simpl in *. apply IH. lia.
Qed.

Lemma take_app_length s t : take (String.length s) (s +:+ t) = s.
Proof. rewrite take_app_le by lia. now apply take_all. Qed.

Lemma drop_app_length s t : drop (String.length s) (s +:+ t) = t.
Proof. rewrite drop_app_ge by lia. rewrite Nat.sub_diag. apply drop_0. Qed.

(** [s.substring(a, b)] with the indices in order. *)
Lemma substring_ordered s a b :
  a <= b -> Js.substring s a b = take (Nat.min b (String.length s) - Nat.min a (String.length s))
                                   (drop (Nat.min a (String.length s)) s).
Proof.
  intros Hab. unfold Js.substring. rewrite substring_take_drop.
  replace (Nat.min (Nat.min a (String.length s)) (Nat.min b (String.length s)))
    with (Nat.min a (String.length s)) by lia.
  replace (Nat.max (Nat.min a (String.length s)) (Nat.min b (String.length s)))
    with (Nat.min b (String.length s)) by lia.
  reflexivity.
Qed.

Lemma substring_prefix s a : Js.substring s 0 a = take a s.
Proof.
  rewrite substring_ordered by lia. simpl. rewrite Nat.sub_0_r.
  destruct (Nat.le_ge_cases a (String.length s)) as [H|H].
  - now rewrite Nat.min_l.
  - rewrite Nat.min_r by exact H. now rewrite !take_all by lia.
Qed.

Lemma substringFrom_drop s a : Js.substringFrom s a = drop a s.
Proof.
  unfold Js.substringFrom.
  destruct (Nat.le_ge_cases a (String.length s)) as [H|H].
  - rewrite substring_ordered by exact H.
    rewrite Nat.min_id, Nat.min_l by exact H.
    apply take_all. rewrite length_drop. lia.
  - unfold Js.substring. rewrite substring_take_drop.
    replace (Nat.min (Nat.min a (String.length s)) (Nat.min (String.length s) (String.length s)))
      with (String.length s) by lia.
    rewrite !drop_all by lia. now destruct (_ - _).
Qed.

Lemma substring_middle s a b :
  a <= b -> Js.substring s a b = take (b - a) (drop a s).
Proof.
  intros Hab. rewrite substring_ordered by exact Hab.
  destruct (Nat.le_ge_cases a (String.length s)) as [Ha|Ha].
  - rewrite (Nat.min_l a) by exact Ha.
    destruct (Nat.le_ge_cases b (String.length s)) as [Hb|Hb].
    + now rewrite Nat.min_l.
    + rewrite Nat.min_r by exact Hb.
      rewrite !take_all; [reflexivity| |]; rewrite length_drop; lia.
  - rewrite !drop_all by lia. now destruct (_ - _), (_ - _).
Qed.


Lemma take_take n m s : n <= m -> take n (take m s) = take n s.
Proof.
  revert n m. induction s as [|c s IH]; intros [|n] [|m] Hnm; simpl; try reflexivity; [lia|].
  rewrite IH; [reflexivity|lia].
Qed.

Lemma drop_take n m s : drop n (take m s) = take (m - n) (drop n s).
Proof.
  revert n m. induction s as [|c s IH]; intros [|n] [|m]; simpl; try reflexivity.
  - now destruct (m - n).
  - apply IH.
Qed.

Lemma drop_app_le n s t : n <= String.length s -> drop n (s +:+ t) = drop n s +:+ t.
Proof.
  revert n. induction s as [|c s IH]; intros n Hn.
  - simpl in Hn. replace n with 0 by lia. now rewrite !drop_0.
  - destruct n as [|n]; [now rewrite !drop_0|].
    rewrite cons_app. simpl in *. apply IH. lia.
Qed.

(** [s.startsWith(p)] holds exactly when [s] is [p] followed by some text. *)
Lemma startsWith_spec s p : Js.startsWith s p = true <-> exists rest, s = p +:+ rest.
Proof.
  unfold Js.startsWith. revert s. induction p as [|c p IH]; intros s.
  - split; [intros _; now exists s|intros _; now destruct s].
  - destruct s as [|d s]; simpl.
    + split; [discriminate|intros [rest Hrest]; discriminate].
    + destruct (ascii_dec c d) as [->|Hcd].
      * rewrite IH. split; intros [rest Hrest]; exists rest.
        -- rewrite cons_app. now rewrite Hrest.
        -- rewrite cons_app in Hrest. now injection Hrest.
      * split; [discriminate|]. intros [rest Hrest]. rewrite cons_app in Hrest.
        injection Hrest as Hd _. congruence.
Qed.

(** [s.endsWith(p)] holds exactly when [s] is some text followed by [p]. *)
Lemma endsWith_spec s p : Js.endsWith s p = true <-> exists front, s = front +:+ p.
Proof.
  unfold Js.endsWith. split.
  - destruct (decide (String.length p <= String.length s)) as [Hle|]; [|discriminate].
    intros Heq%String.eqb_eq. rewrite substring_take_drop in Heq.
    exists (take (String.length s - String.length p) s).
    assert (Hp : p = drop (String.length s - String.length p) s).
    { rewrite <- Heq at 1. apply take_all. rewrite length_drop. lia. }
    rewrite Hp at 2. symmetry. apply take_drop.
  - intros [front ->]. rewrite length_app.
    destruct (decide (String.length p <= String.length front + String.length p)); [|lia].
    replace (String.length front + String.length p - String.length p)
      with (String.length front) by lia.
    rewrite substring_take_drop, drop_app_length, take_all by lia.
    apply String.eqb_refl.
Qed.

Lemma startsWith_app s t p : Js.startsWith s p = true -> Js.startsWith (s +:+ t) p = true.
Proof.
  rewrite !startsWith_spec. intros [rest ->]. exists (rest +:+ t). apply app_assoc.
Qed.

Lemma endsWith_app_r s t p : Js.endsWith t p = true -> Js.endsWith (s +:+ t) p = true.
Proof.
  rewrite !endsWith_spec. intros [front ->]. exists (s +:+ front).
  symmetry. apply app_assoc.
Qed.

Lemma charAt_drop n s j : Js.charAt (drop n s) j = Js.charAt s (n + j).
Proof.
  unfold Js.charAt. revert n. induction s as [|c s IH]; intros [|n]; simpl; try reflexivity.
  apply IH.
Qed.

Lemma charAt_length s j : j < String.length s <-> exists c, Js.charAt s j = Some c.
Proof.
  unfold Js.charAt. revert j. induction s as [|c s IH]; intros j; simpl.
  - split; [lia|]. intros [c Hc]. discriminate.
  - destruct j as [|j]; simpl.
    + split; [eauto|lia].
    + rewrite <- IH. lia.
Qed.

Lemma charAt_None s j : String.length s <= j -> Js.charAt s j = None.
Proof.
  intros Hj. destruct (Js.charAt s j) as [c|] eqn:Hc; [|reflexivity].
  assert (j < String.length s) by (apply charAt_length; eauto). lia.
Qed.

Lemma charAt_app_l s t j : j < String.length s -> Js.charAt (s +:+ t) j = Js.charAt s j.
Proof.
  unfold Js.charAt. revert j. induction s as [|c s IH]; intros j Hj; simpl in Hj; [lia|].
  rewrite cons_app. destruct j as [|j]; simpl; [reflexivity|]. apply IH. lia.
Qed.

Lemma charAt_app_r s t j : Js.charAt (s +:+ t) (String.length s + j) = Js.charAt t j.
Proof.
  rewrite <- charAt_drop. now rewrite drop_app_length.
Qed.

(** ** [split] and [join] *)

Lemma split_nonempty sep s : Js.split sep s <> [].
Proof.
  induction s as [|c s IH]; simpl; [discriminate|].
  destruct (Ascii.eqb c sep); [discriminate|]. now destruct (Js.split sep s).
Qed.

Lemma join_cons sep line rest :
  rest <> [] -> Js.join sep (line :: rest) = line +:+ sep +:+ Js.join sep rest.
Proof. now destruct rest. Qed.

Lemma join_split sep s : Js.join (String sep "") (Js.split sep s) = s.
Proof.
  induction s as [|c s IH]; simpl; [reflexivity|].
  pose proof (split_nonempty sep s) as Hne.
  destruct (Ascii.eqb_spec c sep) as [->|Hc].
  - rewrite join_cons by exact Hne. now rewrite IH.
  - destruct (Js.split sep s) as [|l ls]; [contradiction|].
    rewrite <- IH. destruct ls; [reflexivity|]. now rewrite !join_cons by discriminate.
Qed.

(** A text without the separator. *)
Definition free (sep : ascii) (s : string) : bool :=
  forallb (fun c => negb (Ascii.eqb c sep)) (list_ascii_of_string s).

Lemma split_free sep s : free sep s = true -> Js.split sep s = [s].
Proof.
  unfold free. induction s as [|c s IH]; simpl; [reflexivity|].
  intros [Hc Hs]%andb_true_iff. apply negb_true_iff in Hc. rewrite Hc.
  now rewrite (IH Hs).
Qed.

Lemma split_app sep line rest :
  free sep line = true ->
  Js.split sep (line +:+ String sep rest) = line :: Js.split sep rest.
Proof.
  unfold free. induction line as [|c line IH]; intros Hfree.
  - change ("" +:+ String sep rest) with (String sep rest). simpl.
    now rewrite Ascii.eqb_refl.
  - simpl in Hfree. apply andb_true_iff in Hfree as [Hc Hs]. apply negb_true_iff in Hc.
    rewrite cons_app. simpl. rewrite Hc. now rewrite (IH Hs).
Qed.

Lemma split_join sep lines :
  lines <> [] -> Forall (fun line => free sep line = true) lines ->
  Js.split sep (Js.join (String sep "") lines) = lines.
Proof.
  induction lines as [|line rest IH]; [contradiction|]. intros _ Hfree.
  apply Forall_cons in Hfree as [Hline Hrest].
  destruct rest as [|next rest]; [now apply split_free|].
  rewrite join_cons by discriminate.
  change (String sep "" +:+ ?s) with (String sep s).
  rewrite split_app by exact Hline. now rewrite IH.
Qed.

Lemma split_lines_free sep s : Forall (fun line => free sep line = true) (Js.split sep s).
Proof.
  induction s as [|c s IH]; simpl; [now repeat constructor|].
  destruct (Ascii.eqb c sep) eqn:Hc; [now constructor|].
  destruct (Js.split sep s) as [|l ls];
    [constructor; [unfold free; simpl; now rewrite Hc|constructor]|].
  apply Forall_cons in IH as [Hl Hls]. constructor; [|exact Hls].
  unfold free in *. simpl. now rewrite Hc, Hl.
Qed.

End StringFacts.

(** * executor.ts: the wording of the parser at the end of the text *)

Module CompletenessFacts.
Import Completeness StringFacts.

(** What the parser says when the text ends inside an open block,
    bracket or parenthesis; the message starts with the position. *)
Definition endOfSource : string := "Unexpected token: 'end of source'".

(** The characters of a position: brackets, digits, colon, hyphen and
    space. *)
Definition isPositionChar (c : ascii) : bool :=
  existsb (Ascii.eqb c) (list_ascii_of_string "[]:- 0123456789").

Definition isPosition (location : string) : bool :=
  forallb isPositionChar (list_ascii_of_string location).

(** A parser that rejects [function f() {] at line 1, column 14, in
    that wording, and accepts every other text. *)
Definition endOfSourceParser (code : string) : completion Executor.Program :=
  if String.eqb code "function f() {"
  then Throw (SyntaxError ("[1:14]: " +:+ endOfSource))
  else Normal {| Executor.body := [] |}.

Lemma isPositionChar_plain c :
  isPositionChar c = true ->
  Js.lowerChar c = c /\ c <> "u"%char /\ c <> "e"%char
  /\ Ascii.eqb c "010" = false /\ Ascii.eqb c "013" = false.
Proof.
  unfold isPositionChar. cbn [existsb list_ascii_of_string]. intros H.
  repeat (apply orb_true_iff in H as [H|H];
          [apply Ascii.eqb_eq in H; subst c; repeat split; (reflexivity || discriminate)|]).
  discriminate.
Qed.

Lemma toLowerCase_app s t : Js.toLowerCase (s +:+ t) = Js.toLowerCase s +:+ Js.toLowerCase t.
Proof.
  induction s as [|c s IH]; [reflexivity|]. rewrite cons_app. simpl. now rewrite IH.
Qed.

Lemma toLowerCase_position location :
  isPosition location = true -> Js.toLowerCase location = location.
Proof.
  unfold isPosition. induction location as [|c location IH]; simpl; [reflexivity|].
  intros [Hc Hrest]%andb_true_iff.
  destruct (isPositionChar_plain c Hc) as (-> & _). now rewrite (IH Hrest).
Qed.

Lemma free_app sep s t : free sep (s +:+ t) = free sep s && free sep t.
Proof.
  unfold free. induction s as [|c s IH]; [reflexivity|].
  rewrite cons_app. simpl. rewrite IH. now rewrite andb_assoc.
Qed.

Lemma position_free location :
  isPosition location = true -> free "010" location = true /\ free "013" location = true.
Proof.
  unfold isPosition, free. induction location as [|c location IH]; simpl; [auto|].
  intros [Hc Hrest]%andb_true_iff.
  destruct (isPositionChar_plain c Hc) as (_ & _ & _ & -> & ->).
  now apply IH.
Qed.

(** A text in one piece: no line terminator splits it. *)
Lemma stretches_single text :
  free "010" text = true -> free "013" text = true -> stretches text = [text].
Proof.
  intros Hlf Hcr. unfold stretches. rewrite (split_free _ _ Hlf). simpl.
  rewrite (split_free _ _ Hcr). reflexivity.
Qed.

(** A literal that starts with a letter is not found inside a position. *)
Lemma afterFirst_position (l : ascii) (literal location text : string) :
  isPosition location = true -> isPositionChar l = false ->
  afterFirst (String l literal) (location +:+ text) = afterFirst (String l literal) text.
Proof.
  unfold isPosition. intros Hlocation Hl.
  induction location as [|c location IH]; [reflexivity|].
  simpl in Hlocation. apply andb_true_iff in Hlocation as [Hc Hrest].
  rewrite cons_app. cbn [afterFirst String.prefix].
  destruct (ascii_dec l c) as [->|_]; [congruence|]. now apply IH.
Qed.

Lemma chainIn_position (l : ascii) (literal : string) (rest : list string)
    (location text : string) :
  isPosition location = true -> isPositionChar l = false ->
  chainIn (String l literal :: rest) (location +:+ text)
  = chainIn (String l literal :: rest) text.
Proof.
  intros Hlocation Hl. cbn [chainIn]. now rewrite afterFirst_position.
Qed.

Lemma looksTruncated_endOfSource location :
  isPosition location = true -> looksTruncated (location +:+ endOfSource) = false.
Proof.
  intros Hlocation.
  destruct (position_free location Hlocation) as [Hlf Hcr].
  unfold looksTruncated, incompletePatterns, testChain.
  rewrite toLowerCase_app, (toLowerCase_position location Hlocation).
  rewrite stretches_single
    by (rewrite free_app; apply andb_true_iff; split; [assumption|reflexivity]).
  cbn [existsb].
  rewrite !chainIn_position by (assumption || reflexivity).
  reflexivity.
Qed.

Section EndOfSource.

Variable parseScript : string -> completion Executor.Program.

(** C7, on the code.  The parser words the end of the text inside an
    open block as [Unexpected token: 'end of source'], after the
    position of the error.  None of the five patterns matches that
    message, whatever the position: so every text the parser rejects
    that way is classed other than [incomplete], with no indent, and
    [function f() {] is classed [invalid]. *)
Theorem isComplete_end_of_source (location : string)
    (Hlocation : isPosition location = true) :
  looksTruncated (location +:+ endOfSource) = false
  /\ (forall code,
        parseScript code = Throw (SyntaxError (location +:+ endOfSource)) ->
        status (isComplete parseScript code) <> incomplete
        /\ indent (isComplete parseScript code) = None)
  /\ (parseScript "function f() {" = Throw (SyntaxError (location +:+ endOfSource)) ->
      isComplete parseScript "function f() {" = {| status := invalid; indent := None |}).
Proof.
  pose proof (looksTruncated_endOfSource location Hlocation) as Hmessage.
  split; [exact Hmessage|]. split.
  - intros code Hrejected. unfold isComplete. rewrite Hrejected.
    cbn [messageOf]. rewrite Hmessage.
    destruct (decide (String.length (Js.trim code) = 0)); split; (discriminate || reflexivity).
  - intros Hrejected. unfold isComplete. rewrite Hrejected.
    cbn [messageOf]. rewrite Hmessage. reflexivity.
Qed.

End EndOfSource.

Lemma isComplete_end_of_source_witness :
  isComplete endOfSourceParser "function f() {" = {| status := invalid; indent := None |}.
Proof.
  apply (isComplete_end_of_source endOfSourceParser "[1:14]: "); reflexivity.
Defined.

End CompletenessFacts.

(** * Further facts about the source rewriter *)

Module Rewriting.
Import Executor StringFacts.

(** ** The scan for a semicolon *)

Lemma semicolonScan_spec code i steps :
  semicolonScan code i steps = true
  <-> exists j, i <= j < i + steps /\ Js.charAt code j = Some ";"%char.
Proof.
  revert i. induction steps as [|steps IH]; intros i; simpl.
  - split; [discriminate|]. intros (j & Hj & _). lia.
  - destruct (Js.charAt code i) as [c|] eqn:Hc.
    + destruct (Ascii.eqb_spec c ";") as [->|Hne].
      * split; [|reflexivity]. intros _. exists i. split; [lia|exact Hc].
      * rewrite IH. split; intros (j & Hj & Hsemi).
        -- exists j. split; [lia|exact Hsemi].
        -- exists j. split; [|exact Hsemi].
           destruct (decide (j = i)) as [->|]; [|lia]. congruence.
    + rewrite IH. split; intros (j & Hj & Hsemi).
      * exists j. split; [lia|exact Hsemi].
      * exists j. split; [|exact Hsemi].
        destruct (decide (j = i)) as [->|]; [|lia]. congruence.
Qed.

(** The loop of [handleLastStatement] finds a semicolon exactly when one
    stands at an offset from the end of the expression up to, and not
    including, the end of the statement. *)
Lemma semicolonFound_spec (code : string) (lastNodeExprEnd lastNodeRestEnd : nat) :
  semicolonFound code lastNodeExprEnd lastNodeRestEnd = true
  <-> exists i, lastNodeExprEnd <= i < lastNodeRestEnd
                /\ Js.charAt code i = Some ";"%char.
Proof.
  unfold semicolonFound. rewrite semicolonScan_spec.
  split; intros (i & Hi & Hsemi); exists i; (split; [lia|exact Hsemi]).
Qed.

(** ** The implicit result *)

(** X1.  [withReturn] is set exactly for a last statement that is an
    expression statement, no assignment, with no semicolon after the
    expression; in every other case the code comes back as it was, with
    no return statement. *)
Theorem handleLastStatement_withReturn_iff (code : string) (ast : Program) :
  (withReturn (handleLastStatement code ast) = true
   <-> exists lastNode expression,
         last (body ast) = Some lastNode
         /\ kind lastNode = ExpressionStatement expression
         /\ etype expression <> "AssignmentExpression"
         /\ forall i, eend expression <= i < end_ lastNode ->
                      Js.charAt code i <> Some ";"%char)
  /\ (withReturn (handleLastStatement code ast) = false ->
      modifiedUserCode (handleLastStatement code ast) = code
      /\ extraReturnCode (handleLastStatement code ast) = "").
Proof.
  unfold handleLastStatement.
  destruct (last (body ast)) as [lastNode|] eqn:Hlast.
  2: { split; [|now simpl]. split; [discriminate|]. now intros (? & ? & ? & _). }
  destruct (kind lastNode) as [| | |expression| |] eqn:Hkind;
    try (split; [|now simpl]; split; [discriminate|];
         intros (n & e & [= <-] & He & _); congruence).
  destruct (String.eqb_spec (etype expression) "AssignmentExpression") as [Hassign|Hassign].
  { split; [|now simpl]. split; [discriminate|].
    intros (n & e & [= <-] & He & Hne & _). congruence. }
  destruct (semicolonFound code (eend expression) (end_ lastNode)) eqn:Hsemi; simpl.
  - split; [|auto]. split; [discriminate|].
    intros (n & e & [= <-] & He & _ & Hnone).
    rewrite Hkind in He. injection He as <-.
    apply semicolonFound_spec in Hsemi as (i & Hi & Hfound).
    exfalso. exact (Hnone i Hi Hfound).
  - split; [|discriminate]. split; [|reflexivity]. intros _.
    exists lastNode, expression. repeat split; try assumption.
    intros i Hi Hfound.
    assert (semicolonFound code (eend expression) (end_ lastNode) = true)
      by (apply semicolonFound_spec; eauto).
    congruence.
Qed.

(** The source [x = 1;]: an assignment followed by a semicolon is left
    alone. *)
Lemma handleLastStatement_withReturn_witness :
  let code := "x = 1;" in
  let ast :=
    {| body := [ {| kind := ExpressionStatement
                              {| etype := "AssignmentExpression"; estart := 0; eend := 5 |};
                    start := 0; end_ := 6 |} ] |} in
  modifiedUserCode (handleLastStatement code ast) = code
  /\ extraReturnCode (handleLastStatement code ast) = "".
Proof.
  intros code ast.
  apply (proj2 (handleLastStatement_withReturn_iff code ast)). reflexivity.
Defined.



(** ** Splicing the import declarations *)

(** The text that takes the place of a node: none for a node that is no
    import declaration. *)
Definition replacement (config : ExecutorConfig) (node : Statement) : option string :=
  match kind node with
  | ImportDeclaration source specifiers =>
      let importSource := transformImportSource config source in
      Some (match specifiers with
            | [] => "await import(" +:+ dq +:+ importSource +:+ dq +:+ ");" +:+ nl
            | _ => (lowerImport importSource specifiers).1
            end)
  | _ => None
  end.

(** One pass over the source from left to right: the text between the
    nodes is copied, each node is copied or replaced. *)
Fixpoint spliced (config : ExecutorConfig) (code : string) (pos : nat)
    (nodes : list Statement) : string :=
  match nodes with
  | [] => drop pos code
  | node :: rest =>
      Js.substring code pos (start node)
      +:+ default (Js.substring code (start node) (end_ node)) (replacement config node)
      +:+ spliced config code (end_ node) rest
  end.

(** The ranges of the nodes follow one another inside the source. *)
Fixpoint inOrder (code : string) (pos : nat) (nodes : list Statement) : Prop :=
  match nodes with
  | [] => pos <= String.length code
  | node :: rest =>
      pos <= start node /\ start node <= end_ node /\ inOrder code (end_ node) rest
  end.

Lemma inOrder_le code pos nodes : inOrder code pos nodes -> pos <= String.length code.
Proof.
  revert pos. induction nodes as [|node rest IH]; intros pos; simpl; [auto|].
  intros (Hpos & Hnode & Hrest). specialize (IH _ Hrest). lia.
Qed.

Lemma take_split a b s : a <= b -> take b s = take a s +:+ take (b - a) (drop a s).
Proof.
  revert a b. induction s as [|c s IH]; intros [|a] [|b] Hab; simpl; try reflexivity.
  - now destruct (b - a).
  - lia.
  - rewrite cons_app. rewrite (IH a b) by lia. reflexivity.
Qed.

Lemma replaceCode_parts code start end_ newCode :
  replaceCode code start end_ newCode = take start code +:+ newCode +:+ drop end_ code.
Proof. unfold replaceCode. now rewrite substring_prefix, substringFrom_drop. Qed.

Lemma rewriteNode_code config node acc :
  rewrittenCode (rewriteNode config node acc)
  = match replacement config node with
    | Some text => replaceCode (rewrittenCode acc) (start node) (end_ node) text
    | None => rewrittenCode acc
    end.
Proof.
  unfold rewriteNode, replacement.
  destruct (kind node) as [| | | |source specifiers|]; try reflexivity.
  destruct specifiers as [|specifier specifiers]; [reflexivity|].
  now destruct (lowerImport _ _).
Qed.

Lemma rewrite_spliced config code pos nodes :
  inOrder code pos nodes ->
  rewrittenCode (foldr (rewriteNode config)
                   {| rewrittenCode := code; codeAddToGlobalScope := "" |} nodes)
  = take pos code +:+ spliced config code pos nodes.
Proof.
  revert pos. induction nodes as [|node rest IH]; intros pos; simpl.
  - intros _. symmetry. apply take_drop.
  - intros (Hpos & Hnode & Hrest).
    pose proof (inOrder_le _ _ _ Hrest) as Hend.
    rewrite rewriteNode_code, (IH _ Hrest).
    rewrite (substring_middle code pos (start node)) by exact Hpos.
    rewrite <- app_assoc, <- (take_split pos (start node)) by exact Hpos.
    destruct (replacement config node) as [text|]; simpl.
    + rewrite replaceCode_parts.
      assert (Hlen : String.length (take (end_ node) code) = end_ node)
        by (rewrite length_take; lia).
      rewrite take_app_le by lia. rewrite take_take by exact Hnode.
      rewrite drop_app_ge by lia. now rewrite Hlen, Nat.sub_diag, drop_0.
    + rewrite (substring_middle code (start node) (end_ node)) by exact Hnode.
      rewrite <- app_assoc. now rewrite <- (take_split (start node) (end_ node)).
Qed.

(** X3.  Replacing the import declarations from the last to the first, each
    at the offsets the parser gave for the original source, yields the
    same text as one pass from left to right that copies everything but
    the import declarations and puts each replacement in its place: the
    earlier offsets stay valid. *)
Theorem rewriteImportStatements_spliced (config : ExecutorConfig) (code : string)
    (ast : Program) (Hranges : inOrder code 0 (body ast)) :
  rewrittenCode (rewriteImportStatements config code ast)
  = spliced config code 0 (body ast).
Proof.
  unfold rewriteImportStatements. rewrite (rewrite_spliced config code 0) by exact Hranges.
  now rewrite take_0.
Qed.

(** The source [import 'x';] followed by [f()]. *)
Definition sideEffectSource : string := "import 'x';" +:+ nl +:+ "f()".

Definition sideEffectProgram : Program :=
  {| body :=
       [ {| kind := ImportDeclaration "x" []; start := 0; end_ := 11 |};
         {| kind := ExpressionStatement
                      {| etype := "CallExpression"; estart := 12; eend := 15 |};
            start := 12; end_ := 15 |} ] |}.

Lemma rewriteImportStatements_spliced_witness :
  rewrittenCode (rewriteImportStatements defaultConfig sideEffectSource sideEffectProgram)
  = spliced defaultConfig sideEffectSource 0 (body sideEffectProgram).
Proof.
  apply (rewriteImportStatements_spliced defaultConfig sideEffectSource sideEffectProgram).
  simpl. lia.
Defined.

(** X4.  A source without import declaration passes through unchanged and
    adds no export, whatever the ranges of its nodes. *)
Theorem rewriteImportStatements_no_import (config : ExecutorConfig) (code : string)
    (ast : Program)
    (Hnone : forall node, node ∈ body ast -> replacement config node = None) :
  rewriteImportStatements config code ast
  = {| rewrittenCode := code; codeAddToGlobalScope := "" |}.
Proof.
  unfold rewriteImportStatements.
  induction (body ast) as [|node rest IH]; simpl; [reflexivity|].
  rewrite IH by (intros n Hn; apply Hnone; now right).
  specialize (Hnone node (list_elem_of_here _ _)).
  unfold replacement, rewriteNode in *.
  now destruct (kind node).
Qed.

Lemma rewriteImportStatements_no_import_witness :
  let ast := {| body := [ {| kind := FunctionDeclaration "f"; start := 0; end_ := 15 |} ] |} in
  rewriteImportStatements defaultConfig "function f() {}" ast
  = {| rewrittenCode := "function f() {}"; codeAddToGlobalScope := "" |}.
Proof.
  intros ast.
  apply (rewriteImportStatements_no_import defaultConfig "function f() {}" ast).
  intros node Hnode. apply list_elem_of_singleton in Hnode as ->. reflexivity.
Defined.

(** ** Named imports *)

Lemma scan_named acc (specs : list (name_or_undefined * string)) :
  Forall (fun p => p.1 <> Some "default") specs ->
  fold_left scanSpecifier ((fun p => ImportSpecifier p.1 p.2) <$> specs) acc
  = {| hasDefaultImport := hasDefaultImport acc;
       defaultImportName := defaultImportName acc;
       hasNamespaceImport := hasNamespaceImport acc;
       namespaceImportName := namespaceImportName acc;
       importedNames := (importedNames acc ++ specs.*1)%list;
       localNames := (localNames acc ++ specs.*2)%list |}.
Proof.
  intros Hnamed. revert acc.
  induction Hnamed as [|[imported local] specs Hne _ IH]; intros acc; simpl.
  - rewrite !List.app_nil_r. now destruct acc.
  - rewrite IH. simpl in Hne.
    case_decide; [done|]. simpl.
    now rewrite <- !List.app_assoc.
Qed.

(** The exports of a list of named bindings, one after the other. *)
Fixpoint namedExports (specs : list (name_or_undefined * string)) : string :=
  match specs with
  | [] => ""
  | (imported, local) :: rest =>
      addToGlobalThisCode (Some local) imported +:+ namedExports rest
  end.

Lemma namedClause_named (specs : list (name_or_undefined * string)) :
  namedClause specs.*1 specs.*2
  = (Js.join ", " (show <$> specs.*1), namedExports specs).
Proof.
  induction specs as [|[imported local] specs IH]; [reflexivity|].
  rewrite !fmap_cons. cbn [namedClause tail head fst snd]. rewrite IH.
  cbn [namedExports]. f_equal.
  destruct specs as [|spec specs].
  - cbn. now rewrite app_nil_r.
  - rewrite !fmap_cons. case_decide; [discriminate|]. reflexivity.
Qed.

(** X5.  An import of named bindings only is lowered to one destructuring
    declaration that lists the imported names (never the local ones), and
    publishes each binding on [globalThis] under its local name with the
    imported name as value. *)
Theorem lowerImport_named (importSource : string)
    (specs : list (name_or_undefined * string))
    (Hsome : specs <> [])
    (Hnamed : Forall (fun p => p.1 <> Some "default") specs) :
  lowerImport importSource ((fun p => ImportSpecifier p.1 p.2) <$> specs)
  = ("const { " +:+ Js.join ", " (show <$> specs.*1) +:+ " }"
     +:+ " = await import(" +:+ dq +:+ importSource +:+ dq +:+ ");" +:+ nl,
     namedExports specs).
Proof.
  unfold lowerImport. rewrite (scan_named scanStart specs Hnamed). simpl.
  destruct specs as [|spec specs]; [done|].
  change (spec.1 :: specs.*1) with ((spec :: specs).*1).
  change (spec.2 :: specs.*2) with ((spec :: specs).*2).
  destruct ((spec :: specs).*1) eqn:Hnames; [discriminate|]. rewrite <- Hnames.
  now rewrite namedClause_named.
Qed.

Lemma lowerImport_named_witness :
  lowerImport "m" [ImportSpecifier (Some "a") "b"; ImportSpecifier (Some "c") "c"]
  = ("const { a, c } = await import(" +:+ dq +:+ "m" +:+ dq +:+ ");" +:+ nl,
     "globalThis[" +:+ dq +:+ "b" +:+ dq +:+ "] = a;"
     +:+ "globalThis[" +:+ dq +:+ "c" +:+ dq +:+ "] = c;").
Proof.
  refine (lowerImport_named "m" [(Some "a", "b"); (Some "c", "c")] _ _); [discriminate|].
  repeat constructor; discriminate.
Defined.

(** ** Module resolution *)

Lemma existsb_startsWith_app s t prefixes :
  existsb (Js.startsWith s) prefixes = true ->
  existsb (Js.startsWith (s +:+ t)) prefixes = true.
Proof.
  rewrite !existsb_exists. intros (p & Hp & Hstarts).
  exists p. split; [exact Hp|]. now apply startsWith_app.
Qed.

Lemma transformImportSource_raw config source :
  existsb (Js.startsWith source) noMagicStarts = true ->
  transformImportSource config source = source.
Proof.
  intros Hraw. unfold transformImportSource. rewrite Hraw.
  now destruct (negb (enabled (magicImports config))).
Qed.

Lemma transformImportSource_cases config source :
  transformImportSource config source = source
  \/ exists rest, transformImportSource config source = normalizedBaseUrl config +:+ rest.
Proof.
  unfold transformImportSource.
  destruct (negb (enabled (magicImports config))); [now left|]. cbv zeta.
  destruct (existsb (Js.startsWith source) noMagicStarts); [now left|]. right.
  destruct (existsb (Js.startsWith source) ["npm/"; "gh/"]
            || negb (enableAutoNpm (magicImports config))); eauto.
Qed.

(** X6.  With a base URL that itself starts with one of the raw prefixes, as
    the default one does, a resolved specifier resolves to itself:
    resolving twice is resolving once. *)
Theorem transformImportSource_idempotent (config : ExecutorConfig) (source : string)
    (Hbase : existsb (Js.startsWith (baseUrl (magicImports config))) noMagicStarts = true) :
  transformImportSource config (transformImportSource config source)
  = transformImportSource config source.
Proof.
  destruct (transformImportSource_cases config source) as [Hsame | [rest ->]].
  - rewrite Hsame. exact Hsame.
  - apply transformImportSource_raw, existsb_startsWith_app. unfold normalizedBaseUrl.
    destruct (Js.endsWith _ _); [exact Hbase|]. now apply existsb_startsWith_app.
Qed.

Lemma transformImportSource_idempotent_witness :
  transformImportSource defaultConfig (transformImportSource defaultConfig "lodash")
  = transformImportSource defaultConfig "lodash".
Proof. apply (transformImportSource_idempotent defaultConfig "lodash"). reflexivity. Defined.

(** X7.  Every specifier that is rewritten ends in one of [.js], [.mjs],
    [.cjs], [.wasm], [+esm]. *)
Theorem transformImportSource_ending (config : ExecutorConfig) (source : string)
    (Henabled : enabled (magicImports config) = true)
    (Hraw : existsb (Js.startsWith source) noMagicStarts = false) :
  existsb (Js.endsWith (transformImportSource config source)) noEmsEnds = true.
Proof.
  assert (Hgoal : forall front,
            existsb (Js.endsWith (front +:+ source +:+ emsExtraEnd source)) noEmsEnds = true).
  { intros front. unfold emsExtraEnd. cbv zeta.
    destruct (existsb (Js.endsWith source) noEmsEnds) eqn:Hends; cbn [negb].
    - apply existsb_exists in Hends as (ending & Hin & Hending).
      apply existsb_exists. exists ending. split; [exact Hin|].
      rewrite app_nil_r. now apply endsWith_app_r.
    - apply existsb_exists. exists "+esm". split; [cbv; tauto|].
      apply endsWith_app_r, endsWith_app_r. now destruct (Js.endsWith source "/"). }
  unfold transformImportSource. rewrite Henabled, Hraw. cbn [negb]. cbv zeta.
  destruct (existsb (Js.startsWith source) ["npm/"; "gh/"]
            || negb (enableAutoNpm (magicImports config))).
  - apply Hgoal.
  - rewrite <- (app_assoc (normalizedBaseUrl config) "npm/"). apply Hgoal.
Qed.

Lemma transformImportSource_ending_witness :
  existsb (Js.endsWith (transformImportSource defaultConfig "d3/dist/d3.min.js")) noEmsEnds
  = true.
Proof.
  apply (transformImportSource_ending defaultConfig "d3/dist/d3.min.js"); reflexivity.
Defined.

(** ** When the export pass fails *)

Definition isRest (prop : PatternProperty) : bool :=
  match prop with
  | RestProperty _ => true
  | Property _ _ => false
  end.

Definition declaratorHasRest (declaration : VariableDeclarator) : bool :=
  match id declaration with
  | ObjectPattern properties => existsb isRest properties
  | _ => false
  end.

Definition statementHasRest (node : Statement) : bool :=
  match kind node with
  | VariableDeclaration declarations => existsb declaratorHasRest declarations
  | _ => false
  end.

(** Some top-level declaration destructures an object with a rest element. *)
Definition hasObjectRest (ast : Program) : bool := existsb statementHasRest (body ast).

Definition restError : thrown :=
  TypeError "Cannot read properties of undefined (reading 'name')".

Lemma cmapM_dichotomy {A B} (f : A -> completion B) (bad : A -> bool) (e : thrown) l :
  (forall x, bad x = true -> f x = Throw e) ->
  (forall x, bad x = false -> returns (f x)) ->
  (existsb bad l = true -> cmapM f l = Throw e)
  /\ (existsb bad l = false -> returns (cmapM f l)).
Proof.
  intros Hbad Hgood. induction l as [|x l [IHbad IHgood]]; simpl.
  - split; [discriminate|]. intros _. now eexists.
  - destruct (bad x) eqn:Hx; simpl.
    + split; [|discriminate]. intros _. now rewrite (Hbad x Hx).
    + destruct (Hgood x Hx) as [y ->]. simpl. split.
      * intros Hl. now rewrite (IHbad Hl).
      * intros Hl. destruct (IHgood Hl) as [ys ->]. now eexists.
Qed.

Lemma exportProperty_dichotomy prop :
  (isRest prop = true -> exportProperty prop = Throw restError)
  /\ (isRest prop = false -> returns (exportProperty prop)).
Proof.
  destruct prop as [propKey propValue|argument]; simpl.
  - split; [discriminate|]. intros _. unfold returns.
    case_decide; [destruct propValue|]; eauto.
  - split; [reflexivity|discriminate].
Qed.

Lemma exportDeclarator_dichotomy declaration :
  (declaratorHasRest declaration = true -> exportDeclarator declaration = Throw restError)
  /\ (declaratorHasRest declaration = false -> returns (exportDeclarator declaration)).
Proof.
  unfold declaratorHasRest, exportDeclarator.
  destruct (id declaration) as [name|properties|elements|left|argument];
    try (split; [discriminate|intros _; now eexists]).
  destruct (cmapM_dichotomy exportProperty isRest restError properties
              (fun x => proj1 (exportProperty_dichotomy x))
              (fun x => proj2 (exportProperty_dichotomy x))) as [Hbad Hgood].
  split; intros Hrest.
  - now rewrite (Hbad Hrest).
  - destruct (Hgood Hrest) as [extraCode ->]. now eexists.
Qed.

Lemma exportStatement_dichotomy node :
  (statementHasRest node = true -> exportStatement node = Throw restError)
  /\ (statementHasRest node = false -> returns (exportStatement node)).
Proof.
  unfold statementHasRest, exportStatement.
  destruct (kind node) as [name|name|declarations|expression|source specifiers|type];
    try (split; [discriminate|intros _; now eexists]).
  destruct (cmapM_dichotomy exportDeclarator declaratorHasRest restError declarations
              (fun x => proj1 (exportDeclarator_dichotomy x))
              (fun x => proj2 (exportDeclarator_dichotomy x))) as [Hbad Hgood].
  split; intros Hrest.
  - now rewrite (Hbad Hrest).
  - destruct (Hgood Hrest) as [extraCode ->]. now eexists.
Qed.

(** X8.  The export pass fails exactly on the programs in which a top-level
    variable declaration destructures an object with a rest element, and
    then with a TypeError; on every other program it returns its
    statements. *)
Theorem addToGlobalScope_throws_iff (ast : Program) :
  (hasObjectRest ast = true -> addToGlobalScope ast = Throw restError)
  /\ (hasObjectRest ast = false -> returns (addToGlobalScope ast)).
Proof.
  unfold hasObjectRest, addToGlobalScope.
  destruct (cmapM_dichotomy exportStatement statementHasRest restError (body ast)
              (fun x => proj1 (exportStatement_dichotomy x))
              (fun x => proj2 (exportStatement_dichotomy x))) as [Hbad Hgood].
  split; intros Hrest.
  - now rewrite (Hbad Hrest).
  - destruct (Hgood Hrest) as [extraCode ->]. now eexists.
Qed.

(** The declaration [const {a, ...r} = o] makes the pass fail; the
    source [import 'x';] followed by [f()] does not. *)
Lemma addToGlobalScope_throws_witness :
  addToGlobalScope restProgram = Throw restError
  /\ returns (addToGlobalScope sideEffectProgram).
Proof.
  split.
  - apply (proj1 (addToGlobalScope_throws_iff restProgram)). reflexivity.
  - apply (proj2 (addToGlobalScope_throws_iff sideEffectProgram)). reflexivity.
Defined.

(** ** The two passes of [makeAsyncFromCode] together *)








Section Passes.

Context {Window : Type}.


End Passes.


(** ** What [extractImports] reports *)

Section Imports.

Variable parseScript : string -> completion Program.
Context {Window : Type}.

(** The specifiers of the top-level import declarations, in source order. *)
Definition importSources (nodes : list Statement) : list string :=
  omap (fun node => match kind node with
                    | ImportDeclaration source _ => Some source
                    | _ => None
                    end) nodes.

Lemma recordSpecifiers_source_url specifiers info :
  info_source (fold_left recordSpecifier specifiers info) = info_source info
  /\ url (fold_left recordSpecifier specifiers info) = url info.
Proof.
  revert info. induction specifiers as [|specifier specifiers IH]; intros info; [done|].
  simpl. destruct (IH (recordSpecifier info specifier)) as [-> ->].
  destruct specifier as [imported local|local|local]; simpl; try done.
  now case_decide.
Qed.

(** X10.  For a source that parses, [extractImports] reports one entry for
    each top-level import declaration, in source order, with the
    specifier as written and the URL the module-resolution policy gives
    it; nodes of other kinds add nothing. *)
Theorem extractImports_entries (code : string) (this : JavaScriptExecutor (Window := Window))
    (ast : Program)
    (Hparsed : parseScript code = Normal ast) :
  exists infos,
    (extractImports parseScript code this).1 = Normal infos
    /\ (String.length code <> 0 ->
        (fun info => (info_source info, url info)) <$> infos
        = (fun source => (source, transformImportSource (config this) source))
            <$> importSources (body ast)).
Proof.
  unfold extractImports.
  destruct (decide (String.length code = 0)) as [Hempty|Hsome]; simpl.
  { exists []. split; [reflexivity|]. done. }
  rewrite Hparsed. simpl. eexists. split; [reflexivity|]. intros _.
  induction (body ast) as [|node rest IH]; [reflexivity|].
  rewrite fmap_cons. cbn [List.concat]. rewrite fmap_app, IH.
  unfold importSources. cbn [omap list_omap]. fold (importSources rest).
  unfold importInfoOf at 1.
  destruct (kind node) as [| | | |source specifiers|]; try reflexivity.
  cbn [fmap list_fmap app].
  destruct (recordSpecifiers_source_url specifiers
              {| info_source := source;
                 url := transformImportSource (config this) source;
                 defaultImport := None; namespaceImport := None;
                 namedImports := ∅ |}) as [-> ->].
  reflexivity.
Qed.

End Imports.

Lemma extractImports_entries_witness :
  let parse := fun code : string =>
    if String.eqb code sideEffectSource then Normal sideEffectProgram
    else Throw (SyntaxError "Unexpected token") in
  let this := {| config := defaultConfig; globalScope := tt |} in
  exists infos,
    (extractImports parse sideEffectSource this).1 = Normal infos
    /\ (String.length sideEffectSource <> 0 ->
        (fun info => (info_source info, url info)) <$> infos
        = [("x", "https://cdn.jsdelivr.net/npm/x/+esm")]).
Proof.
  intros parse this.
  exact (extractImports_entries parse sideEffectSource this sideEffectProgram eq_refl).
Defined.

End Rewriting.

(** * Further facts about the presenter *)

Module PresenterFacts.
Import Presenter StringFacts.

(** ** Escaping *)

(** What [escapeHtml] writes for one character. *)
Definition escapeChar (c : ascii) : string :=
  if Ascii.eqb c "&" then "&amp;"
  else if Ascii.eqb c "<" then "&lt;"
  else if Ascii.eqb c ">" then "&gt;"
  else if Ascii.eqb c "034" then "&quot;"
  else if Ascii.eqb c "'" then "&#39;"
  else String c "".

Lemma escapeHtml_cons c rest :
  escapeHtml (String c rest) = escapeChar c +:+ escapeHtml rest.
Proof. reflexivity. Qed.

(** The characters that would open or close markup or an attribute. *)
Definition isMarkup (c : ascii) : bool :=
  Ascii.eqb c "<" || Ascii.eqb c ">" || Ascii.eqb c "034" || Ascii.eqb c "'".

Fixpoint occurs (test : ascii -> bool) (text : string) : bool :=
  match text with
  | EmptyString => false
  | String c rest => test c || occurs test rest
  end.

Lemma occurs_app test s t : occurs test (s +:+ t) = occurs test s || occurs test t.
Proof.
  induction s as [|c s IH]; [reflexivity|].
  rewrite cons_app. simpl. rewrite IH. now rewrite orb_assoc.
Qed.

Lemma escapeChar_markup c : occurs isMarkup (escapeChar c) = false.
Proof.
  unfold escapeChar.
  destruct (Ascii.eqb_spec c "&"); [reflexivity|].
  destruct (Ascii.eqb c "<") eqn:Hlt; [reflexivity|].
  destruct (Ascii.eqb c ">") eqn:Hgt; [reflexivity|].
  destruct (Ascii.eqb c "034") eqn:Hdq; [reflexivity|].
  destruct (Ascii.eqb c "'") eqn:Hsq; [reflexivity|].
  simpl. unfold isMarkup. now rewrite Hlt, Hgt, Hdq, Hsq.
Qed.

Lemma escapeChar_inj c d x y :
  escapeChar c +:+ x = escapeChar d +:+ y -> c = d /\ x = y.
Proof.
  unfold escapeChar.
  destruct (Ascii.eqb_spec c "&"), (Ascii.eqb_spec d "&");
  destruct (Ascii.eqb_spec c "<"), (Ascii.eqb_spec d "<");
  destruct (Ascii.eqb_spec c ">"), (Ascii.eqb_spec d ">");
  destruct (Ascii.eqb_spec c "034"), (Ascii.eqb_spec d "034");
  destruct (Ascii.eqb_spec c "'"), (Ascii.eqb_spec d "'");
  subst; try discriminate; intros H; inversion H; subst; try done.
Qed.

(** X11.  The escaped text contains no [<], [>], double or single quote, text
    free of the five special characters is left as it is, and no two
    texts are escaped to the same one: the source can be read back. *)
Theorem escapeHtml_safe_injective (text : string) :
  occurs isMarkup (escapeHtml text) = false
  /\ (occurs (fun c => isMarkup c || Ascii.eqb c "&") text = false ->
      escapeHtml text = text)
  /\ (forall other, escapeHtml text = escapeHtml other -> text = other).
Proof.
  split; [|split].
  - induction text as [|c text IH]; [reflexivity|].
    rewrite escapeHtml_cons, occurs_app, IH. now rewrite escapeChar_markup.
  - induction text as [|c text IH]; [reflexivity|]. simpl.
    intros [Hc Hrest]%orb_false_elim. rewrite (IH Hrest).
    apply orb_false_elim in Hc as [Hmarkup Hamp]. unfold isMarkup in Hmarkup.
    apply orb_false_elim in Hmarkup as [Hmarkup Hsq].
    apply orb_false_elim in Hmarkup as [Hmarkup Hdq].
    apply orb_false_elim in Hmarkup as [Hlt Hgt].
    now rewrite Hamp, Hlt, Hgt, Hdq, Hsq.
  - induction text as [|c text IH]; intros [|d other] Hsame.
    + reflexivity.
    + exfalso. rewrite escapeHtml_cons in Hsame. simpl in Hsame.
      unfold escapeChar in Hsame.
      repeat (destruct (Ascii.eqb d _); [discriminate|]). discriminate.
    + exfalso. rewrite escapeHtml_cons in Hsame. simpl in Hsame.
      unfold escapeChar in Hsame.
      repeat (destruct (Ascii.eqb c _); [discriminate|]). discriminate.
    + rewrite !escapeHtml_cons in Hsame.
      apply escapeChar_inj in Hsame as [-> Hrest]. f_equal. now apply IH.
Qed.

(** ** Values the presenter always presents *)

Section Total.

Context {number : Type}.
Variable Number_toString : number -> string.
Variable Number_toBoolean : number -> bool.
Variable Number_ofNat : nat -> number.

Local Abbreviation present := (getMimeBundle Number_toString Number_toBoolean Number_ofNat).
Local Abbreviation custom := (getCustomMimeBundle Number_toString Number_toBoolean).

Definition isPrimitive (value : any (number := number)) : bool :=
  match value with
  | VObject _ => false
  | _ => true
  end.

(** A string the presenter takes for markup. *)
Definition looksLikeHtml (value : any (number := number)) : bool :=
  match value with
  | VString text => Js.startsWith (Js.trim text) "<" && Js.endsWith (Js.trim text) ">"
  | _ => false
  end.

(** X12.  Every primitive value ([null], [undefined], booleans, numbers,
    strings, symbols, big integers) is presented without a throw, with
    [text/plain]; [text/html] is added exactly for a string that, once
    trimmed, starts with [<] and ends with [>]. *)
Theorem getMimeBundle_primitive (value : any)
    (Hprimitive : isPrimitive value = true) :
  exists bundle,
    present value = Normal bundle
    /\ hasKey bundle "text/plain" = true
    /\ hasKey bundle "text/html" = looksLikeHtml value.
Proof.
  destruct value as [| | | | text | | |o]; try discriminate;
    try (eexists; split; [reflexivity|split; reflexivity]).
  unfold getMimeBundle. simpl. unfold presentString.
  destruct (Js.startsWith (Js.trim text) "<" && Js.endsWith (Js.trim text) ">");
    eexists; split; try reflexivity; split; reflexivity.
Qed.

(** *** Custom output methods that throw *)

(** Reading any property of the object completes, and so does its
    conversion to a string; what its methods do when called is open. *)
Definition readable (o : object (number := number)) : Prop :=
  (forall name, returns (obj_get o name)) /\ returns (obj_toString o).




End Total.

Lemma getMimeBundle_primitive_witness :
  exists bundle,
    getMimeBundle (pretty : Z -> string) (fun z => negb (Z.eqb z 0)) Z.of_nat
      (VString " <b>hi</b> ") = Normal bundle
    /\ hasKey bundle "text/plain" = true
    /\ hasKey bundle "text/html" = true.
Proof.
  exact (getMimeBundle_primitive (pretty : Z -> string) (fun z => negb (Z.eqb z 0)) Z.of_nat
           (VString " <b>hi</b> ") eq_refl).
Defined.

(** An object built from a property table whose entries are all plain
    values (no throwing getter) can be read at every name. *)
Lemma mkObject_readable {number : Type} (cls : class (number := number)) props toStr :
  Forall (fun p => returns p.2) props -> returns toStr ->
  readable (mkObject cls props toStr).
Proof.
  intros Hall HtoStr. split; [|exact HtoStr].
  intros name. unfold mkObject, obj_get.
  induction Hall as [|p rest Hp _ IH]; cbn [find].
  - now eexists.
  - destruct (String.eqb p.1 name); [exact Hp | exact IH].
Qed.

(** An object whose [_toHtml] method throws and whose [_toSvg] method
    returns markup. *)
Definition halfBroken : object (number := Z) :=
  mkObject Plain
    [("_toHtml", method (Throw (UserThrown "boom")));
     ("_toSvg", method (Normal (VString "<svg/>")))]
    (Normal "[object Object]").

(** *** What the custom output methods contribute *)

Section Hooks.

Context {number : Type}.
Variable Number_toString : number -> string.
Variable Number_toBoolean : number -> bool.
Variable Number_ofNat : nat -> number.

Local Abbreviation present := (getMimeBundle Number_toString Number_toBoolean Number_ofNat).
Local Abbreviation custom := (getCustomMimeBundle Number_toString Number_toBoolean).

(** X13.  An object with a [_toMime] method that returns an object: the
    presenter hands back what the method returned, as it is, whatever
    the class of the object and whatever its other output methods do;
    nothing is added to it, [text/plain] included. *)
Theorem getMimeBundle_toMime_verbatim (o : object (number := number)) (mimeResult : any)
    (Hobject : typeof (VObject o) = "object")
    (Hcall : callMethod o "_toMime" = Normal mimeResult)
    (Htruthy : ToBoolean Number_toBoolean mimeResult = true)
    (Htype : typeof mimeResult = "object") :
  present (VObject o) = Normal mimeResult.
Proof.
  assert (Hprobe : probeToMime Number_toBoolean o = Normal (Some mimeResult)).
  { unfold probeToMime. unfold callMethod in Hcall.
    destruct (obj_get o "_toMime") as [f|e] eqn:Hget; [|discriminate]. simpl in Hcall |- *.
    assert (Hf : typeof f = "function").
    { destruct f as [| | | | | | |[cls get has keys toStr]]; try discriminate.
      destruct cls; try discriminate. reflexivity. }
    rewrite Hf. simpl. unfold callMethod. rewrite Hget. simpl. rewrite Hcall. simpl.
    now rewrite Htruthy, Htype. }
  unfold getMimeBundle. rewrite Hobject. simpl.
  unfold getCustomMimeBundle. rewrite Hprobe. reflexivity.
Qed.

(** The rich-output methods and the media type each one fills. *)
Definition hooks : list (string * string) :=
  [("_toHtml", "text/html"); ("_toSvg", "image/svg+xml"); ("_toPng", "image/png");
   ("_toJpeg", "image/jpeg"); ("_toMarkdown", "text/markdown"); ("_toLatex", "text/latex")].

(** What a method contributes: the string it returned, when the
    property is a function and calling it returned a string. *)
Definition hookOutput (o : object (number := number)) (method : string) : option any :=
  match obj_get o method with
  | Normal f =>
      if String.eqb (typeof f) "function" then
        match callMethod o method with
        | Normal r => if String.eqb (typeof r) "string" then Some r else None
        | Throw _ => None
        end
      else None
  | Throw _ => None
  end.

Definition hookEntries (o : object (number := number)) : list (string * any) :=
  omap (fun hook : string * string => r ← hookOutput o hook.1; Some (hook.2, r)) hooks.

Lemma probeHook_output o method mime acc :
  returns (obj_get o method) ->
  probeHook o method mime acc
  = Normal (match hookOutput o method with
            | Some r => ((acc.1 ++ [(mime, r)])%list, true)
            | None => acc
            end).
Proof.
  intros [f Hf]. unfold probeHook, hookOutput. rewrite Hf. simpl.
  destruct (String.eqb (typeof f) "function"); [|reflexivity].
  unfold try_or, try_catch, mbind, completion_bind, cbind.
  destruct (callMethod o method) as [r|e]; [|reflexivity].
  now destruct (String.eqb (typeof r) "string").
Qed.

(** X14.  For an object without a usable [_toMime], the custom bundle holds
    the strings its rich-output methods returned, in the fixed order
    [text/html], [image/svg+xml], [image/png], [image/jpeg],
    [text/markdown], [text/latex], and after them [text/plain]; a method
    that throws or returns something else than a string leaves no
    entry; and when no method contributes there is no custom bundle. *)
Theorem getCustomMimeBundle_entries (o : object (number := number))
    (Hreadable : readable o)
    (HnoMime : probeToMime Number_toBoolean o = Normal None) :
  custom o
  = match hookEntries o with
    | [] => Normal None
    | entries =>
        plain ← customTextPlain Number_toString o;
        Normal (Some (objectLiteral (entries ++ [("text/plain", plain)])%list))
    end.
Proof.
  destruct Hreadable as [Hget _].
  unfold getCustomMimeBundle. rewrite HnoMime. simpl.
  rewrite (probeHook_output o "_toHtml") by apply Hget. simpl.
  rewrite (probeHook_output o "_toSvg") by apply Hget. simpl.
  rewrite (probeHook_output o "_toPng") by apply Hget. simpl.
  rewrite (probeHook_output o "_toJpeg") by apply Hget. simpl.
  rewrite (probeHook_output o "_toMarkdown") by apply Hget. simpl.
  rewrite (probeHook_output o "_toLatex") by apply Hget. simpl.
  assert (Hentries :
    hookEntries o
    = (from_option (fun r => [("text/html", r)]) [] (hookOutput o "_toHtml")
       ++ from_option (fun r => [("image/svg+xml", r)]) [] (hookOutput o "_toSvg")
       ++ from_option (fun r => [("image/png", r)]) [] (hookOutput o "_toPng")
       ++ from_option (fun r => [("image/jpeg", r)]) [] (hookOutput o "_toJpeg")
       ++ from_option (fun r => [("text/markdown", r)]) [] (hookOutput o "_toMarkdown")
       ++ from_option (fun r => [("text/latex", r)]) [] (hookOutput o "_toLatex"))%list).
  { unfold hookEntries, hooks.
    cbn [omap list_omap fst snd mbind option_bind].
    destruct (hookOutput o "_toHtml"), (hookOutput o "_toSvg"), (hookOutput o "_toPng"),
      (hookOutput o "_toJpeg"), (hookOutput o "_toMarkdown"), (hookOutput o "_toLatex");
      reflexivity. }
  rewrite Hentries.
  destruct (hookOutput o "_toHtml"), (hookOutput o "_toSvg"), (hookOutput o "_toPng"),
    (hookOutput o "_toJpeg"), (hookOutput o "_toMarkdown"), (hookOutput o "_toLatex");
    reflexivity.
Qed.



End Hooks.

(** An error object with a [_toMime] method. *)
Definition errorWithToMime : object (number := Z) :=
  mkObject ErrorObject
    [("_toHtml", method (Normal (VString "<i>unused</i>")));
     ("_toMime", method (Normal (objectLiteral [("text/html", VString "<b>x</b>")])))]
    (Normal "Error: x").

Lemma getMimeBundle_toMime_verbatim_witness :
  getMimeBundle (pretty : Z -> string) (fun z => negb (Z.eqb z 0)) Z.of_nat
    (VObject errorWithToMime)
  = Normal (objectLiteral [("text/html", VString "<b>x</b>")]).
Proof.
  exact (getMimeBundle_toMime_verbatim (pretty : Z -> string) (fun z => negb (Z.eqb z 0))
           Z.of_nat errorWithToMime (objectLiteral [("text/html", VString "<b>x</b>")])
           eq_refl eq_refl eq_refl eq_refl).
Defined.

Lemma halfBroken_readable : readable halfBroken.
Proof.
  apply mkObject_readable; [|now eexists]. repeat constructor; now eexists.
Defined.

Lemma getCustomMimeBundle_entries_witness :
  getCustomMimeBundle (pretty : Z -> string) (fun z => negb (Z.eqb z 0)) halfBroken
  = Normal (Some (objectLiteral [("image/svg+xml", VString "<svg/>");
                                 ("text/plain", VString "[object Object]")])).
Proof.
  exact (getCustomMimeBundle_entries (pretty : Z -> string) (fun z => negb (Z.eqb z 0))
           halfBroken halfBroken_readable eq_refl).
Defined.




End PresenterFacts.

(** * display.ts: sequences of display calls *)

Module DisplayFacts.
Import Display.

Section Sequences.

Context {any World : Type}.
Variable ofString : string -> any.
Variable JSON_stringify : any -> completion any.

Local Abbreviation produced := (produced ofString JSON_stringify).
Local Abbreviation invoke := (invoke (World := World) ofString JSON_stringify).

(** Display calls made one after the other on the same helper; a throw
    ends the sequence. *)
Fixpoint invokeAll (calls : list (call * option (gmap string any)))
    (h : DisplayHelper) (w : World) : completion (DisplayHelper * World) :=
  match calls with
  | [] => Normal (h, w)
  | (c, meta) :: rest =>
      next ← invoke c meta h w;
      invokeAll rest next.1 next.2
  end.

(** What the host is handed for a call that produced [bundle]. *)
Definition displayDataOf (h : DisplayHelper (any := any) (World := World))
    (bundle : IMimeBundle) (meta : option (gmap string any)) : IDisplayData :=
  {| data := bundle; metadata := default ∅ meta; transient := transientOf h |}.

Lemma invokeAll_stores calls bundles h w :
  cmapM (fun c => produced c.1) calls = Normal bundles ->
  _displayCallback h = None ->
  exists h',
    invokeAll calls h w = Normal (h', w)
    /\ getResult h' = from_option Some (getResult h) (last bundles)
    /\ _displayCallback h' = None
    /\ _clearCallback h' = _clearCallback h
    /\ _displayId h' = _displayId h.
Proof.
  revert bundles h. induction calls as [|[c meta] calls IH]; intros bundles h; simpl.
  - intros [= <-] Hnone. exists h. auto.
  - destruct (produced c) as [b|e] eqn:Hc; simpl; [|discriminate].
    destruct (cmapM (fun c => produced c.1) calls) as [bs|e] eqn:Hcalls; simpl;
      [|discriminate].
    intros [= <-] Hnone.
    rewrite invoke_sendDisplay, Hc. simpl. unfold _sendDisplay. rewrite Hnone. simpl.
    destruct (IH bs {| _displayCallback := None;
                       _clearCallback := _clearCallback h;
                       _displayId := _displayId h;
                       _result := Some b |} eq_refl eq_refl)
      as (h' & Hrun & Hresult & Hcb & Hclear & Hid).
    exists h'. split; [exact Hrun|]. split; [|auto].
    rewrite Hresult, last_cons. cbn [getResult _result].
    now destruct (last bs).
Qed.

(** X16.  Without a display callback a sequence of display calls never
    reaches the host, and the stored result is the bundle of the last
    call: each call overwrites what the one before stored. *)
Theorem invokeAll_last_wins (calls : list (call * option (gmap string any)))
    (bundles : list IMimeBundle) (h : DisplayHelper) (w : World)
    (Hproduced : cmapM (fun c => produced c.1) calls = Normal bundles)
    (Hnone : _displayCallback h = None) :
  exists h',
    invokeAll calls h w = Normal (h', w)
    /\ getResult h' = from_option Some (getResult h) (last bundles).
Proof.
  destruct (invokeAll_stores calls bundles h w Hproduced Hnone) as (h' & Hrun & Hresult & _).
  eauto.
Qed.

(** X17.  The helper that [display(id)] returns is detached from the one it
    was asked of: whatever callbacks the parent has, display calls on
    the child never reach the host, they only store their bundle in the
    child, and [clear] on the child does nothing. *)
Theorem display_child_detached (id : option string) (parent : DisplayHelper)
    (calls : list (call * option (gmap string any))) (bundles : list IMimeBundle)
    (wait : option bool) (w : World)
    (Hproduced : cmapM (fun c => produced c.1) calls = Normal bundles) :
  exists child,
    invokeAll calls (display id parent) w = Normal (child, w)
    /\ getResult child = last bundles
    /\ clear wait child w = w.
Proof.
  destruct (invokeAll_stores calls bundles (display id parent) w Hproduced eq_refl)
    as (child & Hrun & Hresult & _ & Hclear & _).
  exists child. split; [exact Hrun|]. split.
  - rewrite Hresult. simpl. now destruct (last bundles).
  - unfold clear. now rewrite Hclear.
Qed.

(** X18.  With a display callback every call of a sequence is handed to the
    callback once, in call order, with its own metadata and the
    helper's display id; the helper itself, stored result included,
    stays as it was. *)
Theorem invokeAll_forwards_in_order (calls : list (call * option (gmap string any)))
    (bundles : list IMimeBundle) (h : DisplayHelper) (w : World)
    (callback : IDisplayData -> World -> World)
    (Hproduced : cmapM (fun c => produced c.1) calls = Normal bundles)
    (Hcallback : _displayCallback h = Some callback) :
  invokeAll calls h w
  = Normal (h, fold_left (fun w d => callback d w)
                 (zip_with (fun b c => displayDataOf h b c.2) bundles calls) w).
Proof.
  revert bundles w Hproduced. induction calls as [|[c meta] calls IH]; intros bundles w; simpl.
  - now intros [= <-].
  - destruct (produced c) as [b|e] eqn:Hc; simpl; [|discriminate].
    destruct (cmapM (fun c => produced c.1) calls) as [bs|e] eqn:Hcalls; simpl;
      [|discriminate].
    intros [= <-].
    rewrite invoke_sendDisplay, Hc. simpl.
    rewrite (sendDisplay_callback b meta h w callback Hcallback). simpl.
    now rewrite (IH bs _ eq_refl).
Qed.

End Sequences.

(** Two calls on a fresh helper, with string payloads. *)
Lemma invokeAll_last_wins_witness :
  let stringify := fun s : string => Normal ("<" +:+ s +:+ ">") in
  let h := new (World := list string) None in
  exists h',
    invokeAll id stringify [(Html "<b>1</b>", None); (Text "two", None)] h [] = Normal (h', [])
    /\ getResult h' = Some (text_bundle id "two").
Proof.
  intros stringify h.
  exact (invokeAll_last_wins id stringify [(Html "<b>1</b>", None); (Text "two", None)]
           [html_bundle id "<b>1</b>"; text_bundle id "two"] h [] eq_refl eq_refl).
Defined.

(** A host that logs the [text/plain] entry of what it is handed. *)
Definition logPlain (d : IDisplayData (any := string)) (w : list string) : list string :=
  (w ++ [default "" (data d !! "text/plain")])%list.

(** A child of a helper with callbacks. *)
Lemma display_child_detached_witness :
  let stringify := fun s : string => Normal ("<" +:+ s +:+ ">") in
  let parent :=
    setCallbacks {| onDisplay := Some logPlain; onClear := Some (fun _ _ => []) |}
      (new None) in
  exists child,
    invokeAll id stringify [(Text "two", None)] (display (Some "my-id") parent) ["shown"]
    = Normal (child, ["shown"])
    /\ getResult child = Some (text_bundle id "two")
    /\ clear None child ["shown"] = ["shown"].
Proof.
  intros stringify parent.
  exact (display_child_detached id stringify (Some "my-id") parent [(Text "two", None)]
           [text_bundle id "two"] None ["shown"] eq_refl).
Defined.

(** Two calls on a helper with a callback. *)
Lemma invokeAll_forwards_in_order_witness :
  let stringify := fun s : string => Normal ("<" +:+ s +:+ ">") in
  let h := setCallbacks {| onDisplay := Some logPlain; onClear := None |} (new None) in
  invokeAll id stringify [(Text "one", None); (Json "x", None)] h []
  = Normal (h, ["one"; "<x>"]).
Proof.
  intros stringify h.
  exact (invokeAll_forwards_in_order id stringify [(Text "one", None); (Json "x", None)]
           [text_bundle id "one"; json_bundle "x" "<x>"] h [] logPlain eq_refl eq_refl).
Defined.

End DisplayFacts.

(** * executor.ts: which names a completion offers *)

Module CompletionFacts.
Import Completion.

(** [seen] holds exactly the names pushed to [matches]. *)
Definition tracked (acc : Collected) : Prop :=
  forall x, x ∈ seen acc <-> x ∈ matches acc.

Lemma addIf_elem test acc prop :
  tracked acc ->
  tracked (addIf test acc prop)
  /\ forall x, x ∈ matches (addIf test acc prop)
               <-> x ∈ matches acc \/ (x = prop /\ test prop = true).
Proof.
  intros Htracked. unfold addIf.
  destruct (bool_decide (prop ∉ seen acc)) eqn:Hfresh; simpl.
  - destruct (test prop) eqn:Htest; simpl.
    + split.
      * intros x. simpl. rewrite elem_of_union, elem_of_singleton, elem_of_app,
          list_elem_of_singleton, (Htracked x). tauto.
      * intros x. rewrite elem_of_app, list_elem_of_singleton. tauto.
    + split; [exact Htracked|]. intros x. split; [tauto|]. intros [H|[_ H]]; [exact H|discriminate].
  - apply bool_decide_eq_false in Hfresh.
    split; [exact Htracked|]. intros x. split; [tauto|].
    intros [H|[-> _]]; [exact H|]. apply Htracked.
    destruct (decide (prop ∈ seen acc)); [assumption|contradiction].
Qed.

Lemma fold_addIf_elem test props acc :
  tracked acc ->
  tracked (fold_left (addIf test) props acc)
  /\ forall x, x ∈ matches (fold_left (addIf test) props acc)
               <-> x ∈ matches acc \/ (x ∈ props /\ test x = true).
Proof.
  revert acc. induction props as [|prop props IH]; intros acc Htracked; simpl.
  - split; [exact Htracked|]. intros x. rewrite elem_of_nil. tauto.
  - destruct (addIf_elem test acc prop Htracked) as [Hstep Helem].
    destruct (IH _ Hstep) as [Hrest Hfold].
    split; [exact Hrest|]. intros x. rewrite Hfold, Helem, elem_of_cons.
    split.
    + intros [[H|[-> H]]|[H1 H2]]; auto.
    + intros [H|[[->|H1] H2]]; auto.
Qed.

(** The names one object of the chain offers to the first walk, and to
    the second. *)
Definition offersExact (prefix : string) (current : Level) (x : string) : Prop :=
  exists ownProps,
    ownPropertyNames current = Normal ownProps
    /\ (x ∈ ownProps \/ x ∈ forInKeys current)
    /\ Js.startsWith x prefix = true.

Definition offersCaseInsensitive (prefix : string) (current : Level) (x : string) : Prop :=
  exists ownProps,
    ownPropertyNames current = Normal ownProps
    /\ x ∈ ownProps
    /\ isCaseInsensitiveOnly prefix x = true.

Lemma exactPass_elem prefix obj acc :
  tracked acc ->
  tracked (fold_left (exactPass prefix) obj acc)
  /\ forall x, x ∈ matches (fold_left (exactPass prefix) obj acc)
               <-> x ∈ matches acc
                   \/ exists current, current ∈ obj /\ offersExact prefix current x.
Proof.
  revert acc. induction obj as [|current obj IH]; intros acc Htracked; simpl.
  - split; [exact Htracked|]. intros x. split; [tauto|].
    intros [H|(current & Hin & _)]; [exact H|]. now apply elem_of_nil in Hin.
  - assert (Hstep : tracked (exactPass prefix acc current)
              /\ forall x, x ∈ matches (exactPass prefix acc current)
                           <-> x ∈ matches acc \/ offersExact prefix current x).
    { unfold exactPass, offersExact.
      destruct (ownPropertyNames current) as [ownProps|e].
      - unfold addMatching.
        destruct (fold_addIf_elem (isExact prefix) ownProps acc Htracked) as [Hown Hown'].
        destruct (fold_addIf_elem (isExact prefix) (forInKeys current) _ Hown)
          as [Hkeys Hkeys'].
        split; [exact Hkeys|]. intros x. rewrite Hkeys', Hown'. unfold isExact.
        split.
        + intros [[H|[H1 H2]]|[H1 H2]]; eauto 8.
        + intros [H|(props & Heq & [H1|H1] & H2)]; auto.
          injection Heq as <-. auto.
      - split; [exact Htracked|]. intros x. split; [tauto|].
        intros [H|(props & Heq & _)]; [exact H|discriminate]. }
    destruct Hstep as [Hstep Helem]. destruct (IH _ Hstep) as [Hrest Hfold].
    split; [exact Hrest|]. intros x. rewrite Hfold, Helem. split.
    + intros [[H|H]|(level & Hin & H)]; auto.
      * right. exists current. split; [apply elem_of_cons; now left|exact H].
      * right. exists level. split; [apply elem_of_cons; now right|exact H].
    + intros [H|(level & Hin & H)]; auto.
      apply elem_of_cons in Hin as [->|Hin]; eauto.
Qed.

Lemma caseInsensitivePass_elem prefix obj acc :
  tracked acc ->
  forall x, x ∈ matches (fold_left (caseInsensitivePass prefix) obj acc)
            <-> x ∈ matches acc
                \/ exists current, current ∈ obj /\ offersCaseInsensitive prefix current x.
Proof.
  revert acc. induction obj as [|current obj IH]; intros acc Htracked; simpl.
  - intros x. split; [tauto|].
    intros [H|(current & Hin & _)]; [exact H|]. now apply elem_of_nil in Hin.
  - assert (Hstep : tracked (caseInsensitivePass prefix acc current)
              /\ forall x, x ∈ matches (caseInsensitivePass prefix acc current)
                           <-> x ∈ matches acc \/ offersCaseInsensitive prefix current x).
    { unfold caseInsensitivePass, offersCaseInsensitive.
      destruct (ownPropertyNames current) as [ownProps|e].
      - unfold addCaseInsensitive.
        destruct (fold_addIf_elem (isCaseInsensitiveOnly prefix) ownProps acc Htracked)
          as [Hown Hown'].
        split; [exact Hown|]. intros x. rewrite Hown'. split.
        + intros [H|[H1 H2]]; eauto 8.
        + intros [H|(props & Heq & H1 & H2)]; auto. injection Heq as <-. auto.
      - split; [exact Htracked|]. intros x. split; [tauto|].
        intros [H|(props & Heq & _)]; [exact H|discriminate]. }
    destruct Hstep as [Hstep Helem]. intros x. rewrite (IH _ Hstep), Helem. split.
    + intros [[H|H]|(level & Hin & H)]; auto.
      * right. exists current. split; [apply elem_of_cons; now left|exact H].
      * right. exists level. split; [apply elem_of_cons; now right|exact H].
    + intros [H|(level & Hin & H)]; auto.
      apply elem_of_cons in Hin as [->|Hin]; eauto.
Qed.

Lemma collect_elem obj prefix x :
  x ∈ matches (collect obj prefix)
  <-> exists current,
        current ∈ obj
        /\ (offersExact prefix current x \/ offersCaseInsensitive prefix current x).
Proof.
  unfold collect.
  assert (Hempty : tracked {| seen := ∅; matches := [] |}).
  { intros y. simpl. rewrite elem_of_nil. set_solver. }
  destruct (exactPass_elem prefix obj _ Hempty) as [Hfirst Hexact].
  rewrite (caseInsensitivePass_elem prefix obj _ Hfirst), Hexact. simpl.
  rewrite elem_of_nil. split.
  - intros [[[]|(current & Hin & H)]|(current & Hin & H)]; eauto.
  - intros (current & Hin & [H|H]); eauto.
Qed.

(** X19.  A name is offered exactly when some object of the prototype chain
    whose own property names can be listed has it as an own property or
    a [for...in] key starting with the prefix, or as an own property
    that starts with the prefix only when case is ignored.  An object
    whose [Object.getOwnPropertyNames] throws contributes nothing, its
    [for...in] keys included, and the walk goes on above it. *)
Theorem getAllProperties_offers (localeCompare : string -> string -> Z)
    (obj : Chain) (prefix x : string) :
  x ∈ getAllProperties localeCompare obj prefix
  <-> exists current ownProps,
        current ∈ obj
        /\ ownPropertyNames current = Normal ownProps
        /\ ((x ∈ ownProps \/ x ∈ forInKeys current) /\ Js.startsWith x prefix = true
            \/ x ∈ ownProps /\ isCaseInsensitiveOnly prefix x = true).
Proof.
  unfold getAllProperties. rewrite (sort_perm (compareMatches localeCompare prefix)).
  rewrite collect_elem. unfold offersExact, offersCaseInsensitive. split.
  - intros (current & Hin & [(props & Heq & H1 & H2)|(props & Heq & H1 & H2)]);
      exists current, props; auto.
  - intros (current & props & Hin & Heq & [[H1 H2]|[H1 H2]]); exists current; eauto 8.
Qed.

End CompletionFacts.

(** * executor.ts and kernel.ts: completion at the cursor *)

Module LineCompletion.
Import StringFacts.

Definition stopChars : string := " {}()=+-*/%&|^~<>,:;!?@#".
Definition expStopChars : string := ".]".

(** [chars.includes(s[i])] for an index [i] within [s]. *)
Definition includesChar (chars : string) (c : ascii) : bool :=
  existsb (Ascii.eqb c) (list_ascii_of_string chars).

(** The loop [for (let i = n - 1; i >= 0; i--)] that breaks at the
    first index whose character is one of [chars].  An index outside
    the string reads [undefined], which [includes] does not find. *)
Fixpoint lastIndexIn (chars s : string) (n : nat) : option nat :=
  match n with
  | 0 => None
  | S i =>
      match Js.charAt s i with
      | Some c => if includesChar chars c then Some i else lastIndexIn chars s i
      | None => lastIndexIn chars s i
      end
  end.

Record ICompletionResult : Type := {
  matches : list string;
  cursorStart : nat;
  cursorEnd : option nat;
  status : option string
}.

Section Requests.

Variable localeCompare : string -> string -> Z.

(** [this.globalScope], as reflection shows it. *)
Variable globalScope : Completion.Chain.

(** The function built from the text [with(scope) { return <text>; }],
    applied to the global scope: the prototype chain of the value it
    returns (empty for [null] and [undefined]), or what building or
    calling it throws. *)
Variable evalRoot : string -> completion Completion.Chain.

(** [completeLine(codeLine)] *)
Definition completeLine (codeLine : string) : ICompletionResult :=
  let codeBegin :=
    match lastIndexIn stopChars codeLine (String.length codeLine) with
    | Some i => i + 1
    | None => 0
    end in
  let pseudoExpression := Js.substringFrom codeLine codeBegin in
  let found :=
    lastIndexIn expStopChars pseudoExpression (String.length pseudoExpression) in
  let rootObjectStr :=
    match found with
    | Some splitPos => Js.substring pseudoExpression 0 splitPos
    | None => ""
    end in
  let toMatch :=
    match found with
    | Some splitPos => Js.substringFrom pseudoExpression (splitPos + 1)
    | None => pseudoExpression
    end in
  let cursorStart :=
    match found with
    | Some splitPos => codeBegin + (splitPos + 1)
    | None => codeBegin
    end in
  let rootObject :=
    if String.eqb rootObjectStr "" then Normal globalScope else evalRoot rootObjectStr in
  match rootObject with
  | Throw _ =>
      {| matches := []; cursorStart := cursorStart; cursorEnd := None;
         status := Some "error" |}
  | Normal rootObject =>
      {| matches := Completion.getAllProperties localeCompare rootObject toMatch;
         cursorStart := cursorStart; cursorEnd := None; status := None |}
  end.

(** The loop of [completeRequest] over the lines: the index of the
    first line that holds the cursor, the cursor's offset in it and the
    offset of the line; [(0, 0, lineBegin)] when no line holds it. *)
Fixpoint locate (lines : list string) (cursorPos i lineBegin : nat) : nat * nat * nat :=
  match lines with
  | [] => (0, 0, lineBegin)
  | line :: rest =>
      if (lineBegin <=? cursorPos)%nat && (cursorPos <=? lineBegin + String.length line)%nat
      then (i, cursorPos - lineBegin, lineBegin)
      else locate rest cursorPos (S i) (lineBegin + String.length line + 1)
  end.

(** [completeRequest(code, cursorPos)] *)
Definition completeRequest (code : string) (cursorPos : nat) : completion ICompletionResult :=
  let lines := Js.split "010" code in
  let '(lineIndex, cursorPosInLine, lineBegin) := locate lines cursorPos 0 0 in
  match lines !! lineIndex with
  | None => Throw (TypeError "Cannot read properties of undefined (reading 'length')")
  | Some codeLine =>
      if negb (cursorPosInLine =? String.length codeLine)%nat
      then Normal {| matches := []; cursorStart := cursorPos; cursorEnd := Some cursorPos;
                     status := None |}
      else
        let lineRes := completeLine codeLine in
        Normal {| matches := matches lineRes;
                  cursorStart := lineBegin + cursorStart lineRes;
                  cursorEnd := Some cursorPos;
                  status := Some (default "ok" (status lineRes)) |}
  end.

(** The reply of the kernel to a [complete_request]. *)
Record ICompleteReply : Type := {
  reply_matches : list string;
  cursor_start : nat;
  cursor_end : nat;
  reply_status : string
}.

(** [JavaScriptKernel.completeRequest(content)]; [executor] tells
    whether [this._executor] is set. *)
Definition kernelCompleteRequest (executor : bool) (code : string) (cursor_pos : nat)
    : completion ICompleteReply :=
  if negb executor
  then Normal {| reply_matches := []; cursor_start := cursor_pos; cursor_end := cursor_pos;
                 reply_status := "ok" |}
  else
    result ← completeRequest code cursor_pos;
    Normal {| reply_matches := matches result;
              cursor_start := cursorStart result;
              cursor_end := match cursorEnd result with
                            | Some (S n) => S n
                            | _ => cursor_pos
                            end;
              reply_status := "ok" |}.

(** ** The completed word *)

Lemma lastIndexIn_Some chars s n i :
  lastIndexIn chars s n = Some i ->
  i < n
  /\ (exists c, Js.charAt s i = Some c /\ includesChar chars c = true)
  /\ forall j c, i < j < n -> Js.charAt s j = Some c -> includesChar chars c = false.
Proof.
  induction n as [|n IH]; simpl; [discriminate|].
  destruct (Js.charAt s n) as [c|] eqn:Hc.
  - destruct (includesChar chars c) eqn:Hin.
    + intros [= <-]. split; [lia|]. split; [eauto|]. intros j c' Hj. lia.
    + intros Hi. destruct (IH Hi) as (Hlt & Hfound & Hafter).
      split; [lia|]. split; [exact Hfound|].
      intros j c' Hj Hc'. destruct (decide (j = n)) as [->|Hne].
      * congruence.
      * apply (Hafter j); [lia|exact Hc'].
  - intros Hi. destruct (IH Hi) as (Hlt & Hfound & Hafter).
    split; [lia|]. split; [exact Hfound|].
    intros j c' Hj Hc'. destruct (decide (j = n)) as [->|Hne].
    + congruence.
    + apply (Hafter j); [lia|exact Hc'].
Qed.

Lemma lastIndexIn_None chars s n :
  lastIndexIn chars s n = None ->
  forall j c, j < n -> Js.charAt s j = Some c -> includesChar chars c = false.
Proof.
  induction n as [|n IH]; simpl; [intros _ j c Hj; lia|].
  destruct (Js.charAt s n) as [c|] eqn:Hc.
  - destruct (includesChar chars c) eqn:Hin; [discriminate|].
    intros Hnone j c' Hj Hc'. destruct (decide (j = n)) as [->|Hne].
    + congruence.
    + apply (IH Hnone j); [lia|exact Hc'].
  - intros Hnone j c' Hj Hc'. destruct (decide (j = n)) as [->|Hne].
    + congruence.
    + apply (IH Hnone j); [lia|exact Hc'].
Qed.

Definition isWordChar (c : ascii) : bool :=
  negb (includesChar stopChars c) && negb (includesChar expStopChars c).

Lemma completeLine_matches (codeLine : string) :
  cursorStart (completeLine codeLine) <= String.length codeLine
  /\ Forall (Completion.isMatch (drop (cursorStart (completeLine codeLine)) codeLine))
       (matches (completeLine codeLine)).
Proof.
  assert (Hmatches : forall rootObject toMatch,
            Forall (Completion.isMatch toMatch)
              (Completion.getAllProperties localeCompare rootObject toMatch)).
  { intros rootObject toMatch. unfold Completion.getAllProperties.
    rewrite (Completion.sort_perm (Completion.compareMatches localeCompare _)).
    apply Completion.collect_matches. }
  unfold completeLine.
  set (codeBegin := match lastIndexIn stopChars codeLine (String.length codeLine) with
                    | Some i => i + 1
                    | None => 0
                    end).
  assert (Hbegin : codeBegin <= String.length codeLine).
  { subst codeBegin. destruct (lastIndexIn _ _ _) as [i|] eqn:Hi; [|lia].
    apply lastIndexIn_Some in Hi. lia. }
  rewrite !substringFrom_drop.
  pose proof (length_drop codeBegin codeLine) as Hlen.
  destruct (lastIndexIn expStopChars (drop codeBegin codeLine) _) as [splitPos|] eqn:Hsplit.
  - apply lastIndexIn_Some in Hsplit as (Hlt & _ & _).
    destruct (if String.eqb _ "" then _ else _) as [rootObject|e]; simpl.
    + split; [lia|]. rewrite substringFrom_drop, drop_drop. apply Hmatches.
    + split; [lia|constructor].
  - rewrite String.eqb_refl. simpl. split; [exact Hbegin|apply Hmatches].
Qed.

(** ** The line of the cursor *)

Definition newline : string := String "010" "".

(** The text before a line and after it, and the offset of the line. *)
Definition offsetOf (before : list string) : nat :=
  foldr (fun line n => String.length line + 1 + n) 0 before.

Definition textBefore (before : list string) : string :=
  foldr (fun line text => line +:+ newline +:+ text) "" before.

Definition textAfter (after : list string) : string :=
  match after with
  | [] => ""
  | _ => newline +:+ Js.join newline after
  end.

Lemma length_textBefore before : String.length (textBefore before) = offsetOf before.
Proof.
  induction before as [|line before IH]; simpl; [reflexivity|].
  rewrite !length_app, IH. simpl. lia.
Qed.

Lemma join_around before line after :
  Js.join newline (before ++ line :: after)%list
  = textBefore before +:+ line +:+ textAfter after.
Proof.
  induction before as [|first before IH].
  - simpl. destruct after; [now rewrite app_nil_r|reflexivity].
  - change ((first :: before) ++ line :: after)%list
      with (first :: (before ++ line :: after))%list.
    rewrite join_cons by (now destruct before). rewrite IH. simpl.
    now rewrite !app_assoc.
Qed.

Lemma locate_found lines cursorPos i lineBegin :
  lines <> [] ->
  lineBegin <= cursorPos <= lineBegin + String.length (Js.join newline lines) ->
  exists before line after,
    lines = (before ++ line :: after)%list
    /\ locate lines cursorPos i lineBegin
       = (i + length before, cursorPos - (lineBegin + offsetOf before),
          lineBegin + offsetOf before)
    /\ lineBegin + offsetOf before <= cursorPos
       <= lineBegin + offsetOf before + String.length line.
Proof.
  revert i lineBegin. induction lines as [|line rest IH]; intros i lineBegin Hne Hcursor;
    [contradiction|].
  simpl locate.
  destruct ((lineBegin <=? cursorPos)%nat && (cursorPos <=? lineBegin + String.length line)%nat)
    eqn:Htest.
  - apply andb_true_iff in Htest as [H1%Nat.leb_le H2%Nat.leb_le].
    exists [], line, rest. simpl. rewrite !Nat.add_0_r. split; [reflexivity|].
    split; [reflexivity|lia].
  - assert (Hpast : lineBegin + String.length line < cursorPos).
    { apply andb_false_iff in Htest as [H%Nat.leb_gt|H%Nat.leb_gt]; lia. }
    destruct rest as [|next rest].
    { simpl in Hcursor. lia. }
    rewrite join_cons in Hcursor by discriminate.
    rewrite !length_app in Hcursor. change (String.length newline) with 1 in Hcursor.
    destruct (IH (S i) (lineBegin + String.length line + 1)) as
      (before & found & after & Heq & Hlocate & Hrange); [discriminate|lia|].
    exists (line :: before), found, after. rewrite Heq. split; [reflexivity|].
    rewrite <- Heq, Hlocate.
    change (offsetOf (line :: before)) with (String.length line + 1 + offsetOf before).
    cbn [length].
    split; [f_equal; [f_equal|]; lia|lia].
Qed.

Lemma locate_index lines cursorPos i lineBegin :
  (locate lines cursorPos i lineBegin).1.1 = 0
  \/ exists k, k < length lines /\ (locate lines cursorPos i lineBegin).1.1 = i + k.
Proof.
  revert i lineBegin. induction lines as [|line rest IH]; intros i lineBegin; simpl;
    [now left|].
  destruct (_ && _); simpl.
  - right. exists 0. split; lia.
  - destruct (IH (S i) (lineBegin + String.length line + 1)) as [H|(k & Hk & H)];
      [now left|right].
    exists (S k). split; lia.
Qed.

Lemma completeRequest_returns (code : string) (cursorPos : nat) :
  exists result,
    completeRequest code cursorPos = Normal result /\ cursorEnd result = Some cursorPos.
Proof.
  unfold completeRequest.
  pose proof (split_nonempty "010" code) as Hne.
  pose proof (locate_index (Js.split "010" code) cursorPos 0 0) as Hindex.
  destruct (locate (Js.split "010" code) cursorPos 0 0) as [[lineIndex cursorPosInLine] lineBegin].
  simpl in Hindex.
  assert (Hline : lineIndex < length (Js.split "010" code)).
  { destruct Hindex as [->|(k & Hk & ->)]; [|exact Hk].
    destruct (Js.split "010" code); [contradiction|simpl; lia]. }
  apply lookup_lt_is_Some_2 in Hline as [line ->].
  destruct (negb _); eexists; split; reflexivity.
Qed.

(** X20.  [completeLine] completes the last word of the line: the text from
    [cursorStart] to the end of the line holds no stop character, no dot
    and no closing bracket, the character before it (if any) is one of
    those, and every match starts with that text, exactly or with case
    ignored. *)
Theorem completeLine_word (codeLine : string) :
  let result := completeLine codeLine in
  let word := Js.substringFrom codeLine (cursorStart result) in
  cursorStart result <= String.length codeLine
  /\ Forall (Completion.isMatch word) (matches result)
  /\ (forall i c, Js.charAt word i = Some c -> isWordChar c = true)
  /\ (cursorStart result = 0
      \/ exists c, Js.charAt codeLine (cursorStart result - 1) = Some c
                   /\ isWordChar c = false).
Proof.
  intros result word. subst result word. rewrite substringFrom_drop.
  unfold completeLine.
  set (codeBegin := match lastIndexIn stopChars codeLine (String.length codeLine) with
                    | Some i => i + 1
                    | None => 0
                    end).
  rewrite !substringFrom_drop.
  set (pseudoExpression := drop codeBegin codeLine).
  assert (Hbegin : codeBegin <= String.length codeLine).
  { subst codeBegin. destruct (lastIndexIn _ _ _) as [i|] eqn:Hi; [|lia].
    apply lastIndexIn_Some in Hi. lia. }
  assert (Hstop : forall j c, Js.charAt pseudoExpression j = Some c ->
                              includesChar stopChars c = false).
  { intros j c. subst pseudoExpression. rewrite charAt_drop. intros Hc.
    assert (Hj : codeBegin + j < String.length codeLine) by (apply charAt_length; eauto).
    subst codeBegin. destruct (lastIndexIn _ _ _) as [i|] eqn:Hi.
    - apply lastIndexIn_Some in Hi as (_ & _ & Hafter). apply (Hafter (i + 1 + j)); [lia|exact Hc].
    - apply (lastIndexIn_None _ _ _ Hi (0 + j)); [lia|exact Hc]. }
  assert (Hbefore : codeBegin = 0
                    \/ exists c, Js.charAt codeLine (codeBegin - 1) = Some c
                                 /\ includesChar stopChars c = true).
  { subst codeBegin. destruct (lastIndexIn _ _ _) as [i|] eqn:Hi; [right|now left].
    apply lastIndexIn_Some in Hi as (_ & Hfound & _).
    now replace (i + 1 - 1) with i by lia. }
  assert (Hlen : String.length pseudoExpression = String.length codeLine - codeBegin)
    by apply length_drop.
  destruct (lastIndexIn expStopChars pseudoExpression (String.length pseudoExpression))
    as [splitPos|] eqn:Hsplit.
  - apply lastIndexIn_Some in Hsplit as (Hlt & (c & Hc & Hexp) & Hafter).
    set (cursor := codeBegin + (splitPos + 1)).
    assert (Hword : drop (splitPos + 1) pseudoExpression = drop cursor codeLine).
    { subst pseudoExpression cursor. now rewrite drop_drop. }
    assert (Hrest :
      cursor <= String.length codeLine
      /\ (forall i c, Js.charAt (drop cursor codeLine) i = Some c -> isWordChar c = true)
      /\ (cursor = 0
          \/ exists c, Js.charAt codeLine (cursor - 1) = Some c /\ isWordChar c = false)).
    { split; [subst cursor; lia|]. split.
      - intros i c' Hc'. rewrite <- Hword, charAt_drop in Hc'. unfold isWordChar.
        rewrite (Hstop _ _ Hc'). rewrite (Hafter (splitPos + 1 + i) c'); [reflexivity| |exact Hc'].
        split; [lia|]. apply charAt_length. eauto.
      - right. exists c. split.
        + subst cursor pseudoExpression. rewrite charAt_drop in Hc.
          now replace (codeBegin + (splitPos + 1) - 1) with (codeBegin + splitPos) by lia.
        + unfold isWordChar. rewrite Hexp. now rewrite andb_false_r. }
    destruct (if String.eqb _ "" then _ else _) as [rootObject|e]; simpl; fold cursor.
    + destruct Hrest as (H1 & H2 & H3). split; [exact H1|]. split; [|split; assumption].
      rewrite substringFrom_drop, Hword. unfold Completion.getAllProperties.
      rewrite (Completion.sort_perm (Completion.compareMatches localeCompare _)).
      apply Completion.collect_matches.
    + destruct Hrest as (H1 & H2 & H3). split; [exact H1|]. split; [constructor|].
      split; assumption.
  - pose proof (lastIndexIn_None _ _ _ Hsplit) as Hnone.
    assert (Hrest :
      (forall i c, Js.charAt pseudoExpression i = Some c -> isWordChar c = true)
      /\ (codeBegin = 0
          \/ exists c, Js.charAt codeLine (codeBegin - 1) = Some c /\ isWordChar c = false)).
    { split.
      - intros i c Hc. unfold isWordChar. rewrite (Hstop _ _ Hc).
        rewrite (Hnone i c); [reflexivity| |exact Hc]. apply charAt_length. eauto.
      - destruct Hbefore as [H|(c & Hc & Hin)]; [now left|right].
        exists c. split; [exact Hc|]. unfold isWordChar. now rewrite Hin. }
    rewrite String.eqb_refl. simpl. destruct Hrest as [H2 H3].
    split; [exact Hbegin|]. split; [|split; assumption].
    unfold Completion.getAllProperties.
    rewrite (Completion.sort_perm (Completion.compareMatches localeCompare _)).
    apply Completion.collect_matches.
Qed.

(** X21.  For a cursor inside the source, [completeRequest] returns a span
    that ends at the cursor and starts at or before it; every match
    starts, exactly or with case ignored, with the source text of that
    span; and a cursor that stands before a character other than a line
    feed gets no match and an empty span. *)
Theorem completeRequest_span (code : string) (cursorPos : nat)
    (Hcursor : cursorPos <= String.length code) :
  exists result,
    completeRequest code cursorPos = Normal result
    /\ cursorEnd result = Some cursorPos
    /\ cursorStart result <= cursorPos
    /\ Forall (Completion.isMatch (Js.substring code (cursorStart result) cursorPos))
         (matches result)
    /\ (forall c, Js.charAt code cursorPos = Some c -> c <> "010"%char ->
                  matches result = [] /\ cursorStart result = cursorPos).
Proof.
  unfold completeRequest.
  pose proof (join_split "010" code) as Hjoin. fold newline in Hjoin.
  destruct (locate_found (Js.split "010" code) cursorPos 0 0 (split_nonempty _ _))
    as (before & line & after & Hlines & Hlocate & Hrange).
  { rewrite Hjoin. lia. }
  rewrite Hlocate, Hlines. simpl in Hrange |- *.
  rewrite list_lookup_middle by reflexivity.
  rewrite Hlines, join_around in Hjoin.
  pose proof (length_textBefore before) as Hoffset.
  destruct (cursorPos - offsetOf before =? String.length line)%nat eqn:Hend; simpl.
  - apply Nat.eqb_eq in Hend.
    destruct (completeLine_matches line) as (Hstart & Hmatches).
    eexists. split; [reflexivity|]. simpl.
    split; [reflexivity|]. split; [lia|].
    assert (Hdrop : forall n, n <= String.length line ->
              drop (offsetOf before + n) code = drop n line +:+ textAfter after).
    { intros n Hn. rewrite <- Hjoin, drop_app_ge by lia.
      rewrite Hoffset. replace (offsetOf before + n - offsetOf before) with n by lia.
      now apply drop_app_le. }
    split.
    + rewrite substring_middle by lia. rewrite Hdrop by exact Hstart.
      replace (cursorPos - (offsetOf before + cursorStart (completeLine line)))
        with (String.length (drop (cursorStart (completeLine line)) line))
        by (rewrite length_drop; lia).
      rewrite take_app_length. exact Hmatches.
    + intros c Hc Hnot. exfalso.
      replace cursorPos with (cursorPos + 0) in Hc by lia.
      rewrite <- charAt_drop in Hc.
      replace cursorPos with (offsetOf before + String.length line) in Hc by lia.
      rewrite Hdrop, drop_all in Hc by lia.
      destruct after; simpl in Hc; [discriminate|]. injection Hc as <-. now apply Hnot.
  - eexists. split; [reflexivity|]. simpl. split; [reflexivity|]. split; [lia|].
    split; [constructor|]. auto.
Qed.

(** X22.  The kernel answers every [complete_request], whatever the cursor
    position and whether or not the executor exists, with status [ok]
    and with [cursor_end] equal to the requested position; a failed
    evaluation of the root object, which the executor reports as status
    [error], is answered with status [ok] as well. *)
Theorem kernelCompleteRequest_ok (executor : bool) (code : string) (cursor_pos : nat) :
  exists reply,
    kernelCompleteRequest executor code cursor_pos = Normal reply
    /\ reply_status reply = "ok"
    /\ cursor_end reply = cursor_pos.
Proof.
  unfold kernelCompleteRequest. destruct executor; simpl.
  - destruct (completeRequest_returns code cursor_pos) as (result & -> & Hend).
    eexists. split; [reflexivity|]. simpl. split; [reflexivity|].
    rewrite Hend. now destruct cursor_pos.
  - eexists. split; [reflexivity|]. split; reflexivity.
Qed.

End Requests.

(** The request at the end of the second line of a two-line source,
    against the example root. *)
Lemma completeRequest_span_witness :
  let code := "x" +:+ newline +:+ "y = ab" in
  exists result,
    completeRequest Completion.codeUnitCompare Completion.exampleRoot
      (fun _ => Throw (UserThrown "ReferenceError")) code 8 = Normal result
    /\ cursorEnd result = Some 8
    /\ cursorStart result <= 8
    /\ Forall (Completion.isMatch (Js.substring code (cursorStart result) 8))
         (matches result)
    /\ (forall c, Js.charAt code 8 = Some c -> c <> "010"%char ->
                  matches result = [] /\ cursorStart result = 8).
Proof.
  intros code.
  apply (completeRequest_span Completion.codeUnitCompare Completion.exampleRoot
           (fun _ => Throw (UserThrown "ReferenceError")) code 8).
  vm_compute. lia.
Defined.

End LineCompletion.

(** * executor.ts: inspection helpers and stack traces *)

Module Inspection.
Import StringFacts.

(** [s.includes(sub)] *)
Fixpoint includes (s sub : string) : bool :=
  Js.startsWith s sub
  || match s with
     | String _ s' => includes s' sub
     | EmptyString => false
     end.

(** [a[i] !== b[i]]: an index outside a string reads [undefined]. *)
Definition differsAt (a b : string) (i : nat) : bool :=
  negb (bool_decide (Js.charAt a i = Js.charAt b i)).

(** The loop of [isSimilar], from index [i] for [steps] rounds. *)
Fixpoint compareFrom (a b : string) (i steps differences : nat) : bool :=
  match steps with
  | 0 => (differences <=? 2)%nat
  | S steps' =>
      if differsAt a b i
      then if (2 <? differences + 1)%nat then false
           else compareFrom a b (S i) steps' (differences + 1)
      else compareFrom a b (S i) steps' differences
  end.

(** [isSimilar(a, b)] *)
Definition isSimilar (a b : string) : bool :=
  let la := String.length a in
  let lb := String.length b in
  if (2 <? (la - lb) + (lb - la))%nat then false
  else compareFrom a b 0 (Nat.max la lb) 0.

(** The test of the loop of [findSimilarNames]. *)
Definition similarTo (lowerExpr prop : string) : bool :=
  let lowerProp := Js.toLowerCase prop in
  includes lowerProp lowerExpr || includes lowerExpr lowerProp || isSimilar lowerExpr lowerProp.

(** The loop of [findSimilarNames], which breaks at five suggestions. *)
Fixpoint suggest (lowerExpr : string) (globalProps suggestions : list string) : list string :=
  match globalProps with
  | [] => suggestions
  | prop :: rest =>
      if similarTo lowerExpr prop
      then let suggestions' := (suggestions ++ [prop])%list in
           if (5 <=? length suggestions')%nat then suggestions'
           else suggest lowerExpr rest suggestions'
      else suggest lowerExpr rest suggestions
  end.

(** [findSimilarNames(expression)]; nothing in its [try] block throws. *)
Definition findSimilarNames (localeCompare : string -> string -> Z)
    (globalScope : Completion.Chain) (expression : string) : list string :=
  suggest (Js.toLowerCase expression)
    (Completion.getAllProperties localeCompare globalScope "") [].

(** The class [\w]. *)
Definition isWord (c : ascii) : bool :=
  let n := nat_of_ascii c in
  (((48 <=? n) && (n <=? 57)) || ((65 <=? n) && (n <=? 90)) || (n =? 95)
   || ((97 <=? n) && (n <=? 122)))%nat.

(** The class [[\w.$]]. *)
Definition isExpressionChar (c : ascii) : bool :=
  isWord c || Ascii.eqb c "." || Ascii.eqb c "$".

Definition allChars (test : ascii -> bool) (s : string) : bool :=
  forallb test (list_ascii_of_string s).

(** What a pattern [[class]+$] matches: the text from the leftmost
    index after which only characters of the class follow; empty when
    there is no match. *)
Fixpoint matchAtEnd (test : ascii -> bool) (s : string) : string :=
  match s with
  | EmptyString => EmptyString
  | String c s' => if allChars test s then s else matchAtEnd test s'
  end.

(** What a pattern [^[class]*] matches. *)
Fixpoint matchAtStart (test : ascii -> bool) (s : string) : string :=
  match s with
  | EmptyString => EmptyString
  | String c s' => if test c then String c (matchAtStart test s') else EmptyString
  end.

(** [extractExpressionAtCursor(code, cursorPos)] *)
Definition extractExpressionAtCursor (code : string) (cursorPos : nat) : option string :=
  let beforeCursor := Js.substring code 0 cursorPos in
  let afterCursor := Js.substringFrom code cursorPos in
  match matchAtEnd isExpressionChar beforeCursor with
  | EmptyString => None
  | beforeMatch => Some (beforeMatch +:+ matchAtStart isWord afterCursor)
  end.

(** ** [isSimilar] *)

(** The number of indices at which two strings differ, the shorter one
    differing from the longer one at every index it lacks. *)
Definition differences (a b : string) : nat :=
  length (List.filter (differsAt a b) (seq 0 (Nat.max (String.length a) (String.length b)))).

Lemma compareFrom_count a b i steps d :
  compareFrom a b i steps d
  = (d + length (List.filter (differsAt a b) (seq i steps)) <=? 2)%nat.
Proof.
  revert i d. induction steps as [|steps IH]; intros i d; simpl.
  - now rewrite Nat.add_0_r.
  - destruct (differsAt a b i); simpl.
    + destruct (Nat.ltb_spec 2 (d + 1)) as [Hmany|Hfew].
      * symmetry. apply Nat.leb_gt. lia.
      * rewrite IH. f_equal. lia.
    + apply IH.
Qed.

Lemma differsAt_sym a b i : differsAt a b i = differsAt b a i.
Proof.
  unfold differsAt. f_equal. apply bool_decide_ext. split; congruence.
Qed.

Lemma differsAt_refl a i : differsAt a a i = false.
Proof. unfold differsAt. now rewrite bool_decide_eq_true_2. Qed.

Lemma differsAt_beyond a b i :
  Nat.min (String.length a) (String.length b) <= i
  < Nat.max (String.length a) (String.length b) ->
  differsAt a b i = true.
Proof.
  intros Hi. unfold differsAt. apply negb_true_iff, bool_decide_eq_false. intros Heq.
  destruct (Nat.le_ge_cases (String.length a) (String.length b)) as [Hle|Hle].
  - rewrite (charAt_None a i) in Heq by lia.
    assert (Hb : i < String.length b) by lia.
    apply charAt_length in Hb as [c Hc]. congruence.
  - rewrite (charAt_None b i) in Heq by lia.
    assert (Ha : i < String.length a) by lia.
    apply charAt_length in Ha as [c Hc]. congruence.
Qed.

Lemma filter_ext_seq (f g : nat -> bool) i n :
  (forall j, i <= j < i + n -> f j = g j) ->
  List.filter f (seq i n) = List.filter g (seq i n).
Proof.
  revert i. induction n as [|n IH]; intros i Hfg; simpl; [reflexivity|].
  rewrite (Hfg i) by lia. rewrite (IH (S i)); [reflexivity|]. intros j Hj. apply Hfg. lia.
Qed.

Lemma differences_lengths a b :
  (String.length a - String.length b) + (String.length b - String.length a)
  <= differences a b.
Proof.
  unfold differences.
  set (lo := Nat.min (String.length a) (String.length b)).
  set (hi := Nat.max (String.length a) (String.length b)).
  replace hi with (lo + (hi - lo)) by lia.
  rewrite seq_app, List.filter_app, List.length_app. simpl.
  rewrite (filter_ext_seq (differsAt a b) (fun _ => true) lo (hi - lo)).
  - assert (Hall : forall i n, List.filter (fun _ : nat => true) (seq i n) = seq i n).
    { intros i n. revert i. induction n as [|n IH]; intros i; simpl; [reflexivity|].
      now rewrite IH. }
    rewrite Hall, length_seq. lia.
  - intros j Hj. apply differsAt_beyond. lia.
Qed.

Lemma isSimilar_count a b : isSimilar a b = (differences a b <=? 2)%nat.
Proof.
  unfold isSimilar. pose proof (differences_lengths a b) as Hlen.
  destruct (Nat.ltb_spec 2 (String.length a - String.length b
                            + (String.length b - String.length a))) as [Hfar|Hnear].
  - symmetry. apply Nat.leb_gt. lia.
  - rewrite compareFrom_count. reflexivity.
Qed.

(** X23.  [isSimilar] counts the indices at which the strings differ and
    accepts up to two; the test on the lengths never changes the
    result; the relation is reflexive and symmetric. *)
Theorem isSimilar_differences (a b : string) :
  isSimilar a b = (differences a b <=? 2)%nat
  /\ isSimilar a b = isSimilar b a
  /\ isSimilar a a = true.
Proof.
  split; [apply isSimilar_count|]. split.
  - rewrite !isSimilar_count. unfold differences.
    rewrite (Nat.max_comm (String.length b)).
    rewrite (filter_ext_seq (differsAt a b) (differsAt b a)); [reflexivity|].
    intros j _. apply differsAt_sym.
  - rewrite isSimilar_count. unfold differences.
    rewrite (filter_ext_seq (differsAt a a) (fun _ => false)).
    + assert (Hnone : forall i n, List.filter (fun _ : nat => false) (seq i n) = []).
      { intros i n. revert i. induction n as [|n IH]; intros i; simpl; [reflexivity|].
        apply IH. }
      now rewrite Hnone.
    + intros j _. apply differsAt_refl.
Qed.

(** ** [findSimilarNames] *)

(** X24.  The suggestions are the first five names of the global scope, in
    the order of [getAllProperties], that contain the lowercased
    expression, are contained in it, or differ from it at no more than
    two indices, once lowercased. *)
Theorem findSimilarNames_first_five (localeCompare : string -> string -> Z)
    (globalScope : Completion.Chain) (expression : string) :
  findSimilarNames localeCompare globalScope expression
  = List.firstn 5
      (List.filter (similarTo (Js.toLowerCase expression))
         (Completion.getAllProperties localeCompare globalScope "")).
Proof.
  unfold findSimilarNames.
  generalize (Completion.getAllProperties localeCompare globalScope "") as globalProps.
  set (lowerExpr := Js.toLowerCase expression).
  assert (Hloop : forall globalProps suggestions,
            length suggestions < 5 ->
            suggest lowerExpr globalProps suggestions
            = List.firstn 5 (suggestions ++ List.filter (similarTo lowerExpr) globalProps)).
  { induction globalProps as [|prop rest IH]; intros suggestions Hlen;
      cbn [suggest List.filter].
    - rewrite List.app_nil_r. symmetry. apply List.firstn_all2. lia.
    - destruct (similarTo lowerExpr prop); [|now apply IH].
      cbv zeta.
      assert (Hone : length (suggestions ++ [prop])%list = length suggestions + 1)
        by (rewrite List.length_app; reflexivity).
      replace (suggestions ++ prop :: List.filter (similarTo lowerExpr) rest)%list
        with ((suggestions ++ [prop]) ++ List.filter (similarTo lowerExpr) rest)%list
        by now rewrite <- List.app_assoc.
      destruct (Nat.leb_spec 5 (length (suggestions ++ [prop])%list)) as [Hfull|Hmore].
      + rewrite List.firstn_app.
        replace (5 - length (suggestions ++ [prop])%list) with 0 by lia.
        rewrite List.firstn_O, List.app_nil_r. symmetry. apply List.firstn_all2. lia.
      + now apply IH. }
  intros globalProps. rewrite Hloop by (simpl; lia). reflexivity.
Qed.

(** ** [extractExpressionAtCursor] *)

Lemma allChars_app test s t :
  allChars test (s +:+ t) = allChars test s && allChars test t.
Proof.
  unfold allChars. induction s as [|c s IH]; [reflexivity|].
  rewrite cons_app. simpl. rewrite IH. now rewrite andb_assoc.
Qed.

Lemma allChars_charAt test s i c :
  allChars test s = true -> Js.charAt s i = Some c -> test c = true.
Proof.
  unfold allChars, Js.charAt. revert i. induction s as [|d s IH]; intros i; simpl;
    [discriminate|].
  intros [Hd Hs]%andb_true_iff. destruct i as [|i]; simpl.
  - now intros [= <-].
  - now apply IH.
Qed.

(** The last character of [s], when there is one, fails [test]. *)
Definition endsOutside (test : ascii -> bool) (s : string) : Prop :=
  forall c, Js.charAt s (String.length s - 1) = Some c -> test c = false.

(** The first character of [s], when there is one, fails [test]. *)
Definition startsOutside (test : ascii -> bool) (s : string) : Prop :=
  forall c, Js.charAt s 0 = Some c -> test c = false.

Lemma matchAtEnd_split test s :
  exists front,
    s = front +:+ matchAtEnd test s
    /\ allChars test (matchAtEnd test s) = true
    /\ endsOutside test front.
Proof.
  induction s as [|c s IH].
  - exists "". split; [reflexivity|]. split; [reflexivity|]. intros c Hc. discriminate.
  - cbn [matchAtEnd]. destruct (allChars test (String c s)) eqn:Hall.
    + exists "". split; [reflexivity|]. split; [exact Hall|]. intros d Hd. discriminate.
    + destruct IH as (front & Hs & Hmatch & Hfront).
      exists (String c front). split; [now rewrite cons_app, <- Hs|].
      split; [exact Hmatch|].
      intros d Hd. destruct front as [|e front].
      * simpl in Hd. injection Hd as <-.
        change ("" +:+ matchAtEnd test s) with (matchAtEnd test s) in Hs.
        rewrite <- Hs in Hmatch.
        unfold allChars in *. simpl in Hall. rewrite Hmatch, andb_true_r in Hall. exact Hall.
      * apply Hfront. simpl in Hd |- *. now rewrite Nat.sub_0_r in *.
Qed.

Lemma matchAtStart_split test s :
  exists back,
    s = matchAtStart test s +:+ back
    /\ allChars test (matchAtStart test s) = true
    /\ startsOutside test back.
Proof.
  induction s as [|c s IH].
  - exists "". split; [reflexivity|]. split; [reflexivity|]. intros c Hc. discriminate.
  - cbn [matchAtStart]. destruct (test c) eqn:Hc.
    + destruct IH as (back & Hs & Hmatch & Hback).
      exists back. split; [now rewrite cons_app, <- Hs|]. split; [|exact Hback].
      unfold allChars in *. simpl. now rewrite Hc.
    + exists (String c s). split; [reflexivity|]. split; [reflexivity|].
      intros d [= <-]. exact Hc.
Qed.

Lemma matchAtEnd_empty test s :
  matchAtEnd test s = "" <-> endsOutside test s.
Proof.
  destruct (matchAtEnd_split test s) as (front & Hs & Hmatch & Hfront).
  split.
  - intros Hempty. rewrite Hempty, app_nil_r in Hs. now subst front.
  - intros Hends. destruct (matchAtEnd test s) as [|c m] eqn:Hm; [reflexivity|exfalso].
    assert (Hlast : exists d, Js.charAt (String c m) (String.length (String c m) - 1) = Some d).
    { apply charAt_length. simpl. lia. }
    destruct Hlast as [d Hd].
    assert (Hin : test d = true) by (eapply allChars_charAt; eassumption).
    rewrite (Hends d) in Hin; [discriminate|].
    rewrite Hs, length_app.
    replace (String.length front + String.length (String c m) - 1)
      with (String.length front + (String.length (String c m) - 1)) by (simpl; lia).
    now rewrite charAt_app_r.
Qed.

(** X25.  No expression is found exactly when the cursor is at offset 0 or
    the character before it is none of [A-Za-z0-9_.$].  An expression
    that is found is a stretch of the source around the cursor: at
    least one character of [A-Za-z0-9_.$] before the cursor, as many as
    there are, then the characters of [A-Za-z0-9_] that follow the
    cursor, as many as there are. *)
Theorem extractExpressionAtCursor_stretch (code : string) (cursorPos : nat) :
  let cursor := Nat.min cursorPos (String.length code) in
  (extractExpressionAtCursor code cursorPos = None
   <-> forall c, 0 < cursor -> Js.charAt code (cursor - 1) = Some c ->
                 isExpressionChar c = false)
  /\ forall expression,
       extractExpressionAtCursor code cursorPos = Some expression ->
       exists front before after back,
         code = front +:+ before +:+ after +:+ back
         /\ expression = before +:+ after
         /\ String.length (front +:+ before) = cursor
         /\ before <> ""
         /\ allChars isExpressionChar before = true
         /\ allChars isWord after = true
         /\ endsOutside isExpressionChar front
         /\ startsOutside isWord back.
Proof.
  intros cursor. unfold extractExpressionAtCursor.
  rewrite substring_prefix, substringFrom_drop.
  assert (Htake : String.length (take cursorPos code) = cursor) by apply length_take.
  split.
  - transitivity (matchAtEnd isExpressionChar (take cursorPos code) = "").
    { destruct (matchAtEnd isExpressionChar (take cursorPos code)); split; congruence. }
    rewrite matchAtEnd_empty. unfold endsOutside. rewrite Htake.
    assert (Hchar : 0 < cursor ->
              Js.charAt (take cursorPos code) (cursor - 1) = Js.charAt code (cursor - 1)).
    { intros Hpos. rewrite <- (take_drop cursorPos code) at 2.
      symmetry. apply charAt_app_l. lia. }
    split.
    + intros Hends c Hpos Hc. apply Hends. now rewrite Hchar.
    + intros Hends c Hc. destruct (Nat.eq_dec cursor 0) as [Hzero|Hpos].
      * assert (Hlt : cursor - 1 < String.length (take cursorPos code))
          by (apply charAt_length; eauto). lia.
      * apply Hends; [lia|]. rewrite <- Hchar by lia. exact Hc.
  - intros expression.
    destruct (matchAtEnd_split isExpressionChar (take cursorPos code))
      as (front & Hbefore & Hclass & Hfront).
    destruct (matchAtStart_split isWord (drop cursorPos code))
      as (back & Hafter & Hword & Hback).
    destruct (matchAtEnd isExpressionChar (take cursorPos code)) as [|c before] eqn:Hmatch;
      [discriminate|].
    intros [= <-].
    exists front, (String c before), (matchAtStart isWord (drop cursorPos code)), back.
    split; [|split; [reflexivity|split; [|split; [discriminate|auto]]]].
    + rewrite <- (take_drop cursorPos code) at 1. rewrite Hbefore at 1. rewrite Hafter at 1.
      now rewrite !app_assoc.
    + now rewrite <- Hbefore.
Qed.

(** The cursor inside [Math.floor] in [y = Math.floor(1)]. *)
Lemma extractExpressionAtCursor_stretch_witness :
  exists front before after back,
    "y = Math.floor(1)" = front +:+ before +:+ after +:+ back
    /\ "Math.floor" = before +:+ after
    /\ String.length (front +:+ before) = Nat.min 10 (String.length "y = Math.floor(1)")
    /\ before <> ""
    /\ allChars isExpressionChar before = true
    /\ allChars isWord after = true
    /\ endsOutside isExpressionChar front
    /\ startsOutside isWord back.
Proof.
  apply (proj2 (extractExpressionAtCursor_stretch "y = Math.floor(1)" 10) "Math.floor").
  reflexivity.
Defined.

End Inspection.

(** * executor.ts: stack traces *)

Module StackTrace.
Import StringFacts.

(** What [cleanStackTrace] reads of an [Error]. *)
Record Error : Type := { stack : option string }.

(** The test that ends the loop over the lines. *)
Definition isInternal (line : string) : bool :=
  Inspection.includes line "makeAsyncFromCode"
  || Inspection.includes line "new Function"
  || Inspection.includes line "asyncFunction".

(** The loop: the lines before the first internal one. *)
Fixpoint usedLines (errStackLines : list string) : list string :=
  match errStackLines with
  | [] => []
  | line :: rest => if isInternal line then [] else line :: usedLines rest
  end.

(** [error.stack || ''] *)
Definition errStackStr (error : Error) : string := default "" (stack error).

(** [cleanStackTrace(error)] *)
Definition cleanStackTrace (error : Error) : string :=
  Js.join LineCompletion.newline (usedLines (Js.split "010" (errStackStr error))).

Lemma usedLines_prefix lines : exists dropped, lines = (usedLines lines ++ dropped)%list.
Proof.
  induction lines as [|line rest [dropped IH]]; simpl; [now exists []|].
  destruct (isInternal line); [now eexists|].
  exists dropped. simpl. now rewrite <- IH.
Qed.

Lemma usedLines_clean lines : Forall (fun line => isInternal line = false) (usedLines lines).
Proof.
  induction lines as [|line rest IH]; simpl; [constructor|].
  destruct (isInternal line) eqn:Hline; [constructor|]. now constructor.
Qed.

Lemma usedLines_all lines :
  Forall (fun line => isInternal line = false) lines -> usedLines lines = lines.
Proof.
  induction 1 as [|line rest Hline _ IH]; simpl; [reflexivity|].
  now rewrite Hline, IH.
Qed.

Lemma usedLines_free lines :
  Forall (fun line => free "010" line = true) lines ->
  Forall (fun line => free "010" line = true) (usedLines lines).
Proof.
  induction 1 as [|line rest Hline _ IH]; simpl; [constructor|].
  destruct (isInternal line); [constructor|]. now constructor.
Qed.

Lemma join_prefix sep used dropped :
  exists rest, Js.join sep (used ++ dropped)%list = Js.join sep used +:+ rest.
Proof.
  induction used as [|line used [rest IH]].
  - now eexists.
  - destruct used as [|next used].
    + destruct dropped as [|next dropped]; [exists ""; simpl; now rewrite app_nil_r|].
      eexists. change ([line] ++ next :: dropped)%list with (line :: next :: dropped).
      rewrite join_cons by discriminate. reflexivity.
    + change ((line :: next :: used) ++ dropped)%list
        with (line :: ((next :: used) ++ dropped))%list.
      rewrite !join_cons by discriminate. rewrite IH. exists rest.
      now rewrite !app_assoc.
Qed.

Lemma cleanStackTrace_lines error :
  Js.split "010" (cleanStackTrace error) = [""]
  \/ Js.split "010" (cleanStackTrace error) = usedLines (Js.split "010" (errStackStr error)).
Proof.
  unfold cleanStackTrace.
  destruct (usedLines (Js.split "010" (errStackStr error))) as [|line used] eqn:Hused;
    [now left|right].
  rewrite <- Hused. apply split_join; [rewrite Hused; discriminate|].
  apply usedLines_free, split_lines_free.
Qed.

(** X26.  The cleaned trace is the beginning of the stack text; none of its
    lines names [makeAsyncFromCode], [new Function] or [asyncFunction];
    a stack none of whose lines does so comes back unchanged; and
    cleaning a cleaned trace changes nothing. *)
Theorem cleanStackTrace_prefix (error : Error) :
  let cleaned := cleanStackTrace error in
  (exists rest, errStackStr error = cleaned +:+ rest)
  /\ Forall (fun line => isInternal line = false) (Js.split "010" cleaned)
  /\ (Forall (fun line => isInternal line = false) (Js.split "010" (errStackStr error)) ->
      cleaned = errStackStr error)
  /\ cleanStackTrace {| stack := Some cleaned |} = cleaned.
Proof.
  intros cleaned.
  assert (Hclean : Forall (fun line => isInternal line = false) (Js.split "010" cleaned)).
  { destruct (cleanStackTrace_lines error) as [Hlines|Hlines]; subst cleaned;
      rewrite Hlines; [now repeat constructor|apply usedLines_clean]. }
  assert (Hsame : forall text,
            Forall (fun line => isInternal line = false) (Js.split "010" text) ->
            cleanStackTrace {| stack := Some text |} = text).
  { intros text Hall. unfold cleanStackTrace, errStackStr. simpl.
    rewrite (usedLines_all _ Hall). apply join_split. }
  split; [|split; [exact Hclean|split]].
  - subst cleaned. unfold cleanStackTrace.
    destruct (usedLines_prefix (Js.split "010" (errStackStr error))) as [dropped Hlines].
    destruct (join_prefix LineCompletion.newline
                (usedLines (Js.split "010" (errStackStr error))) dropped) as [rest Hrest].
    exists rest. rewrite <- Hrest, <- Hlines. symmetry. apply join_split.
  - intros Hall. subst cleaned. unfold cleanStackTrace.
    rewrite (usedLines_all _ Hall). apply join_split.
  - now apply Hsame.
Qed.

(** A stack with one user frame above the frames of the kernel. *)
Definition userStack : string :=
  "Error: boom" +:+ LineCompletion.newline +:+ "    at f (eval:1:7)".

Lemma cleanStackTrace_prefix_witness :
  cleanStackTrace {| stack := Some userStack |} = userStack.
Proof.
  destruct (cleanStackTrace_prefix {| stack := Some userStack |}) as (_ & _ & Hsame & _).
  apply Hsame. repeat constructor.
Defined.

End StackTrace.
